(** * A shallow embedding of the search server of [search_server3.cpp]

    The file follows the C++ source top-down: the tokenizer, the
    [SearchServer] class with its private helpers, and then the properties
    of ingestion, query parsing, ranking and matching. *)

From Stdlib Require Import Reals Lra Ascii.
From stdpp Require Import gmap strings list.
From Stdlib Require Import Permutation Sorting.Sorted.
From Stdlib Require OrderedTypeEx.

Local Open Scope string_scope.
Local Open Scope list_scope.
Local Open Scope Z_scope.

(** ** Exceptions

    The code throws [std::invalid_argument] and [std::out_of_range], each
    with a message.  A call either returns a value or throws. *)

Inductive exception :=
  | invalid_argument (what : string)
  | out_of_range (what : string).

Inductive result (A : Type) :=
  | Ok (a : A)
  | Throw (e : exception).
Arguments Ok {A} a.
Arguments Throw {A} e.

#[global] Instance result_ret : MRet result := @Ok.
#[global] Instance result_bind : MBind result := fun A B f r =>
  match r with
  | Ok a => f a
  | Throw e => Throw e
  end.

Definition is_Ok {A} (r : result A) : Prop := exists a, r = Ok a.
Definition is_Throw {A} (r : result A) : Prop := exists e, r = Throw e.

(** ** Tokenizer *)

Definition is_space (c : ascii) : bool := bool_decide (c = " "%char).

(** The loop of [SplitIntoWords]: [words] and [word] are the two local
    variables, [text] is what is left to read. *)
Fixpoint SplitIntoWords_loop (text : string) (words : list string) (word : string)
  : list string :=
  match text with
  | EmptyString =>
      if bool_decide (word = "") then words else words ++ [word]
  | String c rest =>
      if is_space c then
        if bool_decide (word = "") then SplitIntoWords_loop rest words word
        else SplitIntoWords_loop rest (words ++ [word]) ""
      else SplitIntoWords_loop rest words (word +:+ String c "")
  end.

Definition SplitIntoWords (text : string) : list string :=
  SplitIntoWords_loop text [] "".

(** [IsValidWord]: no character [c] with ['\0' <= c && c < ' '].  Whether
    [char] is signed or not, the bytes that satisfy the test are 0..31. *)
Definition is_special (c : ascii) : bool := (N_of_ascii c <? 32)%N.

Fixpoint IsValidWord (word : string) : bool :=
  match word with
  | EmptyString => true
  | String c rest => negb (is_special c) && IsValidWord rest
  end.

(** ** [std::set<string>]: iterated in ascending order, no duplicates *)

Fixpoint set_insert (x : string) (l : list string) : list string :=
  match l with
  | [] => [x]
  | y :: l' =>
      match String.compare x y with
      | Lt => x :: l
      | Eq => l
      | Gt => y :: set_insert x l'
      end
  end.

(** ** [std::map<int, V>]: iterated in ascending key order *)

Section int_map.
Context {V : Type}.

Fixpoint imap_find (k : Z) (m : list (Z * V)) : option V :=
  match m with
  | [] => None
  | (k', v) :: m' => if k =? k' then Some v else imap_find k m'
  end.

(** [m[k] = f (m[k])], where [operator[]] first creates the entry with
    the value-initialised [dflt] when the key is missing. *)
Fixpoint imap_update (k : Z) (f : V -> V) (dflt : V) (m : list (Z * V))
  : list (Z * V) :=
  match m with
  | [] => [(k, f dflt)]
  | (k', v) :: m' =>
      if k <? k' then (k, f dflt) :: m
      else if k =? k' then (k', f v) :: m'
      else (k', v) :: imap_update k f dflt m'
  end.

Fixpoint imap_erase (k : Z) (m : list (Z * V)) : list (Z * V) :=
  match m with
  | [] => []
  | (k', v) :: m' =>
      if k =? k' then imap_erase k m' else (k', v) :: imap_erase k m'
  end.

Definition imap_keys (m : list (Z * V)) : list Z := map fst m.

(** The keys come in strictly ascending order. *)
Definition imap_sorted (m : list (Z * V)) : Prop :=
  StronglySorted Z.lt (imap_keys m).
End int_map.

(** ** Arithmetic on [double]

    The operations the code applies to [double] values.  Nothing is
    assumed about them, so every statement below holds for IEEE doubles
    as well as for exact real arithmetic. *)

Class DoubleOps (D : Type) := {
  of_int : Z -> D;          (* conversion from an integer type *)
  dadd : D -> D -> D;
  dsub : D -> D -> D;
  dmul : D -> D -> D;
  ddiv : D -> D -> D;
  dlog : D -> D;       (* std::log *)
  dabs : D -> D;       (* std::abs *)
  dlt : D -> D -> bool (* operator< *)
}.

(** Exact real arithmetic, without rounding.  It is not the arithmetic of
    [double]: it serves to build examples, and the properties of the code
    are stated for every interpretation of the operations. *)
#[global] Instance real_ops : DoubleOps R := {
  of_int := IZR;
  dadd := Rplus;
  dsub := Rminus;
  dmul := Rmult;
  ddiv := Rdiv;
  dlog := ln;
  dabs := Rabs;
  dlt := fun x y => if Rlt_dec x y then true else false
}.

(** ** [std::sort]

    The library routine is not part of the source; it is taken by its
    contract: the output is a rearrangement of the input, and it is
    ordered by [comp] when [comp] is a strict weak ordering of the
    elements. *)

Record strict_weak_order_on {A} (comp : A -> A -> bool) (l : list A) : Prop := {
  swo_irrefl : forall a, In a l -> comp a a = false;
  swo_trans : forall a b c, In a l -> In b l -> In c l ->
    comp a b = true -> comp b c = true -> comp a c = true;
  swo_incomp_trans : forall a b c, In a l -> In b l -> In c l ->
    comp a b = false -> comp b a = false ->
    comp b c = false -> comp c b = false ->
    comp a c = false /\ comp c a = false
}.

(** No later element goes before an earlier one. *)
Definition ordered_by {A} (comp : A -> A -> bool) (l : list A) : Prop :=
  StronglySorted (fun a b => comp b a = false) l.

Class StdSort := {
  std_sort : forall {A}, (A -> A -> bool) -> list A -> list A;
  std_sort_permutation : forall A (comp : A -> A -> bool) l,
    Permutation (std_sort comp l) l;
  std_sort_ordered : forall A (comp : A -> A -> bool) l,
    strict_weak_order_on comp l -> ordered_by comp (std_sort comp l)
}.

(** ** The data of the server *)

Definition MAX_RESULT_DOCUMENT_COUNT : Z := 5.

Definition EPSILON {D : Type} {ops : DoubleOps D} : D :=
  ddiv (of_int 1) (of_int 1000000).

Record Document {D : Type} := {
  doc_id : Z;
  doc_relevance : D;
  doc_rating : Z
}.
Arguments Document : clear implicits.

Inductive DocumentStatus := ACTUAL | IRRELEVANT | BANNED | REMOVED.

#[global] Instance DocumentStatus_eq_dec : EqDecision DocumentStatus.
Proof. solve_decision. Defined.

Record DocumentData := {
  data_rating : Z;
  data_status : DocumentStatus
}.

Record SearchServer {D : Type} := {
  stop_words_ : list string;
  word_to_document_freqs_ : gmap string (list (Z * D));
  documents_ : gmap Z DocumentData;
  ids_ : list Z
}.
Arguments SearchServer : clear implicits.

Record QueryWord := {
  qw_data : string;
  qw_is_minus : bool;
  qw_is_stop : bool
}.

Record Query := {
  plus_words : list string;
  minus_words : list string;
  stop_words : list string
}.

Definition empty_query : Query :=
  {| plus_words := []; minus_words := []; stop_words := [] |}.

(** 32-bit [int]: the value kept after an arithmetic operation. *)
Definition int_wrap (z : Z) : Z := (z + 2 ^ 31) mod 2 ^ 32 - 2 ^ 31.
Definition in_int_range (z : Z) : Prop := - 2 ^ 31 <= z < 2 ^ 31.

(** ** The class [SearchServer] *)

Section search_server.
Context {D : Type} {ops : DoubleOps D} {sorter : StdSort}.

Abbreviation Server := (SearchServer D).
Abbreviation Doc := (Document D).

(** [MakeUniqueNonEmptyStrings] *)
Definition MakeUniqueNonEmptyStrings (strings : list string) : list string :=
  fold_left (fun non_empty_strings str =>
               if bool_decide (str = "") then non_empty_strings
               else set_insert str non_empty_strings)
            strings [].

(** The three constructors. *)
Definition SearchServer_default : Server :=
  {| stop_words_ := []; word_to_document_freqs_ := ∅;
     documents_ := ∅; ids_ := [] |}.

Definition SearchServer_from_container (stop_words : list string)
  : result Server :=
  if forallb IsValidWord stop_words then
    Ok {| stop_words_ := MakeUniqueNonEmptyStrings stop_words;
          word_to_document_freqs_ := ∅; documents_ := ∅; ids_ := [] |}
  else Throw (invalid_argument "Bad constructors stop arguments").

Definition SearchServer_from_text (stop_words_text : string) : result Server :=
  SearchServer_from_container (SplitIntoWords stop_words_text).

Definition GetDocumentCount (s : Server) : Z :=
  Z.of_nat (size (documents_ s)).

(** [ids_.at(index)] *)
Definition vector_at (v : list Z) (index : Z) : result Z :=
  match v !! Z.to_nat index with
  | Some x => if 0 <=? index then Ok x else Throw (out_of_range "vector::at")
  | None => Throw (out_of_range "vector::at")
  end.

Definition GetDocumentId (s : Server) (index : Z) : result Z :=
  if (0 <=? index) && (index <? GetDocumentCount s) then
    vector_at (ids_ s) index
  else Throw (out_of_range "Wrong index of document").

Definition IsStopWord (s : Server) (word : string) : bool :=
  bool_decide (word ∈ stop_words_ s).

Fixpoint SplitIntoWordsNoStop_loop (s : Server) (input : list string)
    (words : list string) : result (list string) :=
  match input with
  | [] => Ok words
  | word :: rest =>
      if negb (IsValidWord word) then
        Throw (invalid_argument "Invalid word try to add")
      else if negb (IsStopWord s word) then
        SplitIntoWordsNoStop_loop s rest (words ++ [word])
      else SplitIntoWordsNoStop_loop s rest words
  end.

Definition SplitIntoWordsNoStop (s : Server) (text : string)
  : result (list string) :=
  SplitIntoWordsNoStop_loop s (SplitIntoWords text) [].

Definition ComputeAverageRating (ratings : list Z) : Z :=
  match ratings with
  | [] => 0
  | _ =>
      let rating_sum :=
        fold_left (fun rating_sum rating => int_wrap (rating_sum + rating))
                  ratings 0 in
      Z.quot rating_sum (int_wrap (Z.of_nat (length ratings)))
  end.

(** [AddDocument] changes the server, and it can throw: it maps the
    state before the call to the outcome and the state after it. *)
Definition add_word_freq (document_id : Z) (inv_word_count : D)
    (s : Server) (word : string) : Server :=
  let posting := default [] (word_to_document_freqs_ s !! word) in
  {| stop_words_ := stop_words_ s;
     word_to_document_freqs_ :=
       <[word := imap_update document_id
                   (fun freq => dadd freq inv_word_count) (of_int 0) posting]>
         (word_to_document_freqs_ s);
     documents_ := documents_ s;
     ids_ := ids_ s |}.

Definition emplace_document (document_id : Z) (data : DocumentData)
    (s : Server) : Server :=
  {| stop_words_ := stop_words_ s;
     word_to_document_freqs_ := word_to_document_freqs_ s;
     documents_ :=
       match documents_ s !! document_id with
       | Some _ => documents_ s
       | None => <[document_id := data]> (documents_ s)
       end;
     ids_ := ids_ s |}.

Definition push_back_id (document_id : Z) (s : Server) : Server :=
  {| stop_words_ := stop_words_ s;
     word_to_document_freqs_ := word_to_document_freqs_ s;
     documents_ := documents_ s;
     ids_ := ids_ s ++ [document_id] |}.

Definition AddDocument (document_id : Z) (document : string)
    (status : DocumentStatus) (ratings : list Z) (s : Server)
  : result unit * Server :=
  if bool_decide (is_Some (documents_ s !! document_id)) then
    (Throw (invalid_argument "Document ID is already exist"), s)
  else if document_id <? 0 then
    (Throw (invalid_argument "Document ID is negative"), s)
  else
    match SplitIntoWordsNoStop s document with
    | Throw e => (Throw e, s)
    | Ok words =>
        let inv_word_count := ddiv (of_int 1) (of_int (Z.of_nat (length words))) in
        let s1 := fold_left (add_word_freq document_id inv_word_count) words s in
        let s2 := emplace_document document_id
                    {| data_rating := ComputeAverageRating ratings;
                       data_status := status |} s1 in
        (Ok (), push_back_id document_id s2)
    end.

(** [ParseQueryWord]: [text] is a by-value copy that the body shortens. *)
Definition ParseQueryWord (s : Server) (text : string) : result QueryWord :=
  let '(is_minus, text) :=
    match text with
    | String "-" rest => (true, rest)
    | _ => (false, text)
    end in
  if bool_decide (text = "")
     || match text with String "-" _ => true | _ => false end
     || negb (IsValidWord text)
  then Throw (invalid_argument "Invalid word try to request")
  else Ok {| qw_data := text; qw_is_minus := is_minus;
             qw_is_stop := IsStopWord s text |}.

(** The body of the loop of [ParseQuery] after a word has been parsed. *)
Definition add_query_word (query : Query) (word : string) (query_word : QueryWord)
  : Query :=
  if negb (qw_is_stop query_word) then
    if qw_is_minus query_word then
      {| plus_words := plus_words query;
         minus_words := set_insert (qw_data query_word) (minus_words query);
         stop_words := stop_words query |}
    else
      {| plus_words := set_insert (qw_data query_word) (plus_words query);
         minus_words := minus_words query;
         stop_words := stop_words query |}
  else
    {| plus_words := plus_words query;
       minus_words := minus_words query;
       stop_words := set_insert word (stop_words query) |}.

Fixpoint ParseQuery_loop (s : Server) (words : list string) (query : Query)
  : result Query :=
  match words with
  | [] => Ok query
  | word :: rest =>
      query_word ← ParseQueryWord s word;
      if bool_decide (qw_data query_word = "") then Ok empty_query
      else ParseQuery_loop s rest (add_query_word query word query_word)
  end.

Definition ParseQuery (s : Server) (text : string) : result Query :=
  ParseQuery_loop s (SplitIntoWords text) empty_query.

(** [ComputeWordInverseDocumentFreq]; [at] throws when the word is missing. *)
Definition ComputeWordInverseDocumentFreq (s : Server) (word : string) : result D :=
  match word_to_document_freqs_ s !! word with
  | None => Throw (out_of_range "map::at")
  | Some posting =>
      Ok (dlog (ddiv (dmul (of_int (GetDocumentCount s)) (of_int 1))
                     (of_int (Z.of_nat (length posting)))))
  end.

Definition DocumentPredicate : Type := Z -> DocumentStatus -> Z -> bool.

(** The inner loop of the first loop of [FindAllDocuments]. *)
Fixpoint accumulate_posting (s : Server) (document_predicate : DocumentPredicate)
    (inverse_document_freq : D) (posting : list (Z * D))
    (document_to_relevance : list (Z * D)) : result (list (Z * D)) :=
  match posting with
  | [] => Ok document_to_relevance
  | (document_id, term_freq) :: rest =>
      match documents_ s !! document_id with
      | None => Throw (out_of_range "map::at")
      | Some document_data =>
          accumulate_posting s document_predicate inverse_document_freq rest
            (if document_predicate document_id (data_status document_data)
                                   (data_rating document_data)
             then imap_update document_id
                    (fun r => dadd r (dmul term_freq inverse_document_freq))
                    (of_int 0) document_to_relevance
             else document_to_relevance)
      end
  end.

Fixpoint accumulate_plus_words (s : Server) (document_predicate : DocumentPredicate)
    (words : list string) (document_to_relevance : list (Z * D))
  : result (list (Z * D)) :=
  match words with
  | [] => Ok document_to_relevance
  | word :: rest =>
      match word_to_document_freqs_ s !! word with
      | None => accumulate_plus_words s document_predicate rest document_to_relevance
      | Some posting =>
          inverse_document_freq ← ComputeWordInverseDocumentFreq s word;
          document_to_relevance ←
            accumulate_posting s document_predicate inverse_document_freq
                               posting document_to_relevance;
          accumulate_plus_words s document_predicate rest document_to_relevance
      end
  end.

Definition erase_posting (posting : list (Z * D))
    (document_to_relevance : list (Z * D)) : list (Z * D) :=
  fold_left (fun m entry => imap_erase (fst entry) m) posting document_to_relevance.

Definition erase_minus_words (s : Server) (words : list string)
    (document_to_relevance : list (Z * D)) : list (Z * D) :=
  fold_left (fun m word =>
               match word_to_document_freqs_ s !! word with
               | None => m
               | Some posting => erase_posting posting m
               end)
            words document_to_relevance.

Fixpoint collect_documents (s : Server) (document_to_relevance : list (Z * D))
  : result (list Doc) :=
  match document_to_relevance with
  | [] => Ok []
  | (document_id, relevance) :: rest =>
      match documents_ s !! document_id with
      | None => Throw (out_of_range "map::at")
      | Some document_data =>
          result ← collect_documents s rest;
          Ok ({| doc_id := document_id; doc_relevance := relevance;
                 doc_rating := data_rating document_data |} :: result)
      end
  end.

Definition FindAllDocuments (s : Server) (query : Query)
    (document_predicate : DocumentPredicate) : result (list Doc) :=
  document_to_relevance ←
    accumulate_plus_words s document_predicate (plus_words query) [];
  collect_documents s
    (erase_minus_words s (minus_words query) document_to_relevance).

(** The comparator handed to [std::sort]. *)
Definition by_relevance (lhs rhs : Doc) : bool :=
  if dlt (dabs (dsub (doc_relevance lhs) (doc_relevance rhs))) EPSILON then
    doc_rating rhs <? doc_rating lhs
  else dlt (doc_relevance rhs) (doc_relevance lhs).

Definition is_stop_only (query : Query) : bool :=
  bool_decide (plus_words query = []) && bool_decide (minus_words query = [])
  && negb (bool_decide (stop_words query = [])).

Definition FindTopDocuments (s : Server) (raw_query : string)
    (document_predicate : DocumentPredicate) : result (list Doc) :=
  if negb (IsValidWord raw_query) then
    Throw (invalid_argument "Invalid requests text")
  else if bool_decide (raw_query = "") then
    Throw (invalid_argument "Raw query is empty")
  else
    query ← ParseQuery s raw_query;
    if is_stop_only query then Ok []
    else
      result ← FindAllDocuments s query document_predicate;
      let result := std_sort by_relevance result in
      Ok (if MAX_RESULT_DOCUMENT_COUNT <? Z.of_nat (length result)
          then take (Z.to_nat MAX_RESULT_DOCUMENT_COUNT) result
          else result).

Definition FindTopDocuments_status (s : Server) (raw_query : string)
    (status : DocumentStatus) : result (list Doc) :=
  FindTopDocuments s raw_query
    (fun document_id document_status rating =>
       bool_decide (document_status = status)).

Definition FindTopDocuments_default (s : Server) (raw_query : string)
  : result (list Doc) :=
  FindTopDocuments_status s raw_query ACTUAL.

Definition posting_has (s : Server) (word : string) (document_id : Z) : bool :=
  match word_to_document_freqs_ s !! word with
  | None => false
  | Some posting => bool_decide (is_Some (imap_find document_id posting))
  end.

(** The second loop of [MatchDocument], with its [break]. *)
Fixpoint clear_on_minus_hit (s : Server) (document_id : Z) (words : list string)
    (matched_words : list string) : list string :=
  match words with
  | [] => matched_words
  | word :: rest =>
      if posting_has s word document_id then []
      else clear_on_minus_hit s document_id rest matched_words
  end.

Definition MatchDocument (s : Server) (raw_query : string) (document_id : Z)
  : result (list string * DocumentStatus) :=
  if bool_decide (documents_ s !! document_id = None) then
    Throw (invalid_argument "Wrong document ID (it has no exist)")
  else
    query ← ParseQuery s raw_query;
    if is_stop_only query then Ok ([], ACTUAL)
    else
      let matched_words :=
        fold_left (fun (matched_words : list string) word =>
                     if posting_has s word document_id
                     then matched_words ++ [word] else matched_words)
                  (plus_words query) [] in
      let matched_words :=
        clear_on_minus_hit s document_id (minus_words query) matched_words in
      match documents_ s !! document_id with
      | None => Throw (out_of_range "map::at")
      | Some document_data => Ok (matched_words, data_status document_data)
      end.


(** ** States a program can reach

    A server is built by one of its constructors and then changed only by
    calls to [AddDocument] that return normally. *)

Inductive reachable : Server -> Prop :=
  | reachable_default : reachable SearchServer_default
  | reachable_from_container stop_words s :
      SearchServer_from_container stop_words = Ok s -> reachable s
  | reachable_from_text stop_words_text s :
      SearchServer_from_text stop_words_text = Ok s -> reachable s
  | reachable_AddDocument s document_id document status ratings s' :
      reachable s ->
      AddDocument document_id document status ratings s = (Ok (), s') ->
      reachable s'.

(** The insertion-order sequence lists the keys of the document map, each
    once. *)
Definition ids_match_documents (s : Server) : Prop :=
  NoDup (ids_ s) /\
  forall document_id,
    In document_id (ids_ s) <-> is_Some (documents_ s !! document_id).

(** Every id in a posting is a key of the document map. *)
Definition postings_within_documents (s : Server) : Prop :=
  forall word posting document_id,
    word_to_document_freqs_ s !! word = Some posting ->
    In document_id (imap_keys posting) ->
    is_Some (documents_ s !! document_id).

(** What the list representation of the maps must satisfy, together with
    what the constructors check. *)
Record well_formed (s : Server) : Prop := {
  wf_stop_words : Forall (fun word => IsValidWord word = true) (stop_words_ s);
  wf_ids : ids_match_documents s;
  wf_ids_length : length (ids_ s) = size (documents_ s);
  wf_postings : postings_within_documents s;
  wf_posting_keys : forall word posting,
    word_to_document_freqs_ s !! word = Some posting -> imap_sorted posting
}.

(** ** The statements of the specification, in its own words *)

(** Inverse document frequency of a term with the given posting:
    [ln(total_document_count / number_of_documents_containing_term)], the
    count being converted to [double] through the product with [1.0]. *)
Definition inverse_document_frequency (s : Server) (posting : list (Z * D)) : D :=
  dlog (ddiv (dmul (of_int (GetDocumentCount s)) (of_int 1))
             (of_int (Z.of_nat (length posting)))).

(** The sum, over the terms that are in the index and hit the document, of
    term frequency times inverse document frequency, added up from [0.0]
    in the order of the terms. *)
Definition add_tf_idf (s : Server) (document_id : Z) (sum : D) (term : string) : D :=
  match word_to_document_freqs_ s !! term with
  | None => sum
  | Some posting =>
      match imap_find document_id posting with
      | None => sum
      | Some term_frequency =>
          dadd sum (dmul term_frequency (inverse_document_frequency s posting))
      end
  end.

Definition relevance_sum (s : Server) (document_id : Z) (terms : list string) : D :=
  fold_left (add_tf_idf s document_id) terms (of_int 0).

(** A leading ['-'] removed once. *)
Definition strip_minus (token : string) : string :=
  match token with
  | String "-" rest => rest
  | _ => token
  end.

Definition has_minus (token : string) : bool :=
  match token with
  | String "-" _ => true
  | _ => false
  end.

Fixpoint has_control_character (text : string) : Prop :=
  match text with
  | EmptyString => False
  | String c rest => (N_of_ascii c < 32)%N \/ has_control_character rest
  end.

(** The three reasons for which a stripped query term is refused. *)
Definition bad_query_term (term : string) : Prop :=
  term = "" \/ has_minus term = true \/ has_control_character term.

(** The set of the query a parsed token belongs to. *)
Definition classified (query : Query) (token : string) (query_word : QueryWord)
  : Prop :=
  (qw_is_stop query_word = false /\ qw_is_minus query_word = false /\
   In (qw_data query_word) (plus_words query)) \/
  (qw_is_stop query_word = false /\ qw_is_minus query_word = true /\
   In (qw_data query_word) (minus_words query)) \/
  (qw_is_stop query_word = true /\ In token (stop_words query)).

Fixpoint only_spaces (text : string) : bool :=
  match text with
  | EmptyString => true
  | String c rest => is_space c && only_spaces rest
  end.

(** The mean of the ratings over the integers, rounded towards zero. *)
Definition truncated_mean (ratings : list Z) : Z :=
  match ratings with
  | [] => 0
  | _ => Z.quot (foldr Z.add 0 ratings) (Z.of_nat (length ratings))
  end.

(** No partial sum leaves the range of [int]. *)
Fixpoint sums_in_int_range (rating_sum : Z) (ratings : list Z) : Prop :=
  match ratings with
  | [] => True
  | rating :: rest =>
      in_int_range (rating_sum + rating) /\
      sums_in_int_range (rating_sum + rating) rest
  end.

(** The order the specification asks of a result. *)
Definition ranked (result : list Doc) : Prop := ordered_by by_relevance result.

End search_server.

(** ** One sorting routine that meets the contract of [std::sort] *)

Fixpoint insert_by {A} (comp : A -> A -> bool) (x : A) (l : list A) : list A :=
  match l with
  | [] => [x]
  | y :: l' => if comp x y then x :: l else y :: insert_by comp x l'
  end.

Definition insertion_sort {A} (comp : A -> A -> bool) (l : list A) : list A :=
  foldr (insert_by comp) [] l.


(** ** Servers used as examples

    They are built over the real numbers, with insertion sort for
    [std::sort]. *)

Definition everything : DocumentPredicate := fun _ _ _ => true.

(** Stop words "in the", as in the unit test of the source. *)
Definition stop_server : SearchServer R :=
  match SearchServer_from_text "in the" with
  | Ok s => s
  | Throw _ => SearchServer_default
  end.

Definition cat_server : SearchServer R :=
  snd (AddDocument 42 "cat in the city" ACTUAL [1; 2; 3] stop_server).

(** The two documents of [TestMinusWordsExcluded]. *)
Definition alabama_server : SearchServer R :=
  snd (AddDocument 12 "sweet home alabama in" ACTUAL [1] SearchServer_default).

Definition music_server : SearchServer R :=
  snd (AddDocument 4 "love me tender love me too" ACTUAL [12; 1; 5]
         alabama_server).

(** A corpus on which relevances come closer than [EPSILON] to each
    other: four documents hold the word "w" once among 1000, 1001, 1002
    and 1003 words, four other documents do not hold it. *)

Fixpoint filler (n : nat) : string :=
  match n with
  | O => ""
  | S n => " x" +:+ filler n
  end.

Definition long_document (n : nat) : string := "w" +:+ filler n.

Definition cycle_corpus : list (Z * string * list Z) :=
  [(1, long_document 999, [1]); (2, long_document 1000, [2]);
   (3, long_document 1001, [3]); (4, long_document 1002, [4]);
   (5, "x", []); (6, "x", []); (7, "x", []); (8, "x", [])].

Fixpoint add_all (corpus : list (Z * string * list Z)) (s : SearchServer R)
  : SearchServer R :=
  match corpus with
  | [] => s
  | (document_id, document, ratings) :: rest =>
      add_all rest (snd (AddDocument document_id document ACTUAL ratings s))
  end.

Fixpoint all_added (corpus : list (Z * string * list Z)) (s : SearchServer R)
  : bool :=
  match corpus with
  | [] => true
  | (document_id, document, ratings) :: rest =>
      match AddDocument document_id document ACTUAL ratings s with
      | (Ok _, s') => all_added rest s'
      | (Throw _, _) => false
      end
  end.

Definition cycle_server : SearchServer R := add_all cycle_corpus SearchServer_default.

(** What the search for "w" finds on [cycle_server] for the document
    with the given id and number of words. *)
Definition cycle_doc (document_id : Z) (word_count : Z) : Document R :=
  {| doc_id := document_id;
     doc_relevance := (0 + (0 + 1 / IZR word_count) * ln (8 * 1 / 4))%R;
     doc_rating := document_id |}.

(** A corpus for the order of the results: six documents hold the word
    "w" once, among 6, 3, 2, 1, 2 and 4 words, six other documents do not
    hold it; the two documents of two words have different ratings. *)
Definition rank_corpus : list (Z * string * list Z) :=
  [(1, "w x x x x x", [1]); (2, "w x x", [5]); (3, "w x", [2]);
   (4, "w", [3]); (5, "w x", [7]); (6, "w x x x", [4]);
   (7, "x", []); (8, "x", []); (9, "x", []); (10, "x", []); (11, "x", []);
   (12, "x", [])].

Definition rank_server : SearchServer R := add_all rank_corpus SearchServer_default.

(** What the search for "w" finds on [rank_server] for the document with
    the given id, number of words and rating. *)
Definition rank_doc (document_id word_count rating : Z) : Document R :=
  {| doc_id := document_id;
     doc_relevance := (0 + (0 + 1 / IZR word_count) * ln (12 * 1 / 6))%R;
     doc_rating := rating |}.

(** ** Further notions used to state what the code does *)

Fixpoint no_space (word : string) : bool :=
  match word with
  | EmptyString => true
  | String c rest => negb (is_space c) && no_space rest
  end.

(** A word as [SplitIntoWords] yields it: not empty and free of spaces. *)
Definition is_word (word : string) : Prop := word <> "" /\ no_space word = true.

Fixpoint remove_spaces (text : string) : string :=
  match text with
  | EmptyString => ""
  | String c rest =>
      if is_space c then remove_spaces rest else String c (remove_spaces rest)
  end.

(** The order of [std::set<string>]. *)
Definition string_lt (x y : string) : Prop := String.compare x y = Lt.

Definition set_sorted (l : list string) : Prop := StronglySorted string_lt l.

(** The words of a document that are indexed. *)
Definition indexed_words {D : Type} (s : SearchServer D) (document : string)
  : list string :=
  List.filter (fun word => negb (IsStopWord s word)) (SplitIntoWords document).

(** What [FindAllDocuments] looks for: a document that passes the
    predicate, is in the posting of a plus word and of no minus word. *)
Definition matches {D : Type} (s : SearchServer D) (query : Query)
    (document_predicate : DocumentPredicate) (document_id : Z) : Prop :=
  (exists data, documents_ s !! document_id = Some data /\
     document_predicate document_id (data_status data) (data_rating data) = true) /\
  (exists word, In word (plus_words query) /\
     posting_has s word document_id = true) /\
  (forall word, In word (minus_words query) ->
     posting_has s word document_id = false).

(** The relevance of the specification.  The term frequency stored for a
    document under a term, the number of documents that hold the term,
    and their product with the logarithm of
    [total_document_count / number_of_documents_containing_term] (the
    count goes to [double] through the product with [1.0], as in the
    code), summed from [0.0] over the terms whose posting holds the
    document, in the order of the terms. *)
Definition stored_frequency {D : Type} {ops : DoubleOps D} (s : SearchServer D)
    (term : string) (document_id : Z) : D :=
  match word_to_document_freqs_ s !! term with
  | Some posting => default (of_int 0) (imap_find document_id posting)
  | None => of_int 0
  end.

Definition document_frequency {D : Type} (s : SearchServer D) (term : string) : Z :=
  Z.of_nat (length (default [] (word_to_document_freqs_ s !! term))).

Definition tf_idf {D : Type} {ops : DoubleOps D} (s : SearchServer D)
    (document_id : Z) (term : string) : D :=
  dmul (stored_frequency s term document_id)
       (dlog (ddiv (dmul (of_int (GetDocumentCount s)) (of_int 1))
                   (of_int (document_frequency s term)))).

Definition tf_idf_sum {D : Type} {ops : DoubleOps D} (s : SearchServer D)
    (document_id : Z) (terms : list string) : D :=
  fold_left (fun sum term => dadd sum (tf_idf s document_id term))
    (List.filter (fun term => posting_has s term document_id) terms)
    (of_int 0).

(** The order of the specification between an entry and one that comes
    later: when the two relevances differ by less than 1e-6 the later
    rating is not the larger one, otherwise the later relevance is not
    the larger one. *)
Definition in_rank_order {D : Type} {ops : DoubleOps D}
    (earlier later : Document D) : Prop :=
  if dlt (dabs (dsub (doc_relevance later) (doc_relevance earlier))) EPSILON
  then doc_rating later <= doc_rating earlier
  else dlt (doc_relevance earlier) (doc_relevance later) = false.

(** Signs, read with the comparison of the code: [x < 0.0] does not hold;
    [x < 1.0] does not hold. *)
Definition not_negative {D : Type} {ops : DoubleOps D} (x : D) : Prop :=
  dlt x (of_int 0) = false.

Definition at_least_one {D : Type} {ops : DoubleOps D} (x : D) : Prop :=
  dlt x (of_int 1) = false.

(** * Properties *)

(** ** Results *)

Lemma Ok_not_Throw {A} (r : result A) : is_Ok r -> is_Throw r -> False.
Proof. intros [a ->] [e He]. discriminate. Qed.

Lemma Ok_or_Throw {A} (r : result A) : is_Ok r \/ is_Throw r.
Proof. destruct r; [left|right]; eexists; reflexivity. Qed.

(** ** Sets of strings *)

Lemma set_insert_In x y l : In y (set_insert x l) <-> y = x \/ In y l.
Proof.
  induction l as [|z l IH]; simpl.
  - intuition.
  - destruct (String.compare x z) eqn:Hcmp; simpl.
    + apply String.compare_eq_iff in Hcmp. subst. intuition.
    + intuition.
    + rewrite IH. intuition.
Qed.

Lemma set_insert_not_nil x l : set_insert x l <> [].
Proof.
  destruct l as [|z l]; simpl; [done|].
  destruct (String.compare x z); done.
Qed.

(** ** Maps with integer keys *)

Section int_map_facts.
Context {V : Type}.
Implicit Types (m : list (Z * V)) (k : Z).

Lemma imap_keys_find k m : In k (imap_keys m) <-> is_Some (imap_find k m).
Proof.
  induction m as [|[k0 v0] m IH]; simpl.
  - split; [done|]. by intros [? ?].
  - destruct (k =? k0) eqn:Heq.
    + apply Z.eqb_eq in Heq. subst. split; [by eexists|by left].
    + apply Z.eqb_neq in Heq. rewrite <- IH.
      split; [intros [?|?]; [congruence|done]|by right].
Qed.

Lemma imap_sorted_cons k0 v0 m :
  imap_sorted ((k0, v0) :: m) ->
  imap_sorted m /\ forall k, k <= k0 -> imap_find k m = None.
Proof.
  intros Hsorted. apply StronglySorted_inv in Hsorted as [Hsorted Hall].
  split; [done|]. intros k Hle.
  destruct (imap_find k m) eqn:Hfind; [|done].
  assert (Hin : In k (imap_keys m)) by (apply imap_keys_find; eauto).
  rewrite Forall_forall in Hall. apply list_elem_of_In, Hall in Hin.
  simpl in Hin. lia.
Qed.

Lemma imap_sorted_NoDup m : imap_sorted m -> NoDup (imap_keys m).
Proof.
  induction m as [|[k0 v0] m IH]; simpl; intros Hsorted.
  - constructor.
  - pose proof (imap_sorted_cons _ _ _ Hsorted) as [Hm Hnone].
    apply NoDup_cons. split; [|by apply IH].
    rewrite list_elem_of_In, imap_keys_find, (Hnone k0) by lia.
    by intros [? ?].
Qed.

Lemma imap_find_update k k' f dflt m :
  imap_sorted m ->
  imap_find k' (imap_update k f dflt m) =
  if decide (k' = k) then Some (f (default dflt (imap_find k m)))
  else imap_find k' m.
Proof.
  induction m as [|[k0 v0] m IH]; simpl; intros Hsorted.
  - destruct (decide (k' = k)) as [->|Hne].
    + by rewrite Z.eqb_refl.
    + apply Z.eqb_neq in Hne. by rewrite Hne.
  - pose proof (imap_sorted_cons _ _ _ Hsorted) as [Hm Hnone].
    destruct (k <? k0) eqn:Hlt; simpl.
    + apply Z.ltb_lt in Hlt.
      assert ((k =? k0) = false) as Hkk0 by (apply Z.eqb_neq; lia).
      rewrite Hkk0, (Hnone k) by lia.
      destruct (decide (k' = k)) as [->|Hne].
      * by rewrite Z.eqb_refl.
      * apply Z.eqb_neq in Hne. by rewrite Hne.
    + destruct (k =? k0) eqn:Heq; simpl.
      * apply Z.eqb_eq in Heq. subst k0.
        destruct (decide (k' = k)) as [->|Hne].
        -- by rewrite Z.eqb_refl.
        -- apply Z.eqb_neq in Hne. by rewrite Hne.
      * rewrite (IH Hm). destruct (decide (k' = k)) as [->|Hne].
        -- by rewrite Heq.
        -- done.
Qed.

Lemma imap_keys_update k k' f dflt m :
  imap_sorted m ->
  In k' (imap_keys (imap_update k f dflt m)) <-> k' = k \/ In k' (imap_keys m).
Proof.
  intros Hsorted. rewrite !imap_keys_find, imap_find_update by done.
  destruct (decide (k' = k)) as [->|Hne].
  - split; [by left|by eexists].
  - intuition.
Qed.

Lemma imap_update_sorted k f dflt m :
  imap_sorted m -> imap_sorted (imap_update k f dflt m).
Proof.
  induction m as [|[k0 v0] m IH]; simpl; intros Hsorted.
  - repeat constructor.
  - pose proof (imap_sorted_cons _ _ _ Hsorted) as [Hm _].
    destruct (k <? k0) eqn:Hlt.
    + apply Z.ltb_lt in Hlt. constructor; [done|].
      apply StronglySorted_inv in Hsorted as [_ Hall]. simpl.
      constructor; [done|].
      eapply Forall_impl; [exact Hall|]. simpl. lia.
    + destruct (k =? k0) eqn:Heq; [done|].
      apply Z.ltb_ge in Hlt. apply Z.eqb_neq in Heq.
      constructor; [by apply IH|].
      apply StronglySorted_inv in Hsorted as [_ Hall].
      rewrite Forall_forall in Hall |- *. intros k' Hk'.
      apply list_elem_of_In in Hk'. apply imap_keys_update in Hk'; [|done].
      destruct Hk' as [->|Hk']; simpl in *; [lia|].
      by apply Hall, list_elem_of_In.
Qed.

Lemma imap_find_erase k k' m :
  imap_find k' (imap_erase k m) =
  if decide (k' = k) then None else imap_find k' m.
Proof.
  induction m as [|[k0 v0] m IH]; simpl.
  - by destruct (decide (k' = k)).
  - destruct (k =? k0) eqn:Heq; simpl.
    + apply Z.eqb_eq in Heq. subst k0. rewrite IH.
      destruct (decide (k' = k)) as [->|Hne]; [done|].
      apply Z.eqb_neq in Hne. by rewrite Hne.
    + rewrite IH. destruct (decide (k' = k)) as [->|Hne]; [|done].
      by rewrite Heq.
Qed.

Lemma imap_keys_erase k k' m :
  In k' (imap_keys (imap_erase k m)) <-> k' <> k /\ In k' (imap_keys m).
Proof.
  rewrite !imap_keys_find, imap_find_erase.
  destruct (decide (k' = k)) as [->|Hne].
  - split; [by intros [? ?]|by intros [? _]].
  - intuition.
Qed.

Lemma imap_erase_sorted k m : imap_sorted m -> imap_sorted (imap_erase k m).
Proof.
  induction m as [|[k0 v0] m IH]; simpl; intros Hsorted; [done|].
  pose proof (imap_sorted_cons _ _ _ Hsorted) as [Hm _].
  destruct (k =? k0); [by apply IH|].
  constructor; [by apply IH|].
  apply StronglySorted_inv in Hsorted as [_ Hall].
  rewrite Forall_forall in Hall |- *. intros k' Hk'.
  apply list_elem_of_In, imap_keys_erase in Hk' as [_ Hk'].
  by apply Hall, list_elem_of_In.
Qed.

Lemma imap_In_find k v m : imap_sorted m -> In (k, v) m -> imap_find k m = Some v.
Proof.
  induction m as [|[k0 v0] m IH]; simpl; [done|].
  intros Hsorted Hin.
  pose proof (imap_sorted_cons _ _ _ Hsorted) as [Hm Hnone].
  destruct Hin as [[= -> ->]|Hin].
  - by rewrite Z.eqb_refl.
  - destruct (k =? k0) eqn:Heq; [|by apply IH].
    apply Z.eqb_eq in Heq. subst k0.
    specialize (Hnone k (Z.le_refl k)). by rewrite (IH Hm Hin) in Hnone.
Qed.

Lemma imap_find_Some_In k v m : imap_find k m = Some v -> In (k, v) m.
Proof.
  induction m as [|[k0 v0] m IH]; simpl; [done|].
  destruct (k =? k0) eqn:Heq.
  - apply Z.eqb_eq in Heq. intros [= ->]. subst. by left.
  - intros Hfind. right. by apply IH.
Qed.

End int_map_facts.

(** ** Insertion sort meets the contract of [std::sort] *)

Lemma insert_by_permutation {A} (comp : A -> A -> bool) x l :
  Permutation (insert_by comp x l) (x :: l).
Proof.
  induction l as [|y l IH]; simpl; [done|].
  destruct (comp x y); [done|].
  rewrite IH. apply perm_swap.
Qed.

Lemma insertion_sort_permutation {A} (comp : A -> A -> bool) l :
  Permutation (insertion_sort comp l) l.
Proof.
  induction l as [|x l IH]; simpl; [done|].
  rewrite insert_by_permutation. apply perm_skip, IH.
Qed.

Lemma insert_by_ordered {A} (comp : A -> A -> bool) (u : list A) x l :
  strict_weak_order_on comp u -> In x u -> (forall y, In y l -> In y u) ->
  ordered_by comp l -> ordered_by comp (insert_by comp x l).
Proof.
  intros Hswo Hx Hl Hsorted.
  induction Hsorted as [|y l Hsorted IH Hy]; simpl.
  - repeat constructor.
  - destruct (comp x y) eqn:Hxy.
    + constructor; [by constructor|].
      constructor.
      * destruct (comp y x) eqn:Hyx; [|done].
        rewrite <- (swo_irrefl comp u Hswo x Hx).
        symmetry. apply (swo_trans comp u Hswo x y x); auto with datatypes.
      * rewrite Forall_forall in Hy |- *. intros b Hb.
        destruct (comp b x) eqn:Hbx; [|done].
        rewrite <- (Hy b Hb).
        symmetry. apply list_elem_of_In in Hb.
        apply (swo_trans comp u Hswo b x y); auto with datatypes.
    + constructor.
      * apply IH. intros b Hb. apply Hl. by right.
      * rewrite Forall_forall in Hy |- *. intros b Hb.
        apply list_elem_of_In in Hb.
        apply (Permutation_in _ (insert_by_permutation comp x l)) in Hb.
        destruct Hb as [<-|Hb]; [done|].
        apply Hy. by apply list_elem_of_In.
Qed.

Lemma insertion_sort_ordered {A} (comp : A -> A -> bool) l :
  strict_weak_order_on comp l -> ordered_by comp (insertion_sort comp l).
Proof.
  intros Hswo.
  assert (Hsub : forall y, In y l -> In y l) by auto.
  revert Hsub. generalize l at 1 3. intros l'.
  induction l' as [|x l' IH]; simpl; intros Hsub.
  - constructor.
  - apply (insert_by_ordered comp l); auto with datatypes.
    intros y Hy. apply Hsub. right.
    by apply (Permutation_in _ (insertion_sort_permutation comp l')).
Qed.

Definition insertion_std_sort : StdSort := {|
  std_sort := @insertion_sort;
  std_sort_permutation := @insertion_sort_permutation;
  std_sort_ordered := @insertion_sort_ordered
|}.

(** ** The tokenizer *)

Lemma is_space_not_special c : is_space c = true -> is_special c = false.
Proof.
  unfold is_space. intros Hc. apply bool_decide_eq_true in Hc. by subst.
Qed.

Lemma IsValidWord_app word c :
  IsValidWord (word +:+ String c "") = IsValidWord word && negb (is_special c).
Proof.
  induction word as [|c' word IH]; simpl.
  - by rewrite andb_true_r.
  - rewrite IH. by rewrite andb_assoc.
Qed.

Lemma forallb_snoc {A} (f : A -> bool) l x :
  forallb f (l ++ [x]) = forallb f l && f x.
Proof. rewrite forallb_app. simpl. by rewrite andb_true_r. Qed.

Lemma SplitIntoWords_loop_valid text words word :
  forallb IsValidWord (SplitIntoWords_loop text words word) =
  forallb IsValidWord words && IsValidWord word && IsValidWord text.
Proof.
  revert words word.
  induction text as [|c text IH]; intros words word; simpl.
  - case_bool_decide as Hword.
    + subst. simpl. by rewrite !andb_true_r.
    + rewrite forallb_snoc. by rewrite andb_true_r.
  - destruct (is_space c) eqn:Hc.
    + rewrite (is_space_not_special c Hc). simpl.
      case_bool_decide as Hword; rewrite IH.
      * done.
      * rewrite forallb_snoc. simpl. by rewrite andb_true_r.
    + rewrite IH, IsValidWord_app.
      destruct (forallb IsValidWord words), (IsValidWord word),
        (is_special c), (IsValidWord text); done.
Qed.

(** A text is valid exactly when all its words are. *)
Lemma IsValidWord_SplitIntoWords text :
  IsValidWord text = forallb IsValidWord (SplitIntoWords text).
Proof. unfold SplitIntoWords. by rewrite SplitIntoWords_loop_valid. Qed.

Lemma SplitIntoWords_loop_only_spaces text words :
  only_spaces text = true -> SplitIntoWords_loop text words "" = words.
Proof.
  induction text as [|c text IH]; simpl; [done|].
  intros [Hc Htext]%andb_true_iff. rewrite Hc. simpl. by apply IH.
Qed.

Lemma SplitIntoWords_only_spaces text :
  only_spaces text = true -> SplitIntoWords text = [].
Proof. apply SplitIntoWords_loop_only_spaces. Qed.

Lemma SplitIntoWords_loop_grows text words word :
  exists more, SplitIntoWords_loop text words word = words ++ more.
Proof.
  revert words word.
  induction text as [|c text IH]; intros words word; simpl.
  - case_bool_decide; [exists []|exists [word]]; by rewrite ?app_nil_r.
  - destruct (is_space c).
    + case_bool_decide; [apply IH|].
      destruct (IH (words ++ [word]) "") as [more ->].
      exists (word :: more). by rewrite <- app_assoc.
    + apply IH.
Qed.

Lemma SplitIntoWords_loop_nil text word :
  SplitIntoWords_loop text [] word = [] -> word = "" /\ only_spaces text = true.
Proof.
  revert word. induction text as [|c text IH]; intros word; simpl.
  - case_bool_decide; [done|discriminate].
  - destruct (is_space c); simpl.
    + case_bool_decide as Hword; [apply IH|].
      destruct (SplitIntoWords_loop_grows text [word] "") as [more ->].
      discriminate.
    + intros [Hword _]%IH. by destruct word.
Qed.

(** Only a text without any non-space character has no word. *)
Lemma SplitIntoWords_nil text :
  SplitIntoWords text = [] -> only_spaces text = true.
Proof. intros Hloop. by apply SplitIntoWords_loop_nil in Hloop as [_ ?]. Qed.

(** ** Ratings *)

Lemma int_wrap_in_range z : in_int_range z -> int_wrap z = z.
Proof.
  unfold in_int_range, int_wrap. intros Hz.
  rewrite Z.mod_small; lia.
Qed.

Lemma rating_sum_exact ratings rating_sum :
  sums_in_int_range rating_sum ratings ->
  fold_left (fun rating_sum rating => int_wrap (rating_sum + rating))
            ratings rating_sum
  = rating_sum + foldr Z.add 0 ratings.
Proof.
  revert rating_sum.
  induction ratings as [|rating ratings IH]; intros rating_sum; simpl.
  - lia.
  - intros [Hsum Hrest]. rewrite (int_wrap_in_range _ Hsum), (IH _ Hrest). lia.
Qed.

(** C7, as amended: when no partial sum of the ratings leaves the range of
    [int] and the number of ratings fits in an [int], the stored rating is
    the sum of the ratings divided by their number and rounded towards
    zero, and it is 0 for no ratings. *)
Theorem ComputeAverageRating_truncated_mean (ratings : list Z) :
  sums_in_int_range 0 ratings ->
  in_int_range (Z.of_nat (length ratings)) ->
  ComputeAverageRating ratings = truncated_mean ratings.
Proof.
  intros Hsums Hlength.
  destruct ratings as [|rating ratings]; [done|].
  unfold ComputeAverageRating, truncated_mean.
  rewrite (rating_sum_exact _ _ Hsums), (int_wrap_in_range _ Hlength).
  by rewrite Z.add_0_l.
Qed.

(** The examples of the specification: {12,1,5} gives 6, {-2,5,3} gives 2,
    {1} gives 1. *)
Lemma ComputeAverageRating_examples :
  ComputeAverageRating [12; 1; 5] = 6 /\
  ComputeAverageRating [-2; 5; 3] = 2 /\
  ComputeAverageRating [1] = 1 /\
  ComputeAverageRating [] = 0.
Proof.
  split; [|split; [|split]].
  - apply (ComputeAverageRating_truncated_mean [12; 1; 5]);
      cbv; intuition congruence.
  - apply (ComputeAverageRating_truncated_mean [-2; 5; 3]);
      cbv; intuition congruence.
  - apply (ComputeAverageRating_truncated_mean [1]);
      cbv; intuition congruence.
  - apply (ComputeAverageRating_truncated_mean []);
      cbv; intuition congruence.
Defined.

(** C7 as stated fails where the sum overflows: for {2147483647, 1} the
    code yields -1073741824, the truncated mean is 1073741824. *)
Lemma ComputeAverageRating_overflow :
  ComputeAverageRating [2147483647; 1] = -1073741824 /\
  truncated_mean [2147483647; 1] = 1073741824 /\
  ComputeAverageRating [2147483647; 1] <> truncated_mean [2147483647; 1].
Proof. repeat split. discriminate. Qed.

(** ** Query parsing *)

Section query_parsing.
Context {D : Type} {ops : DoubleOps D}.
Implicit Types (s : SearchServer D) (query : Query) (token word : string).

Lemma IsValidWord_false text :
  IsValidWord text = false <-> has_control_character text.
Proof.
  induction text as [|c text IH]; simpl.
  - split; [done|tauto].
  - unfold is_special at 1. rewrite andb_false_iff, negb_false_iff, N.ltb_lt, IH.
    tauto.
Qed.

Lemma IsValidWord_control text :
  IsValidWord text = true <-> ~ has_control_character text.
Proof.
  rewrite <- IsValidWord_false. by destruct (IsValidWord text).
Qed.

Lemma ParseQueryWord_unfold s token :
  ParseQueryWord s token =
  if bool_decide (strip_minus token = "") || has_minus (strip_minus token)
     || negb (IsValidWord (strip_minus token))
  then Throw (invalid_argument "Invalid word try to request")
  else Ok {| qw_data := strip_minus token; qw_is_minus := has_minus token;
             qw_is_stop := IsStopWord s (strip_minus token) |}.
Proof.
  destruct token as [|[[] [] [] [] [] [] [] []] rest]; reflexivity.
Qed.

Lemma ParseQueryWord_Throw s token :
  is_Throw (ParseQueryWord s token) <-> bad_query_term (strip_minus token).
Proof.
  rewrite ParseQueryWord_unfold. unfold bad_query_term.
  destruct (bool_decide _ || _ || _) eqn:Hbad.
  - split; [intros _|by eexists].
    apply orb_true_iff in Hbad as [Hbad|Hbad].
    + apply orb_true_iff in Hbad as [Hbad|Hbad]; [|tauto].
      apply bool_decide_eq_true in Hbad. tauto.
    + right. right. apply negb_true_iff in Hbad.
      by apply IsValidWord_false.
  - apply orb_false_iff in Hbad as [Hbad Hvalid].
    apply orb_false_iff in Hbad as [Hempty Hminus].
    apply bool_decide_eq_false in Hempty. apply negb_false_iff in Hvalid.
    apply IsValidWord_control in Hvalid.
    split; [by intros [? ?]|]. intros [?|[?|?]]; [done|congruence|done].
Qed.

Lemma ParseQueryWord_Ok s token query_word :
  ParseQueryWord s token = Ok query_word ->
  query_word = {| qw_data := strip_minus token; qw_is_minus := has_minus token;
                  qw_is_stop := IsStopWord s (strip_minus token) |} /\
  strip_minus token <> "" /\ IsValidWord (strip_minus token) = true.
Proof.
  rewrite ParseQueryWord_unfold.
  destruct (bool_decide _ || _ || _) eqn:Hbad; [done|].
  intros [= <-].
  apply orb_false_iff in Hbad as [Hbad Hvalid].
  apply orb_false_iff in Hbad as [Hempty _].
  apply bool_decide_eq_false in Hempty. apply negb_false_iff in Hvalid. done.
Qed.

Lemma ParseQueryWord_exception s token e :
  ParseQueryWord s token = Throw e ->
  e = invalid_argument "Invalid word try to request".
Proof.
  rewrite ParseQueryWord_unfold. destruct (bool_decide _ || _ || _); congruence.
Qed.

(** A token is valid when what is left of it after the ['-'] is. *)
Lemma IsValidWord_strip_minus token :
  IsValidWord (strip_minus token) = true -> IsValidWord token = true.
Proof.
  destruct token as [|[[] [] [] [] [] [] [] []] rest]; simpl; done.
Qed.

(** One turn of the loop of [ParseQuery] puts the word into one set and
    takes nothing out of the others. *)
Lemma add_query_word_classified query token query_word :
  classified (add_query_word query token query_word) token query_word.
Proof.
  unfold classified, add_query_word.
  destruct (qw_is_stop query_word), (qw_is_minus query_word); simpl;
    rewrite ?set_insert_In; tauto.
Qed.

Lemma add_query_word_grows query token query_word :
  (forall x, In x (plus_words query) ->
             In x (plus_words (add_query_word query token query_word))) /\
  (forall x, In x (minus_words query) ->
             In x (minus_words (add_query_word query token query_word))) /\
  (forall x, In x (stop_words query) ->
             In x (stop_words (add_query_word query token query_word))).
Proof.
  unfold add_query_word.
  destruct (qw_is_stop query_word), (qw_is_minus query_word); simpl;
    repeat split; intros x Hx; rewrite ?set_insert_In; tauto.
Qed.

Lemma classified_grows query query' token query_word :
  (forall x, In x (plus_words query) -> In x (plus_words query')) ->
  (forall x, In x (minus_words query) -> In x (minus_words query')) ->
  (forall x, In x (stop_words query) -> In x (stop_words query')) ->
  classified query token query_word -> classified query' token query_word.
Proof.
  unfold classified.
  intros Hp Hm Hs [(? & ? & ?)|[(? & ? & ?)|(? & ?)]]; auto 6.
Qed.

Lemma ParseQuery_loop_Throw s words query :
  is_Throw (ParseQuery_loop s words query) <->
  Exists (fun token => bad_query_term (strip_minus token)) words.
Proof.
  revert query. induction words as [|word words IH]; intros query; simpl.
  - rewrite Exists_nil. split; [by intros [? ?]|done].
  - rewrite Exists_cons, <- (ParseQueryWord_Throw s).
    destruct (ParseQueryWord s word) as [query_word|e] eqn:Hword; simpl.
    + apply ParseQueryWord_Ok in Hword as (-> & Hne & _). simpl.
      rewrite bool_decide_eq_false_2 by done. rewrite IH.
      split; [tauto|]. intros [[? ?]|?]; [done|tauto].
    + split; [left|]; by eexists.
Qed.

Lemma ParseQuery_loop_exception s words query e :
  ParseQuery_loop s words query = Throw e ->
  e = invalid_argument "Invalid word try to request".
Proof.
  revert query. induction words as [|word words IH]; intros query; simpl.
  - done.
  - destruct (ParseQueryWord s word) as [query_word|e'] eqn:Hword; simpl.
    + case_bool_decide; [done|]. apply IH.
    + intros [= <-]. by apply ParseQueryWord_exception in Hword.
Qed.

Lemma ParseQuery_loop_Ok s words query query' :
  ParseQuery_loop s words query = Ok query' ->
  ((forall x, In x (plus_words query) -> In x (plus_words query')) /\
   (forall x, In x (minus_words query) -> In x (minus_words query')) /\
   (forall x, In x (stop_words query) -> In x (stop_words query'))) /\
  Forall (fun token => exists query_word,
            ParseQueryWord s token = Ok query_word /\
            classified query' token query_word) words.
Proof.
  revert query. induction words as [|word words IH]; intros query; simpl.
  - intros [= <-]. split; [tauto|constructor].
  - destruct (ParseQueryWord s word) as [query_word|e] eqn:Hword; simpl; [|done].
    pose proof (ParseQueryWord_Ok _ _ _ Hword) as (Hqw & Hne & _).
    rewrite bool_decide_eq_false_2 by (by rewrite Hqw).
    intros (Hgrows & Hrest)%IH.
    pose proof (add_query_word_grows query word query_word) as (? & ? & ?).
    destruct Hgrows as (? & ? & ?).
    split; [repeat split; auto|].
    constructor; [|done]. exists query_word. split; [done|].
    eapply classified_grows; [..|apply add_query_word_classified]; done.
Qed.

(** Where the members of the parsed query come from. *)
Lemma ParseQuery_loop_origin s words query query' :
  ParseQuery_loop s words query = Ok query' ->
  (forall x, In x (plus_words query') -> In x (plus_words query) \/
     exists token, In token words /\ IsStopWord s (strip_minus token) = false /\
                   has_minus token = false /\ x = strip_minus token) /\
  (forall x, In x (minus_words query') -> In x (minus_words query) \/
     exists token, In token words /\ IsStopWord s (strip_minus token) = false /\
                   has_minus token = true /\ x = strip_minus token) /\
  (forall x, In x (stop_words query') -> In x (stop_words query) \/
     In x words /\ IsStopWord s (strip_minus x) = true).
Proof.
  revert query. induction words as [|word words IH]; intros query; simpl.
  - intros [= <-]. tauto.
  - destruct (ParseQueryWord s word) as [query_word|e] eqn:Hword; simpl; [|done].
    pose proof (ParseQueryWord_Ok _ _ _ Hword) as (Hqw & Hne & _).
    rewrite bool_decide_eq_false_2 by (by rewrite Hqw).
    intros (Hplus & Hminus & Hstop)%IH. subst query_word.
    unfold add_query_word in Hplus, Hminus, Hstop. simpl in *.
    split; [|split]; intros x Hx.
    + apply Hplus in Hx as [Hx|(token & Hin & Hs & Hm & ->)];
        [|right; exists token; auto].
      destruct (IsStopWord s (strip_minus word)) eqn:Hstopword,
        (has_minus word) eqn:Hminusword; simpl in Hx; try (by left).
      apply set_insert_In in Hx as [->|Hx]; [|by left].
      right. exists word. auto.
    + apply Hminus in Hx as [Hx|(token & Hin & Hs & Hm & ->)];
        [|right; exists token; auto].
      destruct (IsStopWord s (strip_minus word)) eqn:Hstopword,
        (has_minus word) eqn:Hminusword; simpl in Hx; try (by left).
      apply set_insert_In in Hx as [->|Hx]; [|by left].
      right. exists word. auto.
    + apply Hstop in Hx as [Hx|[Hin Hs]]; [|by right; auto].
      destruct (IsStopWord s (strip_minus word)) eqn:Hstopword,
        (has_minus word) eqn:Hminusword; simpl in Hx; try (by left).
      * apply set_insert_In in Hx as [->|Hx]; [by right; auto|by left].
      * apply set_insert_In in Hx as [->|Hx]; [by right; auto|by left].
Qed.

End query_parsing.

(** ** Stop-word-only and blank queries *)

Section degenerate_queries.
Context {D : Type} {ops : DoubleOps D} {sorter : StdSort}.
Implicit Types (s : SearchServer D) (query : Query) (token word : string).

(** A query that parses is a valid text. *)
Lemma ParseQuery_Ok_valid s raw_query query :
  ParseQuery s raw_query = Ok query -> IsValidWord raw_query = true.
Proof.
  intros [_ Hall]%ParseQuery_loop_Ok.
  rewrite IsValidWord_SplitIntoWords, forallb_forall.
  rewrite Forall_forall in Hall. intros token Htoken%list_elem_of_In.
  destruct (Hall token Htoken) as (query_word & Hword & _).
  apply ParseQueryWord_Ok in Hword as (_ & _ & Hvalid).
  by apply IsValidWord_strip_minus.
Qed.

Lemma list_without_members {A} (l : list A) : (forall x, ~ In x l) -> l = [].
Proof. destruct l as [|x l]; [done|]. intros Hnone. destruct (Hnone x). by left. Qed.

Lemma stop_only_query_parses s raw_query :
  SplitIntoWords raw_query <> [] ->
  Forall (fun token => exists query_word,
            ParseQueryWord s token = Ok query_word /\
            qw_is_stop query_word = true) (SplitIntoWords raw_query) ->
  exists query, ParseQuery s raw_query = Ok query /\ is_stop_only query = true.
Proof.
  intros Hwords Hstop. rewrite Forall_forall in Hstop.
  destruct (ParseQuery s raw_query) as [query|e] eqn:Hparse.
  - exists query. split; [done|].
    pose proof (ParseQuery_loop_origin _ _ _ _ Hparse) as (Hplus & Hminus & _).
    pose proof (ParseQuery_loop_Ok _ _ _ _ Hparse) as [_ Hall].
    assert (Hno : forall token, In token (SplitIntoWords raw_query) ->
                    IsStopWord s (strip_minus token) = false -> False).
    { intros token Hin%list_elem_of_In Hfalse.
      destruct (Hstop token Hin) as (query_word & Hword & Hflag).
      apply ParseQueryWord_Ok in Hword as (-> & _). simpl in Hflag. congruence. }
    unfold is_stop_only.
    rewrite (list_without_members (plus_words query)),
            (list_without_members (minus_words query)).
    + destruct (SplitIntoWords raw_query) as [|token tokens]; [done|].
      apply Forall_cons in Hall as [(query_word & Hword & Hclass) _].
      destruct (Hstop token) as (query_word' & Hword' & Hflag); [by left|].
      assert (query_word' = query_word) as -> by congruence.
      destruct Hclass as [(? & _)|[(? & _)|(_ & Hin)]]; [congruence..|].
      rewrite (bool_decide_eq_false_2 (stop_words query = [])); [done|].
      intros Heq. by rewrite Heq in Hin.
    + intros x [[]|(token & Hin & Hfalse & _)]%Hminus. eauto.
    + intros x [[]|(token & Hin & Hfalse & _)]%Hplus. eauto.
  - exfalso.
    assert (Hthrow : is_Throw (ParseQuery s raw_query)) by (by eexists).
    apply ParseQuery_loop_Throw, Exists_exists in Hthrow as (token & Hin & Hbad).
    destruct (Hstop token Hin) as (query_word & Hword & _).
    apply (ParseQueryWord_Throw s) in Hbad.
    apply (Ok_not_Throw (ParseQueryWord s token)); [by eexists|done].
Qed.

(** C4: when the query has at least one token and every token parses to a
    stop word, [FindTopDocuments] returns the empty sequence and
    [MatchDocument], for an indexed document, returns no matched word
    together with the status ACTUAL; neither call throws. *)
Theorem stop_only_query_short_circuit s (raw_query : string) :
  SplitIntoWords raw_query <> [] ->
  Forall (fun token => exists query_word,
            ParseQueryWord s token = Ok query_word /\
            qw_is_stop query_word = true) (SplitIntoWords raw_query) ->
  (forall document_predicate,
     FindTopDocuments s raw_query document_predicate = Ok []) /\
  (forall document_id, is_Some (documents_ s !! document_id) ->
     MatchDocument s raw_query document_id = Ok ([], ACTUAL)).
Proof.
  intros Hwords Hstop.
  destruct (stop_only_query_parses s raw_query Hwords Hstop)
    as (query & Hparse & Hquery).
  split.
  - intros document_predicate. unfold FindTopDocuments.
    rewrite (ParseQuery_Ok_valid _ _ _ Hparse). simpl.
    rewrite bool_decide_eq_false_2 by (by intros ->).
    rewrite Hparse. simpl. by rewrite Hquery.
  - intros document_id [data Hdata]. unfold MatchDocument.
    rewrite bool_decide_eq_false_2 by congruence.
    rewrite Hparse. simpl. by rewrite Hquery.
Qed.

(** C10: for a query that is empty or made of spaces only and an indexed
    document, [MatchDocument] returns no matched word together with the
    stored status of the document; [FindTopDocuments] on the empty query
    throws. *)
Theorem MatchDocument_blank_query s (raw_query : string) (document_id : Z)
    (data : DocumentData) :
  only_spaces raw_query = true ->
  documents_ s !! document_id = Some data ->
  MatchDocument s raw_query document_id = Ok ([], data_status data) /\
  (forall document_predicate,
     FindTopDocuments s "" document_predicate
     = Throw (invalid_argument "Raw query is empty")).
Proof.
  intros Hblank Hdata. split; [|done].
  unfold MatchDocument, ParseQuery.
  rewrite bool_decide_eq_false_2 by congruence.
  rewrite (SplitIntoWords_only_spaces _ Hblank). simpl. by rewrite Hdata.
Qed.

End degenerate_queries.

(** ** Ingestion *)

Section ingestion.
Context {D : Type} {ops : DoubleOps D}.
Implicit Types (s : SearchServer D) (word : string) (words : list string).

Lemma SplitIntoWordsNoStop_loop_Throw s input words :
  is_Throw (SplitIntoWordsNoStop_loop s input words) <->
  Exists (fun word => IsValidWord word = false) input.
Proof.
  revert words. induction input as [|word input IH]; intros words; simpl.
  - rewrite Exists_nil. split; [by intros [? ?]|done].
  - rewrite Exists_cons. destruct (IsValidWord word); simpl.
    + destruct (IsStopWord s word); simpl; rewrite IH;
        (split; [tauto|intros [?|?]; [discriminate|assumption]]).
    + split; [by left|]. by eexists.
Qed.

Lemma SplitIntoWordsNoStop_loop_Ok s input words words' :
  SplitIntoWordsNoStop_loop s input words = Ok words' ->
  words' = words ++ List.filter (fun word => negb (IsStopWord s word)) input.
Proof.
  revert words. induction input as [|word input IH]; intros words; simpl.
  - intros [= <-]. by rewrite app_nil_r.
  - destruct (IsValidWord word); simpl; [|done].
    destruct (IsStopWord s word) eqn:Hstop; simpl.
    + apply IH.
    + intros ->%IH. by rewrite <- app_assoc.
Qed.

Lemma SplitIntoWordsNoStop_exception s text e :
  SplitIntoWordsNoStop s text = Throw e ->
  e = invalid_argument "Invalid word try to add".
Proof.
  unfold SplitIntoWordsNoStop. generalize (@nil string) as words.
  induction (SplitIntoWords text) as [|word input IH]; intros words; simpl.
  - done.
  - destruct (IsValidWord word); simpl; [|congruence].
    destruct (IsStopWord s word); simpl; apply IH.
Qed.

(** What a call of [AddDocument] that returns has done. *)
Lemma AddDocument_Ok s document_id document status ratings s' :
  AddDocument document_id document status ratings s = (Ok (), s') ->
  documents_ s !! document_id = None /\ 0 <= document_id /\
  exists words,
    SplitIntoWordsNoStop s document = Ok words /\
    s' = push_back_id document_id
           (emplace_document document_id
              {| data_rating := ComputeAverageRating ratings;
                 data_status := status |}
              (fold_left
                 (add_word_freq document_id
                    (ddiv (of_int 1) (of_int (Z.of_nat (length words)))))
                 words s)).
Proof.
  unfold AddDocument. case_bool_decide as Hdup; [done|].
  destruct (document_id <? 0) eqn:Hneg; [done|].
  destruct (SplitIntoWordsNoStop s document) as [words|e]; [|done].
  intros [= <-]. apply Z.ltb_ge in Hneg.
  split; [|split; [done|by exists words]].
  destruct (documents_ s !! document_id) eqn:Hdoc; [|done].
  destruct Hdup. by eexists.
Qed.

(** When a call of [AddDocument] throws, and what it leaves behind. *)
Lemma AddDocument_Throw s document_id document status ratings :
  let outcome := AddDocument document_id document status ratings s in
  (is_Throw (fst outcome) <->
   is_Some (documents_ s !! document_id) \/ document_id < 0 \/
   Exists (fun word => IsValidWord word = false) (SplitIntoWords document)) /\
  (is_Throw (fst outcome) -> snd outcome = s).
Proof.
  unfold AddDocument. simpl.
  pose proof (SplitIntoWordsNoStop_loop_Throw s (SplitIntoWords document) [])
    as Hsplit. fold (SplitIntoWordsNoStop s document) in Hsplit.
  case_bool_decide as Hdup; simpl.
  { split; [|done]. split; [by left|by eexists]. }
  destruct (document_id <? 0) eqn:Hneg; simpl.
  { apply Z.ltb_lt in Hneg. split; [|done]. split; [tauto|by eexists]. }
  apply Z.ltb_ge in Hneg.
  destruct (SplitIntoWordsNoStop s document) as [words|e]; simpl.
  - split; [|by intros [? ?]].
    split; [by intros [? ?]|].
    intros [?|[?|[? ?]%Hsplit]]; [done|lia|done].
  - split; [|done].
    split; [intros _; right; right; apply Hsplit; by eexists|by eexists].
Qed.

(** C5: a call of [AddDocument] that throws does so for a duplicate id, a
    negative id or an invalid word of the text, and the server after the
    call is the server before it. *)
Theorem AddDocument_failure_keeps_state s (document_id : Z) (document : string)
    (status : DocumentStatus) (ratings : list Z) (e : exception)
    (s' : SearchServer D) :
  AddDocument document_id document status ratings s = (Throw e, s') ->
  s' = s /\
  (is_Some (documents_ s !! document_id) \/ document_id < 0 \/
   Exists (fun word => IsValidWord word = false) (SplitIntoWords document)).
Proof.
  intros Hcall.
  pose proof (AddDocument_Throw s document_id document status ratings)
    as [Hcause Hstate].
  simpl in *. rewrite Hcall in Hcause, Hstate. simpl in *.
  assert (Hthrow : is_Throw (@Throw () e)) by (by eexists).
  split; [by rewrite Hstate|by apply Hcause].
Qed.

End ingestion.

(** ** The invariant of reachable servers *)

Section invariant.
Context {D : Type} {ops : DoubleOps D}.
Implicit Types (s : SearchServer D) (word : string) (words : list string).

Lemma MakeUniqueNonEmptyStrings_In strings x :
  In x (MakeUniqueNonEmptyStrings strings) -> In x strings.
Proof.
  unfold MakeUniqueNonEmptyStrings.
  assert (Hgen : forall acc,
    In x (fold_left (fun non_empty_strings str =>
                       if bool_decide (str = "") then non_empty_strings
                       else set_insert str non_empty_strings) strings acc) ->
    In x acc \/ In x strings).
  { induction strings as [|str strings IH]; intros acc; simpl; [tauto|].
    intros [Hacc|Hrest]%IH; [|tauto].
    case_bool_decide; [tauto|].
    apply set_insert_In in Hacc as [->|?]; tauto. }
  intros [[]|?]%Hgen. done.
Qed.

Lemma SearchServer_from_container_well_formed stop_words s :
  SearchServer_from_container stop_words = Ok s -> well_formed s.
Proof.
  unfold SearchServer_from_container.
  destruct (forallb IsValidWord stop_words) eqn:Hvalid; [|done].
  intros [= <-]. rewrite forallb_forall in Hvalid.
  split; unfold ids_match_documents, postings_within_documents; simpl.
  - apply Forall_forall. intros word Hword%list_elem_of_In.
    by apply Hvalid, MakeUniqueNonEmptyStrings_In.
  - split; [constructor|]. intros document_id. rewrite lookup_empty.
    split; [done|by intros [? ?]].
  - done.
  - intros word posting document_id. by rewrite lookup_empty.
  - intros word posting. by rewrite lookup_empty.
Qed.

Lemma SearchServer_default_well_formed : well_formed (@SearchServer_default D).
Proof.
  split; unfold ids_match_documents, postings_within_documents; simpl.
  - constructor.
  - split; [constructor|]. intros document_id. rewrite lookup_empty.
    split; [done|by intros [? ?]].
  - done.
  - intros word posting document_id. by rewrite lookup_empty.
  - intros word posting. by rewrite lookup_empty.
Qed.

(** The loop of [AddDocument] touches the inverted index only, and there
    it adds no other id than that of the new document. *)
Lemma add_word_freqs_postings document_id inv_word_count words s :
  (forall word posting, word_to_document_freqs_ s !! word = Some posting ->
     imap_sorted posting /\
     forall d, In d (imap_keys posting) ->
       d = document_id \/ is_Some (documents_ s !! d)) ->
  let s1 := fold_left (add_word_freq document_id inv_word_count) words s in
  (forall word posting, word_to_document_freqs_ s1 !! word = Some posting ->
     imap_sorted posting /\
     forall d, In d (imap_keys posting) ->
       d = document_id \/ is_Some (documents_ s !! d)) /\
  stop_words_ s1 = stop_words_ s /\ documents_ s1 = documents_ s /\
  ids_ s1 = ids_ s.
Proof.
  revert s. induction words as [|word words IH]; intros s Hs; simpl; [done|].
  destruct (IH (add_word_freq document_id inv_word_count s word))
    as (Hidx & Hstop & Hdocs & Hids); [|done].
  intros word' posting'. unfold add_word_freq. simpl.
  destruct (decide (word' = word)) as [->|Hne].
  - rewrite lookup_insert_eq. intros [= <-].
    assert (Hold : imap_sorted (default [] (word_to_document_freqs_ s !! word)) /\
                   forall d, In d (imap_keys
                                     (default [] (word_to_document_freqs_ s !! word))) ->
                             d = document_id \/ is_Some (documents_ s !! d)).
    { destruct (word_to_document_freqs_ s !! word) as [posting|] eqn:Hword; simpl.
      - by apply (Hs word).
      - split; [constructor|done]. }
    destruct Hold as [Hsorted Hkeys].
    split; [by apply imap_update_sorted|].
    intros d [->|Hd]%imap_keys_update; [by left|by apply Hkeys|done].
  - rewrite lookup_insert_ne by done. apply Hs.
Qed.

Lemma AddDocument_well_formed s document_id document status ratings s' :
  well_formed s ->
  AddDocument document_id document status ratings s = (Ok (), s') ->
  well_formed s'.
Proof.
  intros [Hstop [Hnodup Hids] Hlength Hpostings Hsorted].
  intros (Hfresh & _ & words & _ & ->)%AddDocument_Ok.
  destruct (add_word_freqs_postings document_id
              (ddiv (of_int 1) (of_int (Z.of_nat (length words)))) words s)
    as (Hidx & Hstop1 & Hdocs1 & Hids1).
  { intros word posting Hword. split; [by eapply Hsorted|].
    intros d Hd. right. by eapply Hpostings. }
  set (s1 := fold_left _ words s) in *.
  assert (Hnot_in : ~ In document_id (ids_ s)).
  { rewrite Hids, Hfresh. by intros [? ?]. }
  split; unfold ids_match_documents, postings_within_documents; simpl;
    rewrite ?Hstop1, ?Hdocs1, ?Hids1, ?Hfresh.
  - done.
  - split.
    + apply NoDup_app. split; [done|]. split; [|apply NoDup_singleton].
      intros d Hd%list_elem_of_In ->%list_elem_of_singleton. done.
    + intros d. rewrite in_app_iff, Hids. simpl.
      destruct (decide (d = document_id)) as [->|Hne].
      * rewrite lookup_insert_eq. split; [by eexists|tauto].
      * rewrite lookup_insert_ne by done. split; [|tauto].
        intros [?|[?|[]]]; [done|congruence].
  - rewrite length_app, map_size_insert_None by done. simpl. lia.
  - intros word posting d Hword Hd.
    destruct (Hidx word posting Hword) as [_ Hkeys].
    destruct (Hkeys d Hd) as [->|Hold].
    + rewrite lookup_insert_eq. by eexists.
    + destruct (decide (d = document_id)) as [->|Hne].
      * rewrite lookup_insert_eq. by eexists.
      * by rewrite lookup_insert_ne.
  - intros word posting Hword. by apply (Hidx word posting).
Qed.

Lemma reachable_well_formed s : reachable s -> well_formed s.
Proof.
  induction 1 as [|stop_words s Hs|text s Hs|s id document status ratings s' _ IH Hadd].
  - apply SearchServer_default_well_formed.
  - by eapply SearchServer_from_container_well_formed.
  - by eapply SearchServer_from_container_well_formed.
  - by eapply AddDocument_well_formed.
Qed.

End invariant.

(** ** Ranking *)

Section ranking.
Context {D : Type} {ops : DoubleOps D} {sorter : StdSort}.
Implicit Types (s : SearchServer D) (word : string) (words : list string).
Implicit Types (m posting : list (Z * D)) (document_predicate : DocumentPredicate).

Lemma take_In {A} (x : A) n l : In x (take n l) -> In x l.
Proof.
  revert n. induction l as [|y l IH]; intros [|n]; simpl; try tauto.
  intros [?|?%IH]; tauto.
Qed.

Lemma take_ordered {A} (comp : A -> A -> bool) n l :
  ordered_by comp l -> ordered_by comp (take n l).
Proof.
  unfold ordered_by. intros Hsorted. revert n.
  induction Hsorted as [|y l Hsorted IH Hy]; intros [|n]; simpl;
    try constructor; [apply IH|].
  rewrite Forall_forall in Hy |- *. intros x Hx%list_elem_of_In%take_In.
  by apply Hy, list_elem_of_In.
Qed.

(** The effect of the inner loop on the entry of one document. *)
Lemma accumulate_posting_find s document_predicate idf posting m m' :
  imap_sorted posting -> imap_sorted m ->
  accumulate_posting s document_predicate idf posting m = Ok m' ->
  imap_sorted m' /\
  forall document_id,
    imap_find document_id m' =
    match imap_find document_id posting, documents_ s !! document_id with
    | Some term_freq, Some data =>
        if document_predicate document_id (data_status data) (data_rating data)
        then Some (dadd (default (of_int 0) (imap_find document_id m))
                        (dmul term_freq idf))
        else imap_find document_id m
    | _, _ => imap_find document_id m
    end.
Proof.
  revert m. induction posting as [|[k term_freq] posting IH]; intros m; simpl.
  - intros _ Hm [= <-]. split; [done|]. intros document_id.
    by destruct (documents_ s !! document_id).
  - intros Hposting Hm.
    pose proof (imap_sorted_cons _ _ _ Hposting) as [Hrest Hnone].
    destruct (documents_ s !! k) as [data|] eqn:Hdata; [|done].
    intros Hloop. apply IH in Hloop as [Hm' Hfind]; [|done|].
    2:{ destruct (document_predicate _ _ _); [by apply imap_update_sorted|done]. }
    split; [done|]. intros document_id. rewrite Hfind.
    destruct (document_id =? k) eqn:Hk.
    + apply Z.eqb_eq in Hk. subst k. rewrite (Hnone document_id) by lia.
      rewrite Hdata.
      destruct (document_predicate _ _ _); [|done].
      rewrite imap_find_update by done. by rewrite decide_True.
    + apply Z.eqb_neq in Hk.
      assert (Hsame : imap_find document_id
                (if document_predicate k (data_status data) (data_rating data)
                 then imap_update k
                        (fun r => dadd r (dmul term_freq idf)) (of_int 0) m
                 else m) = imap_find document_id m).
      { destruct (document_predicate _ _ _); [|done].
        rewrite imap_find_update by done. by rewrite decide_False. }
      by rewrite Hsame.
Qed.

Lemma accumulate_posting_Ok s document_predicate idf posting m :
  (forall d, In d (imap_keys posting) -> is_Some (documents_ s !! d)) ->
  is_Ok (accumulate_posting s document_predicate idf posting m).
Proof.
  revert m. induction posting as [|[k term_freq] posting IH]; intros m Hdocs; simpl.
  - by eexists.
  - destruct (Hdocs k) as [data ->]; [by left|].
    apply IH. intros d Hd. apply Hdocs. by right.
Qed.

(** The first loop of [FindAllDocuments], seen from one document. *)
Lemma accumulate_plus_words_find s document_predicate words m :
  well_formed s -> imap_sorted m ->
  exists m',
    accumulate_plus_words s document_predicate words m = Ok m' /\
    imap_sorted m' /\
    forall document_id,
      match documents_ s !! document_id with
      | None => imap_find document_id m' = imap_find document_id m
      | Some data =>
          if document_predicate document_id (data_status data) (data_rating data)
          then match imap_find document_id m with
               | Some sum =>
                   imap_find document_id m' =
                   Some (fold_left (add_tf_idf s document_id) words sum)
               | None =>
                   imap_find document_id m' = None \/
                   imap_find document_id m' =
                   Some (fold_left (add_tf_idf s document_id) words (of_int 0))
               end
          else imap_find document_id m' = imap_find document_id m
      end.
Proof.
  intros Hwf. revert m. induction words as [|word words IH]; intros m Hm; simpl.
  - exists m. split; [done|]. split; [done|]. intros document_id.
    destruct (documents_ s !! document_id) as [data|]; [|done].
    destruct (document_predicate _ _ _); [|done].
    destruct (imap_find document_id m); [done|by left].
  - destruct (word_to_document_freqs_ s !! word) as [posting|] eqn:Hword.
    2:{ destruct (IH m Hm) as (m' & Hloop & Hm' & Hfind).
        exists m'. split; [done|]. split; [done|]. intros document_id.
        specialize (Hfind document_id). unfold add_tf_idf at 2 4.
        by rewrite Hword. }
    unfold ComputeWordInverseDocumentFreq. rewrite Hword. simpl.
    fold (inverse_document_frequency s posting).
    destruct (accumulate_posting_Ok s document_predicate
                (inverse_document_frequency s posting) posting m) as [m1 Hm1].
    { intros d Hd. by eapply (wf_postings s Hwf). }
    rewrite Hm1. simpl.
    apply accumulate_posting_find in Hm1 as [Hsorted1 Hfind1];
      [|by eapply (wf_posting_keys s Hwf)|done].
    destruct (IH m1 Hsorted1) as (m' & Hloop & Hm' & Hfind).
    exists m'. split; [done|]. split; [done|]. intros document_id.
    specialize (Hfind document_id). specialize (Hfind1 document_id).
    unfold add_tf_idf at 2 4. rewrite Hword.
    destruct (documents_ s !! document_id) as [data|] eqn:Hdata.
    2:{ rewrite Hfind, Hfind1. by destruct (imap_find document_id posting). }
    destruct (document_predicate _ _ _) eqn:Hpred.
    2:{ rewrite Hfind, Hfind1. by destruct (imap_find document_id posting). }
    rewrite Hfind1 in Hfind.
    destruct (imap_find document_id posting) as [term_freq|];
      destruct (imap_find document_id m) as [sum|]; simpl in *; auto.
Qed.

Lemma erase_posting_find posting m document_id value :
  imap_find document_id (erase_posting posting m) = Some value ->
  imap_find document_id m = Some value /\ imap_find document_id posting = None.
Proof.
  unfold erase_posting. revert m.
  induction posting as [|[k term_freq] posting IH]; intros m; simpl; [done|].
  intros [Hfind Hnone]%IH. rewrite imap_find_erase in Hfind.
  destruct (decide (document_id = k)) as [->|Hne]; [done|].
  apply Z.eqb_neq in Hne. by rewrite Hne.
Qed.

Lemma erase_posting_sorted posting m :
  imap_sorted m -> imap_sorted (erase_posting posting m).
Proof.
  unfold erase_posting. revert m.
  induction posting as [|[k term_freq] posting IH]; intros m Hm; simpl; [done|].
  by apply IH, imap_erase_sorted.
Qed.

(** What the second loop of [FindAllDocuments] leaves was there before
    and is hit by no minus word. *)
Lemma erase_minus_words_find s words m document_id value :
  imap_find document_id (erase_minus_words s words m) = Some value ->
  imap_find document_id m = Some value /\
  forall word, In word words -> posting_has s word document_id = false.
Proof.
  unfold erase_minus_words. revert m.
  induction words as [|word words IH]; intros m; simpl; [by intros ?; split|].
  intros [Hfind Hrest]%IH. unfold posting_has.
  destruct (word_to_document_freqs_ s !! word) as [posting|] eqn:Hword.
  - apply erase_posting_find in Hfind as [Hfind Hnone].
    split; [done|]. intros word' [<-|Hword']; [|by apply Hrest].
    rewrite Hword, Hnone. apply bool_decide_eq_false_2. by intros [? ?].
  - split; [done|]. intros word' [<-|Hword']; [|by apply Hrest].
    by rewrite Hword.
Qed.

Lemma erase_minus_words_sorted s words m :
  imap_sorted m -> imap_sorted (erase_minus_words s words m).
Proof.
  unfold erase_minus_words. revert m.
  induction words as [|word words IH]; intros m Hm; simpl; [done|].
  apply IH. destruct (word_to_document_freqs_ s !! word); [|done].
  by apply erase_posting_sorted.
Qed.

Lemma collect_documents_In s m result doc :
  collect_documents s m = Ok result -> In doc result ->
  In (doc_id doc, doc_relevance doc) m /\
  exists data, documents_ s !! doc_id doc = Some data /\
               doc_rating doc = data_rating data.
Proof.
  revert result. induction m as [|[k relevance] m IH]; intros result; simpl.
  - by intros [= <-].
  - destruct (documents_ s !! k) as [data|] eqn:Hdata; [|done].
    destruct (collect_documents s m) as [rest|]; simpl; [|done].
    intros [= <-] [<-|Hin]; simpl.
    + split; [by left|by exists data].
    + destruct (IH rest eq_refl Hin) as [? ?]. split; [by right|done].
Qed.

Lemma collect_documents_Ok s m :
  (forall d, In d (imap_keys m) -> is_Some (documents_ s !! d)) ->
  is_Ok (collect_documents s m).
Proof.
  induction m as [|[k relevance] m IH]; intros Hdocs; simpl.
  - by eexists.
  - destruct (Hdocs k) as [data ->]; [by left|].
    destruct IH as [rest ->]; [|by eexists].
    intros d Hd. apply Hdocs. by right.
Qed.

End ranking.

(** ** [FindAllDocuments] and [FindTopDocuments] *)

Section find_top.
Context {D : Type} {ops : DoubleOps D} {sorter : StdSort}.
Implicit Types (s : SearchServer D) (word : string) (words : list string).
Implicit Types (query : Query) (document_predicate : DocumentPredicate).

(** No document of the result is hit by a minus word. *)
Lemma FindAllDocuments_minus s query document_predicate result doc word :
  FindAllDocuments s query document_predicate = Ok result ->
  In doc result -> In word (minus_words query) ->
  posting_has s word (doc_id doc) = false.
Proof.
  unfold FindAllDocuments.
  destruct (accumulate_plus_words _ _ _ _) as [m|]; simpl; [|done].
  intros Hcollect Hdoc Hword.
  destruct (collect_documents_In _ _ _ _ Hcollect Hdoc) as [Hin _].
  assert (Hsome : is_Some (imap_find (doc_id doc)
                    (erase_minus_words s (minus_words query) m))).
  { apply imap_keys_find. change (doc_id doc) with (fst (doc_id doc, doc_relevance doc)).
    by apply in_map. }
  destruct Hsome as [value Hvalue].
  apply erase_minus_words_find in Hvalue as [_ Hnone]. by apply Hnone.
Qed.

(** On a well-formed server the search never misses a document, and the
    relevance of each document found is the sum over the plus words. *)
Lemma FindAllDocuments_relevance s query document_predicate :
  well_formed s ->
  exists result,
    FindAllDocuments s query document_predicate = Ok result /\
    forall doc, In doc result ->
      doc_relevance doc = relevance_sum s (doc_id doc) (plus_words query).
Proof.
  intros Hwf. unfold FindAllDocuments.
  destruct (accumulate_plus_words_find s document_predicate (plus_words query) [])
    as (m & -> & Hm & Hfind); [done|constructor|]. simpl.
  assert (Hkeys : forall d, In d (imap_keys m) -> is_Some (documents_ s !! d)).
  { intros d [value Hd]%imap_keys_find. specialize (Hfind d). simpl in Hfind.
    destruct (documents_ s !! d); [by eexists|congruence]. }
  destruct (collect_documents_Ok s (erase_minus_words s (minus_words query) m))
    as [result Hresult].
  { intros d [value Hd]%imap_keys_find.
    apply erase_minus_words_find in Hd as [Hd _].
    apply Hkeys, imap_keys_find. by eexists. }
  exists result. split; [done|]. intros doc Hdoc.
  destruct (collect_documents_In _ _ _ _ Hresult Hdoc) as [Hin (data & Hdata & _)].
  apply imap_In_find in Hin; [|by apply erase_minus_words_sorted].
  apply erase_minus_words_find in Hin as [Hin _].
  specialize (Hfind (doc_id doc)). rewrite Hdata in Hfind. simpl in Hfind.
  destruct (document_predicate _ _ _); [|congruence].
  unfold relevance_sum. destruct Hfind as [Hfind|Hfind]; congruence.
Qed.

(** What [FindTopDocuments] returns is taken from what [FindAllDocuments]
    found for the parsed query. *)
Lemma FindTopDocuments_Ok s raw_query document_predicate result :
  FindTopDocuments s raw_query document_predicate = Ok result ->
  exists query,
    ParseQuery s raw_query = Ok query /\
    (result = [] \/
     exists found,
       FindAllDocuments s query document_predicate = Ok found /\
       result = if MAX_RESULT_DOCUMENT_COUNT
                   <? Z.of_nat (length (std_sort by_relevance found))
                then take (Z.to_nat MAX_RESULT_DOCUMENT_COUNT)
                          (std_sort by_relevance found)
                else std_sort by_relevance found).
Proof.
  unfold FindTopDocuments.
  destruct (IsValidWord raw_query); simpl; [|done].
  case_bool_decide; [done|].
  destruct (ParseQuery s raw_query) as [query|]; simpl; [|done].
  intros Hresult. exists query. split; [done|].
  destruct (is_stop_only query); [left; congruence|].
  destruct (FindAllDocuments s query document_predicate) as [found|];
    simpl in *; [|done].
  right. exists found. split; [done|congruence].
Qed.

Lemma truncated_In {A} (l : list A) x :
  In x (if MAX_RESULT_DOCUMENT_COUNT <? Z.of_nat (length l)
        then take (Z.to_nat MAX_RESULT_DOCUMENT_COUNT) l else l) ->
  In x l.
Proof. destruct (_ <? _); [apply take_In|done]. Qed.

Lemma truncated_length {A} (l : list A) :
  Z.of_nat (length (if MAX_RESULT_DOCUMENT_COUNT <? Z.of_nat (length l)
                    then take (Z.to_nat MAX_RESULT_DOCUMENT_COUNT) l else l))
  <= MAX_RESULT_DOCUMENT_COUNT.
Proof.
  destruct (_ <? _) eqn:Hlen.
  - rewrite length_take. unfold MAX_RESULT_DOCUMENT_COUNT. lia.
  - by apply Z.ltb_ge in Hlen.
Qed.

Lemma FindTopDocuments_total s raw_query document_predicate query :
  well_formed s -> raw_query <> "" -> ParseQuery s raw_query = Ok query ->
  is_Ok (FindTopDocuments s raw_query document_predicate).
Proof.
  intros Hwf Hne Hparse. unfold FindTopDocuments.
  rewrite (ParseQuery_Ok_valid _ _ _ Hparse). simpl.
  rewrite bool_decide_eq_false_2 by done. rewrite Hparse. simpl.
  destruct (is_stop_only query); [by eexists|].
  destruct (FindAllDocuments_relevance s query document_predicate Hwf)
    as (found & -> & _). simpl. by eexists.
Qed.

(** C3: when [FindTopDocuments] returns for a query, no document of the
    result is in the posting of a minus word of the query; and for a
    non-empty query each of whose tokens starts with ['-'],
    [FindTopDocuments] returns the empty sequence. *)
Theorem minus_words_exclude_documents s (raw_query : string)
    document_predicate query :
  raw_query <> "" -> ParseQuery s raw_query = Ok query ->
  (forall result word doc,
     FindTopDocuments s raw_query document_predicate = Ok result ->
     In word (minus_words query) -> In doc result ->
     posting_has s word (doc_id doc) = false) /\
  (Forall (fun token => has_minus token = true) (SplitIntoWords raw_query) ->
   FindTopDocuments s raw_query document_predicate = Ok []).
Proof.
  intros Hne Hparse. split.
  - intros result word doc Hresult Hword Hdoc.
    apply FindTopDocuments_Ok in Hresult as (query' & Hparse' & Hresult).
    assert (query' = query) as -> by congruence.
    destruct Hresult as [->|(found & Hfound & ->)]; [done|].
    apply truncated_In in Hdoc.
    apply (Permutation_in _ (std_sort_permutation _ by_relevance found)) in Hdoc.
    by eapply FindAllDocuments_minus.
  - intros Hminus. unfold FindTopDocuments.
    rewrite (ParseQuery_Ok_valid _ _ _ Hparse). simpl.
    rewrite bool_decide_eq_false_2 by done. rewrite Hparse. simpl.
    destruct (is_stop_only query); [done|].
    assert (Hplus : plus_words query = []).
    { apply list_without_members. intros x Hx.
      apply ParseQuery_loop_origin in Hparse as (Hplus & _).
      destruct (Hplus x Hx) as [[]|(token & Hin & _ & Hfalse & _)].
      rewrite Forall_forall in Hminus.
      apply list_elem_of_In, Hminus in Hin. congruence. }
    unfold FindAllDocuments. rewrite Hplus. simpl.
    assert (Hnil : erase_minus_words s (minus_words query) [] = []).
    { unfold erase_minus_words.
      induction (minus_words query) as [|word words IH]; simpl; [done|].
      destruct (word_to_document_freqs_ s !! word) as [posting|]; [|done].
      assert (Hposting : erase_posting posting (@nil (Z * D)) = []).
      { unfold erase_posting. by induction posting as [|[? ?] ? ?]. }
      by rewrite Hposting. }
    rewrite Hnil. simpl.
    pose proof (std_sort_permutation _ by_relevance (@nil (Document D)))
      as Hsort.
    apply Permutation_sym, Permutation_nil in Hsort. by rewrite Hsort.
Qed.

End find_top.

(** ** Order and size of the result, reachable servers, empty documents *)

Section results.
Context {D : Type} {ops : DoubleOps D} {sorter : StdSort}.
Implicit Types (s : SearchServer D) (word : string) (words : list string).
Implicit Types (query : Query) (document_predicate : DocumentPredicate).

(** An ordered result, entry by entry. *)
Lemma ordered_in_rank_order (result : list (Document D)) :
  ordered_by by_relevance result -> StronglySorted in_rank_order result.
Proof.
  induction 1 as [|earlier result _ IH Hall]; constructor; [done|].
  eapply Forall_impl; [exact Hall|]. simpl. intros later.
  unfold by_relevance, in_rank_order.
  destruct (dlt (dabs (dsub (doc_relevance later) (doc_relevance earlier)))
              EPSILON); [|done].
  by intros ?%Z.ltb_ge.
Qed.

(** C2, as amended: [FindTopDocuments] returns at most 5 entries; and
    when the comparison of the sort (relevance descending, rating
    descending for relevances less than 1e-6 apart) is a strict weak
    ordering of the documents found, no entry of the result would be put
    by that comparison before an entry that precedes it: of an entry and
    one that comes later, the later one has not the larger rating when
    the two relevances differ by less than 1e-6, and not the larger
    relevance otherwise. *)
Theorem FindTopDocuments_at_most_five_ranked s (raw_query : string)
    document_predicate (result : list (Document D)) :
  FindTopDocuments s raw_query document_predicate = Ok result ->
  Z.of_nat (length result) <= 5 /\
  (forall query found,
     ParseQuery s raw_query = Ok query ->
     FindAllDocuments s query document_predicate = Ok found ->
     strict_weak_order_on by_relevance found ->
     ranked result /\ StronglySorted in_rank_order result).
Proof.
  intros (query & Hparse & Hresult)%FindTopDocuments_Ok.
  destruct Hresult as [->|(found & Hfound & ->)].
  - split; [simpl; lia|]. intros. split; constructor.
  - split; [apply truncated_length|].
    intros query' found' Hparse' Hfound' Hswo.
    assert (query' = query) as -> by congruence.
    assert (found' = found) as -> by congruence.
    pose proof (std_sort_ordered _ by_relevance found Hswo) as Hsorted.
    assert (Hranked : ranked (if MAX_RESULT_DOCUMENT_COUNT
                                 <? Z.of_nat (length (std_sort by_relevance found))
                              then take (Z.to_nat MAX_RESULT_DOCUMENT_COUNT)
                                        (std_sort by_relevance found)
                              else std_sort by_relevance found)).
    { unfold ranked. destruct (_ <? _); [by apply take_ordered|done]. }
    split; [done|]. by apply ordered_in_rank_order.
Qed.

Lemma MatchDocument_exception s raw_query document_id e :
  MatchDocument s raw_query document_id = Throw e ->
  exists what, e = invalid_argument what.
Proof.
  unfold MatchDocument. case_bool_decide as Hdoc; [intros [= <-]; eauto|].
  destruct (ParseQuery s raw_query) as [query|e'] eqn:Hparse; simpl.
  - destruct (is_stop_only query); [done|].
    by destruct (documents_ s !! document_id).
  - intros [= <-]. apply ParseQuery_loop_exception in Hparse. eauto.
Qed.

(** C9: on a server reached from a constructor by calls of [AddDocument]
    that returned, [ids_] lists exactly the keys of [documents_], each
    once, and every id in a posting is a key of [documents_]; hence the
    search finds the data of every document it meets, and
    [MatchDocument] throws nothing but [invalid_argument]. *)
Theorem reachable_ids_and_postings s :
  reachable s ->
  ids_match_documents s /\ postings_within_documents s /\
  (forall query document_predicate,
     is_Ok (FindAllDocuments s query document_predicate)) /\
  (forall raw_query document_id e,
     MatchDocument s raw_query document_id = Throw e ->
     exists what, e = invalid_argument what).
Proof.
  intros Hwf%reachable_well_formed.
  split; [apply Hwf|]. split; [apply Hwf|]. split.
  - intros query document_predicate.
    destruct (FindAllDocuments_relevance s query document_predicate Hwf)
      as (result & -> & _). by eexists.
  - apply MatchDocument_exception.
Qed.

Lemma no_posting_no_match s document_id words :
  (forall word, posting_has s word document_id = false) ->
  fold_left (fun (matched_words : list string) word =>
               if posting_has s word document_id
               then matched_words ++ [word] else matched_words) words [] = [].
Proof.
  intros Hnone. induction words as [|word words IH]; simpl; [done|].
  by rewrite Hnone.
Qed.

Lemma clear_on_minus_hit_nil s document_id words :
  clear_on_minus_hit s document_id words [] = [].
Proof.
  induction words as [|word words IH]; simpl; [done|].
  by destruct (posting_has s word document_id).
Qed.

(** C6: on a reachable server, [AddDocument] with an id that is not in
    use and not negative and a text all of whose words are stop words
    returns; it leaves the inverted index as it was, with no posting
    holding the id; the document map holds the average rating and the
    status under the id; the document count has grown by one, the id is
    at the last position, and [MatchDocument] reports the status (with no
    matched word) for every query that parses and is not the stop-word
    only one. *)
Theorem AddDocument_stop_words_only s (document_id : Z) (document : string)
    (status : DocumentStatus) (ratings : list Z) :
  reachable s ->
  documents_ s !! document_id = None ->
  0 <= document_id ->
  Forall (fun word => IsStopWord s word = true) (SplitIntoWords document) ->
  exists s',
    AddDocument document_id document status ratings s = (Ok (), s') /\
    word_to_document_freqs_ s' = word_to_document_freqs_ s /\
    (forall word, posting_has s' word document_id = false) /\
    documents_ s' !! document_id
      = Some {| data_rating := ComputeAverageRating ratings;
                data_status := status |} /\
    GetDocumentCount s' = GetDocumentCount s + 1 /\
    GetDocumentId s' (GetDocumentCount s) = Ok document_id /\
    (forall raw_query query,
       ParseQuery s' raw_query = Ok query -> is_stop_only query = false ->
       MatchDocument s' raw_query document_id = Ok ([], status)).
Proof.
  intros Hwf%reachable_well_formed Hfresh Hid Hstop.
  assert (Hwords : SplitIntoWordsNoStop s document = Ok []).
  { destruct (SplitIntoWordsNoStop s document) as [words|e] eqn:Hsplit.
    - apply SplitIntoWordsNoStop_loop_Ok in Hsplit as ->. simpl. f_equal.
      induction Hstop as [|word input Hword _ IH]; simpl; [done|].
      by rewrite Hword.
    - exfalso.
      assert (Hthrow : is_Throw (SplitIntoWordsNoStop s document)) by (by eexists).
      apply SplitIntoWordsNoStop_loop_Throw, Exists_exists in Hthrow
        as (word & Hin & Hinvalid).
      rewrite Forall_forall in Hstop. apply Hstop in Hin.
      apply bool_decide_eq_true in Hin.
      pose proof (wf_stop_words s Hwf) as Hvalid. rewrite Forall_forall in Hvalid.
      apply Hvalid in Hin. congruence. }
  eexists. split.
  { unfold AddDocument. rewrite bool_decide_eq_false_2.
    - assert ((document_id <? 0) = false) as -> by by apply Z.ltb_ge.
      rewrite Hwords. simpl. reflexivity.
    - rewrite Hfresh. by intros [? ?]. }
  unfold GetDocumentCount, GetDocumentId, posting_has, MatchDocument,
    GetDocumentCount; simpl.
  rewrite Hfresh, lookup_insert_eq, map_size_insert_None by done.
  assert (Hnone : forall word,
    match word_to_document_freqs_ s !! word with
    | Some posting => bool_decide (is_Some (imap_find document_id posting))
    | None => false
    end = false).
  { intros word.
    destruct (word_to_document_freqs_ s !! word) as [posting|] eqn:Hword; [|done].
    apply bool_decide_eq_false_2. intros Hin%imap_keys_find.
    apply (wf_postings s Hwf word posting document_id Hword) in Hin.
    rewrite Hfresh in Hin. by destruct Hin. }
  split; [done|]. split; [done|]. split; [done|]. split; [lia|]. split.
  - assert (Hlt : (0 <=? Z.of_nat (size (documents_ s))) &&
                  (Z.of_nat (size (documents_ s))
                   <? Z.of_nat (S (size (documents_ s)))) = true).
    { apply andb_true_iff. split; [apply Z.leb_le|apply Z.ltb_lt]; lia. }
    rewrite Hlt. unfold vector_at. rewrite Nat2Z.id, <- (wf_ids_length s Hwf).
    rewrite list_lookup_middle by done.
    assert ((0 <=? Z.of_nat (length (ids_ s))) = true) as ->
      by (apply Z.leb_le; lia).
    done.
  - intros raw_query query Hparse Hquery. rewrite bool_decide_eq_false_2 by done.
    rewrite Hparse. simpl. rewrite Hquery.
    rewrite (no_posting_no_match _ document_id (plus_words query))
      by (intros word; apply Hnone).
    by rewrite clear_on_minus_hit_nil.
Qed.

End results.

(** ** The statements at work on small servers *)

Lemma stop_server_built : SearchServer_from_text "in the" = Ok stop_server.
Proof. reflexivity. Qed.

Lemma cat_server_reachable : reachable cat_server.
Proof.
  apply (reachable_AddDocument stop_server 42 "cat in the city" ACTUAL [1; 2; 3]).
  - exact (reachable_from_text "in the" stop_server stop_server_built).
  - reflexivity.
Qed.

Lemma music_server_reachable : reachable music_server.
Proof.
  apply (reachable_AddDocument alabama_server 4 "love me tender love me too"
           ACTUAL [12; 1; 5]);
    [apply (reachable_AddDocument SearchServer_default 12
              "sweet home alabama in" ACTUAL [1])|].
  - apply reachable_default.
  - reflexivity.
  - reflexivity.
Qed.

Lemma minus_words_exclude_documents_witness :
  (forall result word doc,
     FindTopDocuments (sorter := insertion_std_sort) music_server "-in -love"
       everything = Ok result ->
     In word ["in"; "love"] -> In doc result ->
     posting_has music_server word (doc_id doc) = false) /\
  (Forall (fun token => has_minus token = true) (SplitIntoWords "-in -love") ->
   FindTopDocuments (sorter := insertion_std_sort) music_server "-in -love"
     everything = Ok []).
Proof.
  apply (minus_words_exclude_documents (sorter := insertion_std_sort)
           music_server "-in -love" everything
           {| plus_words := []; minus_words := ["in"; "love"]; stop_words := [] |}).
  - discriminate.
  - reflexivity.
Defined.

Lemma stop_only_query_short_circuit_witness :
  (forall document_predicate,
     FindTopDocuments (sorter := insertion_std_sort) cat_server "in the"
       document_predicate = Ok []) /\
  (forall document_id, is_Some (documents_ cat_server !! document_id) ->
     MatchDocument cat_server "in the" document_id = Ok ([], ACTUAL)).
Proof.
  apply (stop_only_query_short_circuit (sorter := insertion_std_sort)
           cat_server "in the").
  - discriminate.
  - repeat constructor; eexists; (split; [reflexivity|reflexivity]).
Defined.

Lemma AddDocument_failure_keeps_state_witness :
  cat_server = cat_server /\
  (is_Some (documents_ cat_server !! 42) \/ 42 < 0 \/
   Exists (fun word => IsValidWord word = false) (SplitIntoWords "dog")).
Proof.
  apply (AddDocument_failure_keeps_state cat_server 42 "dog" BANNED [5]
           (invalid_argument "Document ID is already exist") cat_server).
  reflexivity.
Defined.

Lemma AddDocument_stop_words_only_witness :
  exists s',
    AddDocument 7 "in the in" BANNED [4; 5] cat_server = (Ok (), s') /\
    word_to_document_freqs_ s' = word_to_document_freqs_ cat_server /\
    (forall word, posting_has s' word 7 = false) /\
    documents_ s' !! 7
      = Some {| data_rating := ComputeAverageRating [4; 5];
                data_status := BANNED |} /\
    GetDocumentCount s' = GetDocumentCount cat_server + 1 /\
    GetDocumentId s' (GetDocumentCount cat_server) = Ok 7 /\
    (forall raw_query query,
       ParseQuery s' raw_query = Ok query -> is_stop_only query = false ->
       MatchDocument s' raw_query 7 = Ok ([], BANNED)).
Proof.
  apply (AddDocument_stop_words_only cat_server 7 "in the in" BANNED [4; 5]).
  - exact cat_server_reachable.
  - reflexivity.
  - lia.
  - repeat constructor.
Defined.

Lemma reachable_ids_and_postings_witness :
  ids_match_documents cat_server /\ postings_within_documents cat_server /\
  (forall query document_predicate,
     is_Ok (FindAllDocuments cat_server query document_predicate)) /\
  (forall raw_query document_id e,
     MatchDocument cat_server raw_query document_id = Throw e ->
     exists what, e = invalid_argument what).
Proof.
  apply (reachable_ids_and_postings cat_server).
  exact cat_server_reachable.
Defined.

Lemma MatchDocument_blank_query_witness :
  MatchDocument cat_server "  " 42 = Ok ([], ACTUAL) /\
  (forall document_predicate,
     FindTopDocuments (sorter := insertion_std_sort) cat_server ""
       document_predicate
     = Throw (invalid_argument "Raw query is empty")).
Proof.
  apply (MatchDocument_blank_query (sorter := insertion_std_sort)
           cat_server "  " 42 {| data_rating := 2; data_status := ACTUAL |}).
  - reflexivity.
  - reflexivity.
Defined.

(** ** The comparison of the sort is not transitive *)

Lemma add_all_reachable corpus s :
  reachable s -> all_added corpus s = true -> reachable (add_all corpus s).
Proof.
  revert s. induction corpus as [|[[document_id document] ratings] corpus IH];
    intros s Hs; simpl; [done|].
  destruct (AddDocument document_id document ACTUAL ratings s)
    as [[[]|e] s'] eqn:Hadd; [|done].
  intros Hrest. apply IH; [|done].
  by apply (reachable_AddDocument s document_id document ACTUAL ratings).
Qed.

Lemma cycle_server_reachable : reachable cycle_server.
Proof.
  apply add_all_reachable; [apply reachable_default|].
  vm_compute. reflexivity.
Qed.

Lemma cycle_found :
  FindAllDocuments cycle_server
    {| plus_words := ["w"]; minus_words := []; stop_words := [] |} everything
  = Ok [cycle_doc 1 1000; cycle_doc 2 1001; cycle_doc 3 1002; cycle_doc 4 1003].
Proof. vm_compute. reflexivity. Qed.

Lemma cycle_query :
  ParseQuery cycle_server "w"
  = Ok {| plus_words := ["w"]; minus_words := []; stop_words := [] |}.
Proof. vm_compute. reflexivity. Qed.

Section real_comparisons.
Local Open Scope R_scope.

Lemma ln_2_bounds : 1 / 2 < ln 2 < 1.
Proof.
  split.
  - pose proof ln_lt_2. lra.
  - apply Rlt_le_trans with (ln (exp 1)); [|rewrite ln_exp; lra].
    apply ln_increasing; [lra|]. pose proof (exp_ineq1 1). lra.
Qed.

Lemma idf_of_w : ln (8 * 1 / 4) = ln 2.
Proof. f_equal. lra. Qed.

Lemma real_lt_true (x y : R) : x < y -> dlt x y = true.
Proof. intros Hlt. simpl. by destruct (Rlt_dec x y). Qed.

Lemma real_lt_false (x y : R) : ~ x < y -> dlt x y = false.
Proof. intros Hlt. simpl. by destruct (Rlt_dec x y). Qed.

(** Over the reals, [by_relevance lhs rhs = false], which [ranked] asks of
    every entry [lhs] that comes after an entry [rhs], reads: when the two
    relevances are less than 1e-6 apart the rating of [lhs] is not the
    larger one, otherwise the relevance of [lhs] is not the larger one. *)
Lemma by_relevance_real (lhs rhs : Document R) :
  by_relevance lhs rhs = false <->
  (Rabs (doc_relevance lhs - doc_relevance rhs) < 1 / 1000000 ->
   (doc_rating lhs <= doc_rating rhs)%Z) /\
  (~ Rabs (doc_relevance lhs - doc_relevance rhs) < 1 / 1000000 ->
   doc_relevance lhs <= doc_relevance rhs).
Proof.
  unfold by_relevance, EPSILON. cbn [of_int dsub dabs ddiv dlt real_ops].
  destruct (Rlt_dec (Rabs (doc_relevance lhs - doc_relevance rhs)) (1 / 1000000))
    as [Hclose|Hfar].
  - rewrite Z.ltb_ge. tauto.
  - destruct (Rlt_dec (doc_relevance rhs) (doc_relevance lhs)) as [Hlt|Hge].
    + split; [done|]. intros [_ Hle]. specialize (Hle Hfar). lra.
    + split; [intros _|done]. split; [tauto|]. intros _. lra.
Qed.

(** Documents whose lengths differ by one are less than [EPSILON] apart:
    the one with the higher rating goes first. *)
Lemma by_relevance_neighbours (a b : Z) (n : Z) :
  (1000 <= n <= 1002)%Z -> (a < b)%Z ->
  by_relevance (cycle_doc b (n + 1)) (cycle_doc a n) = true.
Proof.
  intros Hn Hab. unfold by_relevance, cycle_doc, EPSILON. cbn [doc_relevance doc_rating].
  rewrite idf_of_w. pose proof ln_2_bounds as [Hlow Hhigh].
  rewrite real_lt_true; [by apply Z.ltb_lt|].
  assert (Hcases : n = 1000%Z \/ n = 1001%Z \/ n = 1002%Z) by lia.
  cbn [of_int dsub dabs ddiv real_ops].
  destruct Hcases as [-> | [-> | ->]];
    [change (1000 + 1)%Z with 1001%Z | change (1001 + 1)%Z with 1002%Z
     | change (1002 + 1)%Z with 1003%Z];
    apply Rabs_def1; lra.
Qed.

(** The longest and the shortest document are more than [EPSILON] apart:
    the one with the higher relevance goes first. *)
Lemma by_relevance_ends :
  by_relevance (cycle_doc 1 1000) (cycle_doc 4 1003) = true.
Proof.
  unfold by_relevance, cycle_doc, EPSILON. cbn [doc_relevance doc_rating].
  rewrite idf_of_w. pose proof ln_2_bounds as [Hlow Hhigh].
  cbn [of_int dsub dabs ddiv real_ops].
  rewrite real_lt_false, real_lt_true; [done|lra|].
  intros Hlt%Rabs_def2. lra.
Qed.

End real_comparisons.

Lemma FindTopDocuments_found {D : Type} {ops : DoubleOps D} {sorter : StdSort}
    (s : SearchServer D) raw_query document_predicate query found :
  raw_query <> "" -> ParseQuery s raw_query = Ok query ->
  is_stop_only query = false ->
  FindAllDocuments s query document_predicate = Ok found ->
  FindTopDocuments s raw_query document_predicate
  = Ok (if MAX_RESULT_DOCUMENT_COUNT
           <? Z.of_nat (length (std_sort by_relevance found))
        then take (Z.to_nat MAX_RESULT_DOCUMENT_COUNT)
                  (std_sort by_relevance found)
        else std_sort by_relevance found).
Proof.
  intros Hne Hparse Hquery Hfound. unfold FindTopDocuments.
  rewrite (ParseQuery_Ok_valid _ _ _ Hparse). simpl.
  rewrite bool_decide_eq_false_2 by done. rewrite Hparse. simpl.
  by rewrite Hquery, Hfound.
Qed.

(** In a list ordered by the comparison, nothing that follows the head
    goes before the head. *)
Lemma ordered_head {A} (comp : A -> A -> bool) a b l :
  ordered_by comp (a :: l) -> In b (a :: l) -> b <> a -> comp b a = false.
Proof.
  intros [_ Hall]%StronglySorted_inv [->|Hb] Hne; [done|].
  rewrite Forall_forall in Hall. by apply Hall, list_elem_of_In.
Qed.

(** C2 as stated fails: on the reachable server [cycle_server] the query
    "w" finds four documents whose relevances are pairwise less than 1e-6
    apart for neighbours, but more for the first and the last; the
    ratings ask for the order 4, 3, 2, 1 and the relevances for 1 before
    4, so that whatever [std::sort] returns, the result is not ranked. *)
Lemma epsilon_comparison_cycle :
  reachable cycle_server /\
  forall sorter : StdSort,
    exists result,
      FindTopDocuments cycle_server "w" everything = Ok result /\
      ~ ranked result.
Proof.
  split; [exact cycle_server_reachable|]. intros sorter.
  set (found := [cycle_doc 1 1000; cycle_doc 2 1001; cycle_doc 3 1002;
                 cycle_doc 4 1003]).
  eexists. split.
  { apply (FindTopDocuments_found cycle_server "w" everything
             {| plus_words := ["w"]; minus_words := []; stop_words := [] |}
             found);
      [discriminate|exact cycle_query|reflexivity|exact cycle_found]. }
  pose proof (std_sort_permutation _ by_relevance found) as Hperm.
  rewrite (Permutation_length Hperm). simpl.
  unfold ranked. intros Hranked.
  destruct (std_sort by_relevance found) as [|a l] eqn:Hsorted.
  { apply Permutation_nil in Hperm. discriminate. }
  assert (Hin : forall doc, In doc found -> In doc (a :: l)).
  { intros doc Hdoc. by apply (Permutation_in _ (Permutation_sym Hperm)). }
  assert (Ha : In a found) by (apply (Permutation_in _ Hperm); by left).
  assert (Hcontra : forall b, In b found -> b <> a -> by_relevance b a <> true).
  { intros b Hb Hne. rewrite (ordered_head by_relevance a b l); auto. }
  destruct Ha as [<-|[<-|[<-|[<-|[]]]]].
  - apply (Hcontra (cycle_doc 2 1001)); [simpl; tauto|by intros [= ?]|].
    apply (by_relevance_neighbours 1 2 1000); lia.
  - apply (Hcontra (cycle_doc 3 1002)); [simpl; tauto|by intros [= ?]|].
    apply (by_relevance_neighbours 2 3 1001); lia.
  - apply (Hcontra (cycle_doc 4 1003)); [simpl; tauto|by intros [= ?]|].
    apply (by_relevance_neighbours 3 4 1002); lia.
  - apply (Hcontra (cycle_doc 1 1000)); [simpl; tauto|by intros [= ?]|].
    apply by_relevance_ends.
Qed.

(** * Further properties of the code *)

(** ** [SplitIntoWords] *)

Lemma no_space_app word c :
  no_space (word +:+ String c "") = no_space word && negb (is_space c).
Proof.
  induction word as [|c' word IH]; simpl.
  - by rewrite andb_true_r.
  - rewrite IH. by rewrite andb_assoc.
Qed.

Lemma append_not_empty word c : word +:+ String c "" <> "".
Proof. by destruct word. Qed.

Lemma SplitIntoWords_loop_words text words word :
  Forall is_word words -> no_space word = true ->
  Forall is_word (SplitIntoWords_loop text words word).
Proof.
  revert words word.
  induction text as [|c text IH]; intros words word Hwords Hword; simpl.
  - case_bool_decide; [done|]. apply Forall_app. split; [done|].
    by repeat constructor.
  - destruct (is_space c) eqn:Hc.
    + case_bool_decide; [by apply IH|].
      apply IH; [|done]. apply Forall_app. split; [done|].
      by repeat constructor.
    + apply IH; [done|]. rewrite no_space_app, Hword, Hc. done.
Qed.

(** X1: every word that [SplitIntoWords] yields is non-empty and holds no
    space. *)
Theorem SplitIntoWords_words (text : string) :
  Forall is_word (SplitIntoWords text).
Proof. by apply SplitIntoWords_loop_words. Qed.

Lemma append_empty_r (text : string) : text +:+ "" = text.
Proof.
  induction text as [|c text IH]; [reflexivity|].
  change (String c (text +:+ "") = String c text). congruence.
Qed.

Lemma append_assoc (a b c : string) : (a +:+ b) +:+ c = a +:+ (b +:+ c).
Proof.
  induction a as [|x a IH]; [reflexivity|].
  change (String x ((a +:+ b) +:+ c) = String x (a +:+ (b +:+ c))). congruence.
Qed.

Lemma SplitIntoWords_loop_word word text words acc :
  no_space word = true ->
  SplitIntoWords_loop (word +:+ text) words acc
  = SplitIntoWords_loop text words (acc +:+ word).
Proof.
  revert acc. induction word as [|c word IH]; intros acc.
  - intros _. change ("" +:+ text) with text. by rewrite append_empty_r.
  - cbn [no_space]. intros [Hc Hword]%andb_true_iff. apply negb_true_iff in Hc.
    change (String c word +:+ text) with (String c (word +:+ text)).
    cbn [SplitIntoWords_loop]. rewrite Hc, IH by done.
    rewrite append_assoc. done.
Qed.

Lemma SplitIntoWords_loop_concat rest words :
  Forall is_word rest ->
  SplitIntoWords_loop (String.concat " " rest) words "" = words ++ rest.
Proof.
  revert words. induction rest as [|word rest IH]; intros words Hrest.
  - cbn. by rewrite app_nil_r.
  - apply Forall_cons in Hrest as [[Hne Hword] Hrest].
    destruct rest as [|word' rest].
    + cbn [String.concat]. rewrite <- (append_empty_r word) at 1.
      rewrite SplitIntoWords_loop_word by done. cbn.
      by rewrite bool_decide_eq_false_2.
    + change (String.concat " " (word :: word' :: rest))
        with (word +:+ String " " (String.concat " " (word' :: rest))).
      rewrite SplitIntoWords_loop_word by done.
      cbn [SplitIntoWords_loop]. change (is_space " ") with true.
      change ("" +:+ word) with word. cbv iota.
      rewrite bool_decide_eq_false_2 by done.
      rewrite IH by done. by rewrite <- app_assoc.
Qed.

(** X2: splitting what comes from joining words with one space each gives
    the words back. *)
Theorem SplitIntoWords_concat (words : list string) :
  Forall is_word words ->
  SplitIntoWords (String.concat " " words) = words.
Proof. intros Hwords. by apply (SplitIntoWords_loop_concat words []). Qed.

Lemma SplitIntoWords_concat_witness :
  SplitIntoWords (String.concat " " ["white"; "cat"]) = ["white"; "cat"].
Proof.
  apply (SplitIntoWords_concat ["white"; "cat"]).
  repeat constructor; discriminate.
Defined.

Lemma concat_empty_cons word words :
  String.concat "" (word :: words) = word +:+ String.concat "" words.
Proof.
  destruct words as [|word' words]; [|reflexivity].
  cbn [String.concat]. by rewrite append_empty_r.
Qed.

Lemma concat_empty_snoc words word :
  String.concat "" (words ++ [word]) = String.concat "" words +:+ word.
Proof.
  induction words as [|word' words IH].
  - reflexivity.
  - change ((word' :: words) ++ [word]) with (word' :: (words ++ [word])).
    rewrite !concat_empty_cons, IH. by rewrite append_assoc.
Qed.

Lemma SplitIntoWords_loop_characters text words word :
  String.concat "" (SplitIntoWords_loop text words word)
  = String.concat "" words +:+ (word +:+ remove_spaces text).
Proof.
  revert words word.
  induction text as [|c text IH]; intros words word; cbn [SplitIntoWords_loop remove_spaces].
  - case_bool_decide as Hword.
    + subst. by rewrite append_empty_r.
    + by rewrite concat_empty_snoc, append_empty_r.
  - destruct (is_space c).
    + case_bool_decide as Hword; rewrite IH; [done|].
      rewrite concat_empty_snoc, append_assoc. done.
    + rewrite IH. f_equal. by rewrite append_assoc.
Qed.

(** X3: the words that [SplitIntoWords] yields, put one after the other,
    are the text without its spaces: no character is lost, added or
    moved. *)
Theorem SplitIntoWords_characters (text : string) :
  String.concat "" (SplitIntoWords text) = remove_spaces text.
Proof. unfold SplitIntoWords. by rewrite SplitIntoWords_loop_characters. Qed.

(** X4: a text passes [IsValidWord] exactly when every word that
    [SplitIntoWords] yields from it does, so that checking a raw query as
    a whole and checking its words agree. *)
Theorem IsValidWord_iff_words_valid (text : string) :
  IsValidWord text = true <->
  Forall (fun word => IsValidWord word = true) (SplitIntoWords text).
Proof.
  rewrite IsValidWord_SplitIntoWords, forallb_forall, Forall_forall.
  split; intros Hall word Hword; apply Hall; by apply list_elem_of_In.
Qed.

(** ** The order of [std::set<string>] *)

Lemma string_lt_trans x y z : string_lt x y -> string_lt y z -> string_lt x z.
Proof.
  unfold string_lt. change String.compare with OrderedTypeEx.String_as_OT.cmp.
  rewrite !OrderedTypeEx.String_as_OT.cmp_lt.
  apply OrderedTypeEx.String_as_OT.lt_trans.
Qed.

Lemma string_lt_irrefl x : ~ string_lt x x.
Proof.
  unfold string_lt. intros Hlt.
  assert (Heq : String.compare x x = Eq)
    by by apply OrderedTypeEx.String_as_OT.cmp_eq.
  congruence.
Qed.

Lemma compare_Gt_lt x y : String.compare x y = Gt -> string_lt y x.
Proof.
  unfold string_lt. rewrite (String.compare_antisym y x). by intros ->.
Qed.

Lemma set_insert_sorted x l : set_sorted l -> set_sorted (set_insert x l).
Proof.
  unfold set_sorted. induction l as [|y l IH]; intros Hsorted; simpl.
  - repeat constructor.
  - apply StronglySorted_inv in Hsorted as [Hl Hy].
    destruct (String.compare x y) eqn:Hcmp.
    + by constructor.
    + constructor; [by constructor|]. constructor; [done|].
      eapply Forall_impl; [exact Hy|]. intros z Hz. by eapply string_lt_trans.
    + constructor; [by apply IH|].
      rewrite Forall_forall in Hy |- *. intros z Hz%list_elem_of_In.
      apply set_insert_In in Hz as [->|Hz]; [by apply compare_Gt_lt|].
      by apply Hy, list_elem_of_In.
Qed.

(** Two sets with the same members are the same list. *)
Lemma set_sorted_unique l1 l2 :
  set_sorted l1 -> set_sorted l2 -> (forall x, In x l1 <-> In x l2) -> l1 = l2.
Proof.
  unfold set_sorted. revert l2.
  induction l1 as [|x l1 IH]; intros [|y l2] H1 H2 Hsame.
  - done.
  - destruct (proj2 (Hsame y)). by left.
  - destruct (proj1 (Hsame x)). by left.
  - apply StronglySorted_inv in H1 as [H1 Hx].
    apply StronglySorted_inv in H2 as [H2 Hy].
    rewrite Forall_forall in Hx, Hy.
    assert (x = y) as ->.
    { destruct (proj1 (Hsame x)) as [->|Hxin]; [by left|done|].
      destruct (proj2 (Hsame y)) as [->|Hyin]; [by left|done|].
      apply list_elem_of_In, Hy in Hxin. apply list_elem_of_In, Hx in Hyin.
      destruct (string_lt_irrefl x). by eapply string_lt_trans. }
    f_equal. apply IH; [done..|]. intros z. split; intros Hz.
    + destruct (proj1 (Hsame z)) as [->|?]; [by right| |done].
      apply list_elem_of_In, Hx in Hz. by destruct (string_lt_irrefl z).
    + destruct (proj2 (Hsame z)) as [->|?]; [by right| |done].
      apply list_elem_of_In, Hy in Hz. by destruct (string_lt_irrefl z).
Qed.

(** ** [MakeUniqueNonEmptyStrings] and the constructors *)

Lemma MakeUniqueNonEmptyStrings_fold strings acc :
  set_sorted acc ->
  let result :=
    fold_left (fun non_empty_strings str =>
                 if bool_decide (str = "") then non_empty_strings
                 else set_insert str non_empty_strings) strings acc in
  set_sorted result /\
  forall x, In x result <-> In x acc \/ (In x strings /\ x <> "").
Proof.
  revert acc. induction strings as [|str strings IH]; intros acc Hacc;
    cbv zeta in *; simpl.
  - split; [done|]. intros x. tauto.
  - case_bool_decide as Hstr.
    + destruct (IH acc Hacc) as [Hsorted Hin]. split; [done|].
      intros x. rewrite Hin. subst str. split; [tauto|].
      intros [?|[[<-|?] ?]]; [tauto|done|tauto].
    + destruct (IH (set_insert str acc)) as [Hsorted Hin];
        [by apply set_insert_sorted|].
      split; [done|]. intros x. rewrite Hin, set_insert_In.
      split.
      * intros [[->|?]|[? ?]]; auto.
      * intros [?|[[<-|?] ?]]; auto.
Qed.

Lemma MakeUniqueNonEmptyStrings_non_empty (strings : list string) x :
  In x (MakeUniqueNonEmptyStrings strings) <-> In x strings /\ x <> "".
Proof.
  destruct (MakeUniqueNonEmptyStrings_fold strings []) as [_ Hin];
    [constructor|].
  rewrite (Hin x). simpl. tauto.
Qed.

(** X5: [MakeUniqueNonEmptyStrings] yields the non-empty strings of its
    argument, each once, in ascending order. *)
Theorem MakeUniqueNonEmptyStrings_members (strings : list string) :
  set_sorted (MakeUniqueNonEmptyStrings strings) /\
  forall x, In x (MakeUniqueNonEmptyStrings strings) <-> In x strings /\ x <> "".
Proof.
  destruct (MakeUniqueNonEmptyStrings_fold strings []) as [Hsorted _];
    [constructor|].
  split; [done|]. apply MakeUniqueNonEmptyStrings_non_empty.
Qed.

Section constructors.
Context {D : Type} {ops : DoubleOps D}.

(** X6: the constructor from a container of stop words throws
    [invalid_argument] exactly when one of the strings holds a control
    character; otherwise the server has no document and its stop words
    are the non-empty strings of the container. *)
Theorem SearchServer_from_container_stop_words (stop_words : list string) :
  (Exists (fun word => has_control_character word) stop_words ->
   @SearchServer_from_container D stop_words
   = Throw (invalid_argument "Bad constructors stop arguments")) /\
  (~ Exists (fun word => has_control_character word) stop_words ->
   exists s : SearchServer D,
     SearchServer_from_container stop_words = Ok s /\
     GetDocumentCount s = 0 /\
     forall word, IsStopWord s word = true <-> In word stop_words /\ word <> "").
Proof.
  unfold SearchServer_from_container.
  destruct (forallb IsValidWord stop_words) eqn:Hvalid.
  - rewrite forallb_forall in Hvalid. split.
    + intros (word & Hin & Hbad)%Exists_exists.
      apply list_elem_of_In, Hvalid, IsValidWord_control in Hin. done.
    + intros _. eexists. split; [done|]. split; [done|].
      intros word. unfold IsStopWord. simpl.
      rewrite bool_decide_eq_true, list_elem_of_In.
      apply MakeUniqueNonEmptyStrings_non_empty.
  - split; [done|]. intros Hnone. exfalso.
    assert (Hall : forallb IsValidWord stop_words = true); [|congruence].
    apply forallb_forall. intros word Hin.
    apply IsValidWord_control. intros Hbad. apply Hnone, Exists_exists.
    exists word. split; [by apply list_elem_of_In|done].
Qed.

(** X7: the constructor from a text takes the words of the text as stop
    words, and throws exactly when the text holds a control character. *)
Theorem SearchServer_from_text_stop_words (stop_words_text : string) :
  (IsValidWord stop_words_text = false ->
   @SearchServer_from_text D stop_words_text
   = Throw (invalid_argument "Bad constructors stop arguments")) /\
  (IsValidWord stop_words_text = true ->
   exists s : SearchServer D,
     SearchServer_from_text stop_words_text = Ok s /\
     forall word,
       IsStopWord s word = true <-> In word (SplitIntoWords stop_words_text)).
Proof.
  unfold SearchServer_from_text, SearchServer_from_container.
  rewrite <- IsValidWord_SplitIntoWords.
  split; intros Hvalid; rewrite Hvalid; [done|].
  eexists. split; [done|]. intros word. unfold IsStopWord. simpl.
  rewrite bool_decide_eq_true, list_elem_of_In.
  rewrite MakeUniqueNonEmptyStrings_non_empty.
  split; [tauto|]. intros Hin. split; [done|].
  assert (Hwords : Forall is_word (SplitIntoWords stop_words_text))
    by by apply SplitIntoWords_loop_words.
  rewrite Forall_forall in Hwords.
  by apply (Hwords word), list_elem_of_In.
Qed.

End constructors.

(** ** The parsed query *)

Section parsed_query.
Context {D : Type} {ops : DoubleOps D}.
Implicit Types (s : SearchServer D) (query : Query) (token word : string).

Lemma strip_minus_plain token : has_minus token = false -> strip_minus token = token.
Proof. by destruct token as [|[[] [] [] [] [] [] [] []] rest]. Qed.

Lemma strip_minus_minus token :
  has_minus token = true -> token = String "-" (strip_minus token).
Proof. by destruct token as [|[[] [] [] [] [] [] [] []] rest]. Qed.

Lemma add_query_word_sorted query token query_word :
  set_sorted (plus_words query) -> set_sorted (minus_words query) ->
  set_sorted (stop_words query) ->
  set_sorted (plus_words (add_query_word query token query_word)) /\
  set_sorted (minus_words (add_query_word query token query_word)) /\
  set_sorted (stop_words (add_query_word query token query_word)).
Proof.
  intros Hplus Hminus Hstop. unfold add_query_word.
  destruct (qw_is_stop query_word), (qw_is_minus query_word); simpl;
    repeat split; try done; by apply set_insert_sorted.
Qed.

Lemma ParseQuery_loop_sorted s words query query' :
  set_sorted (plus_words query) -> set_sorted (minus_words query) ->
  set_sorted (stop_words query) ->
  ParseQuery_loop s words query = Ok query' ->
  set_sorted (plus_words query') /\ set_sorted (minus_words query') /\
  set_sorted (stop_words query').
Proof.
  revert query. induction words as [|word words IH]; intros query Hp Hm Hs; simpl.
  - by intros [= <-].
  - destruct (ParseQueryWord s word) as [query_word|e] eqn:Hword; simpl; [|done].
    pose proof (ParseQueryWord_Ok _ _ _ Hword) as (Hqw & Hne & _).
    rewrite bool_decide_eq_false_2 by (by rewrite Hqw).
    destruct (add_query_word_sorted query word query_word Hp Hm Hs)
      as (? & ? & ?).
    by apply IH.
Qed.

(** The sets of a parsed query, read off the tokens. *)
Lemma ParseQuery_members s raw_query query :
  ParseQuery s raw_query = Ok query ->
  (forall x, In x (plus_words query) <->
     In x (SplitIntoWords raw_query) /\ has_minus x = false /\
     IsStopWord s x = false) /\
  (forall x, In x (minus_words query) <->
     In (String "-" x) (SplitIntoWords raw_query) /\ IsStopWord s x = false) /\
  (forall x, In x (stop_words query) <->
     In x (SplitIntoWords raw_query) /\ IsStopWord s (strip_minus x) = true).
Proof.
  intros Hparse.
  pose proof (ParseQuery_loop_origin _ _ _ _ Hparse) as (Hplus & Hminus & Hstop).
  pose proof (ParseQuery_loop_Ok _ _ _ _ Hparse) as [_ Hall].
  rewrite Forall_forall in Hall.
  assert (Hclass : forall token, In token (SplitIntoWords raw_query) ->
            classified query token
              {| qw_data := strip_minus token; qw_is_minus := has_minus token;
                 qw_is_stop := IsStopWord s (strip_minus token) |}).
  { intros token Hin%list_elem_of_In.
    destruct (Hall token Hin) as (query_word & Hword & Hclass).
    by apply ParseQueryWord_Ok in Hword as (-> & _). }
  split; [|split]; intros x; split.
  - intros [[]|(token & Hin & Hs & Hm & ->)]%Hplus.
    rewrite (strip_minus_plain token Hm) in *. done.
  - intros (Hin & Hm & Hs). specialize (Hclass x Hin).
    rewrite (strip_minus_plain x Hm) in Hclass.
    destruct Hclass as [(_ & _ & ?)|[(_ & ? & _)|(? & _)]];
      simpl in *; [done|congruence..].
  - intros [[]|(token & Hin & Hs & Hm & ->)]%Hminus.
    by rewrite <- (strip_minus_minus token Hm).
  - intros (Hin & Hs). specialize (Hclass _ Hin). simpl in Hclass.
    destruct Hclass as [(_ & ? & _)|[(_ & _ & ?)|(? & _)]];
      simpl in *; [done|done|congruence].
  - intros [[]|[Hin Hs]]%Hstop. done.
  - intros (Hin & Hs). specialize (Hclass x Hin).
    destruct Hclass as [(? & _)|[(? & _)|(_ & ?)]];
      simpl in *; [congruence..|done].
Qed.

(** X8: when [ParseQuery] returns, its plus words are the tokens without
    a leading ['-'] that are no stop words, its minus words are what
    follows the ['-'] in the other tokens when that is no stop word, its
    stop words are the tokens (as written) whose stripped text is a stop
    word; each of the three sets is in ascending order without
    duplicates. *)
Theorem ParseQuery_sets s (raw_query : string) query :
  ParseQuery s raw_query = Ok query ->
  ((forall x, In x (plus_words query) <->
      In x (SplitIntoWords raw_query) /\ has_minus x = false /\
      IsStopWord s x = false) /\
   (forall x, In x (minus_words query) <->
      In (String "-" x) (SplitIntoWords raw_query) /\ IsStopWord s x = false) /\
   (forall x, In x (stop_words query) <->
      In x (SplitIntoWords raw_query) /\ IsStopWord s (strip_minus x) = true)) /\
  set_sorted (plus_words query) /\ set_sorted (minus_words query) /\
  set_sorted (stop_words query).
Proof.
  intros Hparse. split; [by apply ParseQuery_members|].
  apply (ParseQuery_loop_sorted s (SplitIntoWords raw_query) empty_query);
    [constructor..|done].
Qed.

Lemma ParseQuery_same_tokens s raw_query1 raw_query2 :
  (forall token, In token (SplitIntoWords raw_query1) <->
                 In token (SplitIntoWords raw_query2)) ->
  ParseQuery s raw_query1 = ParseQuery s raw_query2.
Proof.
  intros Hsame.
  destruct (ParseQuery s raw_query1) as [query1|e1] eqn:Hparse1;
    destruct (ParseQuery s raw_query2) as [query2|e2] eqn:Hparse2.
  - pose proof (ParseQuery_members _ _ _ Hparse1) as (Hp1 & Hm1 & Hs1).
    pose proof (ParseQuery_members _ _ _ Hparse2) as (Hp2 & Hm2 & Hs2).
    destruct (ParseQuery_loop_sorted s (SplitIntoWords raw_query1)
                empty_query query1) as (? & ? & ?);
      [constructor..|exact Hparse1|].
    destruct (ParseQuery_loop_sorted s (SplitIntoWords raw_query2)
                empty_query query2) as (? & ? & ?);
      [constructor..|exact Hparse2|].
    destruct query1 as [p1 m1 s1], query2 as [p2 m2 s2]; simpl in *.
    f_equal. f_equal; apply set_sorted_unique; try done.
    + intros x. by rewrite Hp1, Hp2, Hsame.
    + intros x. by rewrite Hm1, Hm2, Hsame.
    + intros x. by rewrite Hs1, Hs2, Hsame.
  - exfalso.
    assert (Hthrow : is_Throw (ParseQuery s raw_query2)) by (by eexists).
    apply ParseQuery_loop_Throw, Exists_exists in Hthrow as (token & Hin & Hbad).
    apply (Ok_not_Throw (ParseQuery s raw_query1)); [by eexists|].
    apply ParseQuery_loop_Throw, Exists_exists. exists token.
    split; [|done]. by apply list_elem_of_In, Hsame, list_elem_of_In.
  - exfalso.
    assert (Hthrow : is_Throw (ParseQuery s raw_query1)) by (by eexists).
    apply ParseQuery_loop_Throw, Exists_exists in Hthrow as (token & Hin & Hbad).
    apply (Ok_not_Throw (ParseQuery s raw_query2)); [by eexists|].
    apply ParseQuery_loop_Throw, Exists_exists. exists token.
    split; [|done]. by apply list_elem_of_In, Hsame, list_elem_of_In.
  - apply ParseQuery_loop_exception in Hparse1, Hparse2. congruence.
Qed.

(** X9: the order of the tokens of a query and their repetition do not
    matter: two raw queries with the same tokens parse to the same query
    (or both throw), and [MatchDocument] answers the same for both. *)
Theorem same_tokens_same_answer s (raw_query1 raw_query2 : string) :
  (forall token, In token (SplitIntoWords raw_query1) <->
                 In token (SplitIntoWords raw_query2)) ->
  ParseQuery s raw_query1 = ParseQuery s raw_query2 /\
  forall document_id,
    MatchDocument s raw_query1 document_id
    = MatchDocument s raw_query2 document_id.
Proof.
  intros Hsame%(ParseQuery_same_tokens s). split; [done|].
  intros document_id. unfold MatchDocument. by rewrite Hsame.
Qed.

End parsed_query.

Lemma ParseQuery_sets_witness :
  ((forall x, In x ["cat"] <->
      In x (SplitIntoWords "cat -dog in cat") /\ has_minus x = false /\
      IsStopWord cat_server x = false) /\
   (forall x, In x ["dog"] <->
      In (String "-" x) (SplitIntoWords "cat -dog in cat") /\
      IsStopWord cat_server x = false) /\
   (forall x, In x ["in"] <->
      In x (SplitIntoWords "cat -dog in cat") /\
      IsStopWord cat_server (strip_minus x) = true)) /\
  set_sorted ["cat"] /\ set_sorted ["dog"] /\ set_sorted ["in"].
Proof.
  apply (ParseQuery_sets cat_server "cat -dog in cat"
           {| plus_words := ["cat"]; minus_words := ["dog"];
              stop_words := ["in"] |}).
  reflexivity.
Defined.

Lemma same_tokens_same_answer_witness :
  ParseQuery cat_server "city -dog cat" = ParseQuery cat_server "cat  cat -dog city" /\
  forall document_id,
    MatchDocument cat_server "city -dog cat" document_id
    = MatchDocument cat_server "cat  cat -dog city" document_id.
Proof.
  apply (same_tokens_same_answer cat_server "city -dog cat" "cat  cat -dog city").
  intros token. simpl. tauto.
Defined.

(** ** Documents in insertion order *)

Section insertion_order.
Context {D : Type} {ops : DoubleOps D}.
Implicit Types (s : SearchServer D) (word : string) (words : list string).

Lemma forallb_false_Exists {A} (f : A -> bool) l :
  forallb f l = false -> Exists (fun x => f x = false) l.
Proof.
  induction l as [|x l IH]; simpl; [done|].
  destruct (f x) eqn:Hx; simpl; [|by left]. intros Hl. right. by apply IH.
Qed.

Lemma add_word_freqs_fields document_id (inv_word_count : D) words s :
  let s1 := fold_left (add_word_freq document_id inv_word_count) words s in
  stop_words_ s1 = stop_words_ s /\ documents_ s1 = documents_ s /\
  ids_ s1 = ids_ s.
Proof.
  revert s. induction words as [|word words IH]; intros s; simpl; [done|].
  by destruct (IH (add_word_freq document_id inv_word_count s word))
    as (-> & -> & ->).
Qed.

Lemma AddDocument_Ok_fields s document_id document status ratings s' :
  AddDocument document_id document status ratings s = (Ok (), s') ->
  documents_ s !! document_id = None /\
  stop_words_ s' = stop_words_ s /\
  documents_ s'
  = <[document_id := {| data_rating := ComputeAverageRating ratings;
                        data_status := status |}]> (documents_ s) /\
  ids_ s' = ids_ s ++ [document_id].
Proof.
  intros (Hfresh & _ & words & _ & ->)%AddDocument_Ok.
  destruct (add_word_freqs_fields document_id
              (ddiv (of_int 1) (of_int (Z.of_nat (length words)))) words s)
    as (Hstop & Hdocs & Hids).
  simpl. rewrite Hstop, Hdocs, Hids, Hfresh. done.
Qed.

(** X10: on a reachable server [GetDocumentId] returns, for an index from
    0 up to the document count (excluded), the id added at that position,
    which is the id of an indexed document; for any other index it throws
    [out_of_range]. *)
Theorem GetDocumentId_in_range s (index : Z) :
  reachable s ->
  (0 <= index < GetDocumentCount s ->
   exists document_id,
     GetDocumentId s index = Ok document_id /\
     ids_ s !! Z.to_nat index = Some document_id /\
     is_Some (documents_ s !! document_id)) /\
  (~ 0 <= index < GetDocumentCount s ->
   GetDocumentId s index = Throw (out_of_range "Wrong index of document")).
Proof.
  intros Hwf%reachable_well_formed. unfold GetDocumentId, GetDocumentCount.
  split.
  - intros [Hlow Hhigh].
    assert (Hin : (0 <=? index) && (index <? Z.of_nat (size (documents_ s)))
                  = true).
    { apply andb_true_iff. split; [by apply Z.leb_le|by apply Z.ltb_lt]. }
    rewrite Hin. unfold vector_at.
    rewrite <- (wf_ids_length s Hwf) in Hhigh.
    destruct (lookup_lt_is_Some_2 (ids_ s) (Z.to_nat index)) as [document_id Hid];
      [lia|].
    exists document_id. rewrite Hid.
    assert ((0 <=? index) = true) as -> by by apply Z.leb_le.
    split; [done|]. split; [done|].
    destruct (wf_ids s Hwf) as [_ Hids]. apply Hids.
    apply list_elem_of_In. by eapply list_elem_of_lookup_2.
  - intros Hout.
    assert (Hin : (0 <=? index) && (index <? Z.of_nat (size (documents_ s)))
                  = false); [|by rewrite Hin].
    apply andb_false_iff.
    destruct (decide (0 <= index)); [right; apply Z.ltb_ge|left; apply Z.leb_gt];
      lia.
Qed.

(** X11: a call of [AddDocument] that returns has raised the document
    count by exactly one, stored the average rating and the status under
    the id, kept the data of all other documents, appended the id to the
    insertion order and left the stop words alone. *)
Theorem AddDocument_records s (document_id : Z) (document : string)
    (status : DocumentStatus) (ratings : list Z) (s' : SearchServer D) :
  AddDocument document_id document status ratings s = (Ok (), s') ->
  GetDocumentCount s' = GetDocumentCount s + 1 /\
  documents_ s' !! document_id
  = Some {| data_rating := ComputeAverageRating ratings; data_status := status |} /\
  (forall other, other <> document_id ->
     documents_ s' !! other = documents_ s !! other) /\
  ids_ s' = ids_ s ++ [document_id] /\
  stop_words_ s' = stop_words_ s.
Proof.
  intros (Hfresh & Hstop & Hdocs & Hids)%AddDocument_Ok_fields.
  unfold GetDocumentCount. rewrite Hdocs, Hids, Hstop.
  rewrite map_size_insert_None by done.
  split; [lia|]. split; [by rewrite lookup_insert_eq|].
  split; [|done]. intros other Hother. by rewrite lookup_insert_ne.
Qed.

(** X12: after a call of [AddDocument] that returns on a reachable
    server, [GetDocumentId] answers as before for every old position and
    gives the new id at the position that was the document count. *)
Theorem AddDocument_keeps_positions s (document_id : Z) (document : string)
    (status : DocumentStatus) (ratings : list Z) (s' : SearchServer D) :
  reachable s ->
  AddDocument document_id document status ratings s = (Ok (), s') ->
  (forall index, 0 <= index < GetDocumentCount s ->
     GetDocumentId s' index = GetDocumentId s index) /\
  GetDocumentId s' (GetDocumentCount s) = Ok document_id.
Proof.
  intros Hwf%reachable_well_formed Hadd.
  pose proof (AddDocument_Ok_fields _ _ _ _ _ _ Hadd)
    as (Hfresh & Hstop & Hdocs & Hids).
  pose proof (wf_ids_length s Hwf) as Hlength.
  unfold GetDocumentId, GetDocumentCount, vector_at.
  rewrite Hdocs, Hids, map_size_insert_None by done. split.
  - intros index [Hlow Hhigh].
    assert (Hin : forall n, (Z.of_nat (size (documents_ s)) <= Z.of_nat n)%Z ->
                    (0 <=? index) && (index <? Z.of_nat n) = true).
    { intros n Hn. apply andb_true_iff.
      split; [by apply Z.leb_le|apply Z.ltb_lt; lia]. }
    rewrite !Hin by lia.
    rewrite lookup_app_l by lia. done.
  - assert (Hin : (0 <=? Z.of_nat (size (documents_ s))) &&
                  (Z.of_nat (size (documents_ s))
                   <? Z.of_nat (S (size (documents_ s)))) = true).
    { apply andb_true_iff. split; [apply Z.leb_le|apply Z.ltb_lt]; lia. }
    rewrite Hin, Nat2Z.id, <- Hlength, list_lookup_middle by done.
    assert ((0 <=? Z.of_nat (length (ids_ s))) = true) as ->
      by (apply Z.leb_le; lia).
    done.
Qed.

(** X13: which exception [AddDocument] throws: for an id in use, "Document
    ID is already exist", whatever else is wrong; otherwise for a negative
    id, "Document ID is negative"; otherwise for a text with a control
    character, "Invalid word try to add"; and otherwise it returns. *)
Theorem AddDocument_exceptions s (document_id : Z) (document : string)
    (status : DocumentStatus) (ratings : list Z) :
  let outcome := fst (AddDocument document_id document status ratings s) in
  (is_Some (documents_ s !! document_id) ->
   outcome = Throw (invalid_argument "Document ID is already exist")) /\
  (documents_ s !! document_id = None -> document_id < 0 ->
   outcome = Throw (invalid_argument "Document ID is negative")) /\
  (documents_ s !! document_id = None -> 0 <= document_id ->
   IsValidWord document = false ->
   outcome = Throw (invalid_argument "Invalid word try to add")) /\
  (documents_ s !! document_id = None -> 0 <= document_id ->
   IsValidWord document = true -> outcome = Ok ()).
Proof.
  unfold AddDocument. simpl. split; [|split; [|split]].
  - intros Hdup. by rewrite bool_decide_eq_true_2.
  - intros Hfresh Hneg. rewrite bool_decide_eq_false_2 by (rewrite Hfresh; by intros [? ?]).
    by apply Z.ltb_lt in Hneg as ->.
  - intros Hfresh Hid Hinvalid.
    rewrite bool_decide_eq_false_2 by (rewrite Hfresh; by intros [? ?]).
    apply Z.ltb_ge in Hid as ->.
    destruct (SplitIntoWordsNoStop s document) as [words|e] eqn:Hsplit; simpl.
    + exfalso. apply (Ok_not_Throw (SplitIntoWordsNoStop s document));
        [by eexists|].
      apply SplitIntoWordsNoStop_loop_Throw.
      rewrite IsValidWord_SplitIntoWords in Hinvalid.
      by apply forallb_false_Exists.
    + by apply SplitIntoWordsNoStop_exception in Hsplit as ->.
  - intros Hfresh Hid Hvalid.
    rewrite bool_decide_eq_false_2 by (rewrite Hfresh; by intros [? ?]).
    apply Z.ltb_ge in Hid as ->.
    destruct (SplitIntoWordsNoStop s document) as [words|e] eqn:Hsplit; [done|].
    exfalso.
    assert (Hthrow : is_Throw (SplitIntoWordsNoStop s document)) by (by eexists).
    apply SplitIntoWordsNoStop_loop_Throw, Exists_exists in Hthrow
      as (word & Hin & Hbad).
    rewrite IsValidWord_SplitIntoWords, forallb_forall in Hvalid.
    apply list_elem_of_In, Hvalid in Hin. congruence.
Qed.

End insertion_order.

Lemma GetDocumentId_in_range_witness :
  (0 <= 0 < GetDocumentCount cat_server ->
   exists document_id,
     GetDocumentId cat_server 0 = Ok document_id /\
     ids_ cat_server !! Z.to_nat 0 = Some document_id /\
     is_Some (documents_ cat_server !! document_id)) /\
  (~ 0 <= 0 < GetDocumentCount cat_server ->
   GetDocumentId cat_server 0 = Throw (out_of_range "Wrong index of document")).
Proof. apply (GetDocumentId_in_range cat_server 0). exact cat_server_reachable. Defined.

Lemma AddDocument_records_witness :
  GetDocumentCount cat_server = GetDocumentCount stop_server + 1 /\
  documents_ cat_server !! 42
  = Some {| data_rating := ComputeAverageRating [1; 2; 3]; data_status := ACTUAL |} /\
  (forall other, other <> 42 ->
     documents_ cat_server !! other = documents_ stop_server !! other) /\
  ids_ cat_server = ids_ stop_server ++ [42] /\
  stop_words_ cat_server = stop_words_ stop_server.
Proof.
  apply (AddDocument_records stop_server 42 "cat in the city" ACTUAL [1; 2; 3]
           cat_server).
  reflexivity.
Defined.

Lemma AddDocument_keeps_positions_witness :
  (forall index, 0 <= index < GetDocumentCount alabama_server ->
     GetDocumentId music_server index = GetDocumentId alabama_server index) /\
  GetDocumentId music_server (GetDocumentCount alabama_server) = Ok 4.
Proof.
  apply (AddDocument_keeps_positions alabama_server 4
           "love me tender love me too" ACTUAL [12; 1; 5] music_server).
  - apply (reachable_AddDocument SearchServer_default 12
             "sweet home alabama in" ACTUAL [1]);
      [apply reachable_default|reflexivity].
  - reflexivity.
Defined.

(** ** Term frequencies *)

Section term_frequencies.
Context {D : Type} {ops : DoubleOps D}.
Implicit Types (s : SearchServer D) (word : string) (words : list string).

(** The posting of a word, empty when the word is not in the index. *)
Lemma posting_has_default s word document_id :
  posting_has s word document_id
  = bool_decide (is_Some (imap_find document_id
                            (default [] (word_to_document_freqs_ s !! word)))).
Proof.
  unfold posting_has. by destruct (word_to_document_freqs_ s !! word).
Qed.

(** The loop of [AddDocument], seen from one word: the frequency of the
    new document grows by [inv_word_count] once for each occurrence of the
    word, and the frequencies of the other documents stay. *)
Lemma add_word_freqs_find document_id (inv_word_count : D) words s word :
  (forall word posting, word_to_document_freqs_ s !! word = Some posting ->
     imap_sorted posting) ->
  let s1 := fold_left (add_word_freq document_id inv_word_count) words s in
  let count := count_occ String.string_dec words word in
  let old := default [] (word_to_document_freqs_ s !! word) in
  let new := default [] (word_to_document_freqs_ s1 !! word) in
  (count = 0%nat ->
   word_to_document_freqs_ s1 !! word = word_to_document_freqs_ s !! word) /\
  (count <> 0%nat ->
   is_Some (word_to_document_freqs_ s1 !! word) /\
   imap_find document_id new
   = Some (Nat.iter count (fun freq => dadd freq inv_word_count)
                    (default (of_int 0) (imap_find document_id old)))) /\
  (forall other, other <> document_id ->
     imap_find other new = imap_find other old).
Proof.
  revert s. induction words as [|word' words IH]; intros s Hsorted; cbv zeta.
  - simpl. split; [done|]. split; [done|done].
  - cbn [fold_left count_occ].
    set (s0 := add_word_freq document_id inv_word_count s word').
    assert (Hsorted0 : forall word posting,
              word_to_document_freqs_ s0 !! word = Some posting ->
              imap_sorted posting).
    { intros w posting. unfold s0, add_word_freq. simpl.
      destruct (decide (w = word')) as [->|Hne].
      - rewrite lookup_insert_eq. intros [= <-]. apply imap_update_sorted.
        destruct (word_to_document_freqs_ s !! word') eqn:Hw; simpl;
          [by eapply Hsorted|constructor].
      - rewrite lookup_insert_ne by done. apply Hsorted. }
    specialize (IH s0 Hsorted0). cbv zeta in IH.
    destruct IH as (IHzero & IHmore & IHother).
    assert (Hold_sorted :
      imap_sorted (default [] (word_to_document_freqs_ s !! word'))).
    { destruct (word_to_document_freqs_ s !! word') eqn:Hw; simpl;
        [by eapply Hsorted|constructor]. }
    destruct (String.string_dec word' word) as [->|Hne].
    + assert (Hs0 : word_to_document_freqs_ s0 !! word
                    = Some (imap_update document_id
                              (fun freq => dadd freq inv_word_count) (of_int 0)
                              (default [] (word_to_document_freqs_ s !! word)))).
      { unfold s0, add_word_freq. simpl. by rewrite lookup_insert_eq. }
      split; [done|]. split.
      * intros _.
        destruct (count_occ String.string_dec words word) as [|n] eqn:Hcount.
        -- rewrite IHzero, Hs0 by done. split; [by eexists|]. simpl.
           rewrite imap_find_update by done. by rewrite decide_True.
        -- destruct IHmore as [Hsome Hfind]; [done|]. split; [done|].
           rewrite Hfind, Hs0. simpl.
           rewrite imap_find_update by done. rewrite decide_True by done.
           simpl. do 2 f_equal.
           apply (Nat.iter_swap n D (fun freq => dadd freq inv_word_count)).
      * intros other Hother. rewrite IHother, Hs0 by done. simpl.
        rewrite imap_find_update by done. by rewrite decide_False.
    + assert (Hs0 : word_to_document_freqs_ s0 !! word
                    = word_to_document_freqs_ s !! word).
      { unfold s0, add_word_freq. simpl. by rewrite lookup_insert_ne. }
      rewrite Hs0 in IHzero, IHmore, IHother. done.
Qed.

Lemma AddDocument_postings s document_id document status ratings s' word :
  well_formed s ->
  AddDocument document_id document status ratings s = (Ok (), s') ->
  let count := count_occ String.string_dec (indexed_words s document) word in
  let inv_word_count :=
    ddiv (of_int 1) (of_int (Z.of_nat (length (indexed_words s document)))) in
  (count = 0%nat ->
   word_to_document_freqs_ s' !! word = word_to_document_freqs_ s !! word) /\
  (count <> 0%nat ->
   exists posting,
     word_to_document_freqs_ s' !! word = Some posting /\
     imap_find document_id posting
     = Some (Nat.iter count (fun freq => dadd freq inv_word_count) (of_int 0))) /\
  (forall other, other <> document_id ->
     posting_has s' word other = posting_has s word other /\
     imap_find other (default [] (word_to_document_freqs_ s' !! word))
     = imap_find other (default [] (word_to_document_freqs_ s !! word))).
Proof.
  intros Hwf Hadd.
  pose proof (AddDocument_Ok _ _ _ _ _ _ Hadd) as (Hfresh & _ & words & Hsplit & ->).
  apply SplitIntoWordsNoStop_loop_Ok in Hsplit. simpl in Hsplit.
  fold (indexed_words s document) in Hsplit. subst words. cbv zeta.
  destruct (add_word_freqs_find document_id
              (ddiv (of_int 1)
                    (of_int (Z.of_nat (length (indexed_words s document)))))
              (indexed_words s document) s word (wf_posting_keys s Hwf))
    as (Hzero & Hmore & Hother).
  assert (Hnew : imap_find document_id
                   (default [] (word_to_document_freqs_ s !! word)) = None).
  { destruct (word_to_document_freqs_ s !! word) as [posting|] eqn:Hword;
      simpl; [|done].
    destruct (imap_find document_id posting) eqn:Hfind; [|done].
    destruct (wf_postings s Hwf word posting document_id Hword) as [? Hdoc];
      [apply imap_keys_find; by eexists|congruence]. }
  simpl. split; [done|]. split.
  - intros Hcount. destruct (Hmore Hcount) as [[posting Hposting] Hfind].
    exists posting. split; [done|]. rewrite Hposting, Hnew in Hfind. done.
  - intros other Hne. specialize (Hother other Hne).
    split; [|done]. rewrite !posting_has_default. simpl. by rewrite Hother.
Qed.

(** X14: after a call of [AddDocument] that returns on a reachable
    server, a word that is not among the indexed words of the text (its
    words without the stop words) has the posting it had; a word that
    occurs [k] times has a posting in which the frequency of the new
    document is [1.0 / n] added [k] times to [0.0], [n] being the number
    of indexed words; in every posting the frequencies of the other
    documents are as before. *)
Theorem AddDocument_term_frequency s (document_id : Z) (document : string)
    (status : DocumentStatus) (ratings : list Z) (s' : SearchServer D)
    (word : string) :
  reachable s ->
  AddDocument document_id document status ratings s = (Ok (), s') ->
  (count_occ String.string_dec (indexed_words s document) word = 0%nat ->
   word_to_document_freqs_ s' !! word = word_to_document_freqs_ s !! word) /\
  (count_occ String.string_dec (indexed_words s document) word <> 0%nat ->
   exists posting,
     word_to_document_freqs_ s' !! word = Some posting /\
     imap_find document_id posting
     = Some (Nat.iter
               (count_occ String.string_dec (indexed_words s document) word)
               (fun freq =>
                  dadd freq
                    (ddiv (of_int 1)
                       (of_int (Z.of_nat (length (indexed_words s document))))))
               (of_int 0))) /\
  (forall other, other <> document_id ->
     imap_find other (default [] (word_to_document_freqs_ s' !! word))
     = imap_find other (default [] (word_to_document_freqs_ s !! word))).
Proof.
  intros Hwf%reachable_well_formed Hadd.
  destruct (AddDocument_postings s document_id document status ratings s' word
              Hwf Hadd) as (Hzero & Hmore & Hother).
  split; [done|]. split; [done|]. intros other Hne. by apply Hother.
Qed.

End term_frequencies.

Lemma AddDocument_term_frequency_witness :
  (count_occ String.string_dec
     (indexed_words alabama_server "love me tender love me too") "love" = 0%nat ->
   word_to_document_freqs_ music_server !! "love"
   = word_to_document_freqs_ alabama_server !! "love") /\
  (count_occ String.string_dec
     (indexed_words alabama_server "love me tender love me too") "love" <> 0%nat ->
   exists posting,
     word_to_document_freqs_ music_server !! "love" = Some posting /\
     imap_find 4 posting
     = Some (Nat.iter
               (count_occ String.string_dec
                  (indexed_words alabama_server "love me tender love me too")
                  "love")
               (fun freq =>
                  dadd freq
                    (ddiv (of_int 1)
                       (of_int (Z.of_nat (length
                          (indexed_words alabama_server
                             "love me tender love me too"))))))
               (of_int 0))) /\
  (forall other, other <> 4 ->
     imap_find other (default [] (word_to_document_freqs_ music_server !! "love"))
     = imap_find other
         (default [] (word_to_document_freqs_ alabama_server !! "love"))).
Proof.
  apply (AddDocument_term_frequency alabama_server 4
           "love me tender love me too" ACTUAL [12; 1; 5] music_server "love").
  - apply (reachable_AddDocument SearchServer_default 12
             "sweet home alabama in" ACTUAL [1]);
      [apply reachable_default|reflexivity].
  - reflexivity.
Defined.

(** ** [MatchDocument] *)

Section matching.
Context {D : Type} {ops : DoubleOps D}.
Implicit Types (s : SearchServer D) (word : string) (words : list string).
Implicit Types (query : Query).

Lemma matched_words_filter s document_id words (matched_words : list string) :
  fold_left (fun (matched_words : list string) word =>
               if posting_has s word document_id
               then matched_words ++ [word] else matched_words)
            words matched_words
  = matched_words
    ++ List.filter (fun word => posting_has s word document_id) words.
Proof.
  revert matched_words.
  induction words as [|word words IH]; intros matched_words; simpl.
  - by rewrite app_nil_r.
  - rewrite IH. destruct (posting_has s word document_id); [|done].
    by rewrite <- app_assoc.
Qed.

Lemma clear_on_minus_hit_existsb s document_id words (matched_words : list string) :
  clear_on_minus_hit s document_id words matched_words
  = if existsb (fun word => posting_has s word document_id) words
    then [] else matched_words.
Proof.
  induction words as [|word words IH]; simpl; [done|].
  by destruct (posting_has s word document_id).
Qed.

Lemma MatchDocument_unfold s raw_query document_id data query :
  documents_ s !! document_id = Some data ->
  ParseQuery s raw_query = Ok query -> is_stop_only query = false ->
  MatchDocument s raw_query document_id
  = Ok (if existsb (fun word => posting_has s word document_id)
                   (minus_words query)
        then []
        else List.filter (fun word => posting_has s word document_id)
                         (plus_words query),
        data_status data).
Proof.
  intros Hdata Hparse Hquery. unfold MatchDocument.
  rewrite bool_decide_eq_false_2 by congruence.
  rewrite Hparse. simpl. rewrite Hquery, Hdata.
  by rewrite matched_words_filter, clear_on_minus_hit_existsb.
Qed.

(** X16: for an indexed document and a query that parses and is not made
    of stop words only, [MatchDocument] returns the stored status of the
    document together with: nothing, when the posting of some minus word
    holds the document; otherwise the plus words whose posting holds the
    document, in the order of the set.  For an id that is not indexed it
    throws before it looks at the query. *)
Theorem MatchDocument_answer s (raw_query : string) (document_id : Z) :
  (forall data query,
     documents_ s !! document_id = Some data ->
     ParseQuery s raw_query = Ok query -> is_stop_only query = false ->
     MatchDocument s raw_query document_id
     = Ok (if existsb (fun word => posting_has s word document_id)
                      (minus_words query)
           then []
           else List.filter (fun word => posting_has s word document_id)
                            (plus_words query),
           data_status data)) /\
  (documents_ s !! document_id = None ->
   MatchDocument s raw_query document_id
   = Throw (invalid_argument "Wrong document ID (it has no exist)")).
Proof.
  split; [intros data query; apply MatchDocument_unfold|].
  intros Hnone. unfold MatchDocument. by rewrite bool_decide_eq_true_2.
Qed.

Lemma filter_sorted (f : string -> bool) l :
  set_sorted l -> set_sorted (List.filter f l).
Proof.
  unfold set_sorted. induction 1 as [|x l Hsorted IH Hx]; simpl; [constructor|].
  destruct (f x); [|done]. constructor; [done|].
  rewrite Forall_forall in Hx |- *.
  intros y [Hy _]%list_elem_of_In%filter_In. by apply Hx, list_elem_of_In.
Qed.

(** X17: the words that [MatchDocument] returns come in ascending order,
    none twice; each is a token of the query without a leading ['-'], no
    stop word, and the posting of each holds the document. *)
Theorem MatchDocument_words s (raw_query : string) (document_id : Z)
    (matched_words : list string) (status : DocumentStatus) :
  MatchDocument s raw_query document_id = Ok (matched_words, status) ->
  set_sorted matched_words /\
  forall word, In word matched_words ->
    In word (SplitIntoWords raw_query) /\ has_minus word = false /\
    IsStopWord s word = false /\ posting_has s word document_id = true.
Proof.
  unfold MatchDocument. case_bool_decide as Hdoc; [done|].
  destruct (ParseQuery s raw_query) as [query|] eqn:Hparse; simpl; [|done].
  destruct (is_stop_only query).
  { intros [= <- _]. split; [constructor|done]. }
  destruct (documents_ s !! document_id) as [data|]; [|done].
  rewrite matched_words_filter, clear_on_minus_hit_existsb. simpl.
  intros [= <- _].
  pose proof (ParseQuery_members _ _ _ Hparse) as (Hplus & _).
  destruct (ParseQuery_loop_sorted s (SplitIntoWords raw_query) empty_query query)
    as (Hsorted & _); [constructor..|done|].
  destruct (existsb _ _); [split; [constructor|done]|].
  split; [by apply filter_sorted|].
  intros word [Hword Hhit]%filter_In. apply Hplus in Hword. tauto.
Qed.

Lemma ParseQuery_stop_words s s' raw_query :
  stop_words_ s' = stop_words_ s -> ParseQuery s' raw_query = ParseQuery s raw_query.
Proof.
  intros Hstop. unfold ParseQuery. generalize empty_query as query.
  induction (SplitIntoWords raw_query) as [|word words IH]; intros query; simpl;
    [done|].
  assert (Hword : ParseQueryWord s' word = ParseQueryWord s word).
  { rewrite !ParseQueryWord_unfold. unfold IsStopWord. by rewrite Hstop. }
  rewrite Hword. destruct (ParseQueryWord s word); simpl; [|done].
  case_bool_decide; [done|]. apply IH.
Qed.

(** X18: adding a document does not change what [MatchDocument] answers
    for the other documents. *)
Theorem AddDocument_keeps_matches s (document_id : Z) (document : string)
    (status : DocumentStatus) (ratings : list Z) (s' : SearchServer D)
    (raw_query : string) (other : Z) :
  reachable s ->
  AddDocument document_id document status ratings s = (Ok (), s') ->
  other <> document_id ->
  MatchDocument s' raw_query other = MatchDocument s raw_query other.
Proof.
  intros Hwf%reachable_well_formed Hadd Hother.
  pose proof (AddDocument_Ok_fields _ _ _ _ _ _ Hadd)
    as (Hfresh & Hstop & Hdocs & Hids).
  assert (Hhit : forall word, posting_has s' word other = posting_has s word other).
  { intros word.
    by destruct (AddDocument_postings s document_id document status ratings s'
                   word Hwf Hadd) as (_ & _ & Hsame); destruct (Hsame other). }
  unfold MatchDocument.
  rewrite (ParseQuery_stop_words s s' raw_query Hstop), Hdocs.
  rewrite lookup_insert_ne by done.
  case_bool_decide; [done|].
  destruct (ParseQuery s raw_query) as [query|]; simpl; [|done].
  destruct (is_stop_only query); [done|].
  rewrite !matched_words_filter, !clear_on_minus_hit_existsb. simpl.
  rewrite (filter_ext _ _ Hhit).
  assert (Hminus : existsb (fun word => posting_has s' word other)
                           (minus_words query)
                   = existsb (fun word => posting_has s word other)
                             (minus_words query)).
  { induction (minus_words query) as [|word words IH]; simpl; [done|].
    by rewrite Hhit, IH. }
  by rewrite Hminus.
Qed.

(** X19: a document can be found by each of its indexed words: after a
    call of [AddDocument] that returns on a reachable server,
    [MatchDocument] for the new id and a word of the text that is no stop
    word and does not start with ['-'] returns that word and the status
    given to the call. *)
Theorem AddDocument_then_MatchDocument s (document_id : Z) (document : string)
    (status : DocumentStatus) (ratings : list Z) (s' : SearchServer D)
    (word : string) :
  reachable s ->
  AddDocument document_id document status ratings s = (Ok (), s') ->
  In word (indexed_words s document) -> has_minus word = false ->
  MatchDocument s' word document_id = Ok ([word], status).
Proof.
  intros Hwf%reachable_well_formed Hadd Hin Hplain.
  pose proof (AddDocument_Ok_fields _ _ _ _ _ _ Hadd)
    as (Hfresh & Hstop & Hdocs & Hids).
  pose proof (AddDocument_Ok _ _ _ _ _ _ Hadd) as (_ & _ & words & Hsplit & _).
  apply filter_In in Hin as Hword. destruct Hword as [Htoken Hnostop].
  apply negb_true_iff in Hnostop.
  assert (His_word : is_word word).
  { assert (Hwords : Forall is_word (SplitIntoWords document))
      by by apply SplitIntoWords_loop_words.
    rewrite Forall_forall in Hwords. by apply Hwords, list_elem_of_In. }
  assert (Hvalid : IsValidWord word = true).
  { destruct (IsValidWord word) eqn:Hvalid; [done|]. exfalso.
    apply (Ok_not_Throw (SplitIntoWordsNoStop s document)); [by eexists|].
    apply SplitIntoWordsNoStop_loop_Throw, Exists_exists. exists word.
    split; [by apply list_elem_of_In|done]. }
  assert (Htokens : SplitIntoWords word = [word]).
  { apply (SplitIntoWords_loop_concat [word] []). by constructor. }
  assert (Hhit : posting_has s' word document_id = true).
  { destruct (AddDocument_postings s document_id document status ratings s'
                word Hwf Hadd) as (_ & Hmore & _).
    destruct Hmore as (posting & Hposting & Hfind).
    - apply (count_occ_In String.string_dec) in Hin. lia.
    - unfold posting_has. rewrite Hposting. apply bool_decide_eq_true_2.
      by eexists. }
  assert (Hparse : ParseQuery s' word
                   = Ok {| plus_words := [word]; minus_words := [];
                           stop_words := [] |}).
  { unfold ParseQuery. rewrite Htokens. simpl.
    rewrite ParseQueryWord_unfold, (strip_minus_plain word Hplain), Hplain, Hvalid.
    destruct His_word as [Hne _].
    rewrite bool_decide_eq_false_2 by done. simpl.
    rewrite bool_decide_eq_false_2 by done.
    unfold add_query_word, IsStopWord. simpl. rewrite Hstop.
    fold (IsStopWord s word). by rewrite Hnostop. }
  rewrite (MatchDocument_unfold s' word document_id
             {| data_rating := ComputeAverageRating ratings;
                data_status := status |} _ ltac:(by rewrite Hdocs, lookup_insert_eq)
             Hparse eq_refl).
  simpl. by rewrite Hhit.
Qed.

End matching.

Lemma MatchDocument_words_witness :
  set_sorted ["love"; "me"] /\
  forall word, In word ["love"; "me"] ->
    In word (SplitIntoWords "me love sweet") /\ has_minus word = false /\
    IsStopWord music_server word = false /\ posting_has music_server word 4 = true.
Proof.
  apply (MatchDocument_words music_server "me love sweet" 4 ["love"; "me"] ACTUAL).
  reflexivity.
Defined.

Lemma AddDocument_keeps_matches_witness :
  MatchDocument music_server "sweet home" 12
  = MatchDocument alabama_server "sweet home" 12.
Proof.
  apply (AddDocument_keeps_matches alabama_server 4 "love me tender love me too"
           ACTUAL [12; 1; 5] music_server "sweet home" 12).
  - apply (reachable_AddDocument SearchServer_default 12
             "sweet home alabama in" ACTUAL [1]);
      [apply reachable_default|reflexivity].
  - reflexivity.
  - lia.
Defined.

Lemma AddDocument_then_MatchDocument_witness :
  MatchDocument music_server "tender" 4 = Ok (["tender"], ACTUAL).
Proof.
  apply (AddDocument_then_MatchDocument alabama_server 4
           "love me tender love me too" ACTUAL [12; 1; 5] music_server "tender").
  - apply (reachable_AddDocument SearchServer_default 12
             "sweet home alabama in" ACTUAL [1]);
      [apply reachable_default|reflexivity].
  - reflexivity.
  - vm_compute. auto.
  - reflexivity.
Defined.

(** ** What [FindAllDocuments] and [FindTopDocuments] return *)

Section found_documents.
Context {D : Type} {ops : DoubleOps D} {sorter : StdSort}.
Implicit Types (s : SearchServer D) (word : string) (words : list string).
Implicit Types (query : Query) (document_predicate : DocumentPredicate).
Implicit Types (m : list (Z * D)).

(** Which documents the first loop of [FindAllDocuments] has an entry
    for. *)
Lemma accumulate_plus_words_keys s document_predicate words m m' :
  well_formed s -> imap_sorted m ->
  accumulate_plus_words s document_predicate words m = Ok m' ->
  forall document_id,
    is_Some (imap_find document_id m') <->
    is_Some (imap_find document_id m) \/
    ((exists data, documents_ s !! document_id = Some data /\
        document_predicate document_id (data_status data) (data_rating data)
        = true) /\
     exists word, In word words /\ posting_has s word document_id = true).
Proof.
  intros Hwf. revert m. induction words as [|word words IH]; intros m Hm; simpl.
  - intros [= <-] document_id. split; [by left|].
    intros [?|[_ (? & [] & _)]]. done.
  - destruct (word_to_document_freqs_ s !! word) as [posting|] eqn:Hword.
    2:{ intros Hloop document_id. rewrite (IH m Hm Hloop document_id).
        split; (intros [?|[Hdata (word' & Hin & Hhit)]]; [by left|right]);
          (split; [done|]); exists word'.
        - split; [by right|done].
        - destruct Hin as [<-|Hin]; [|done].
          unfold posting_has in Hhit. by rewrite Hword in Hhit. }
    unfold ComputeWordInverseDocumentFreq. rewrite Hword. simpl.
    destruct (accumulate_posting _ _ _ posting m) as [m1|] eqn:Hm1; simpl; [|done].
    apply accumulate_posting_find in Hm1 as [Hsorted1 Hfind1];
      [|by eapply (wf_posting_keys s Hwf)|done].
    intros Hloop document_id. rewrite (IH m1 Hsorted1 Hloop document_id).
    rewrite (Hfind1 document_id).
    assert (Hhit : posting_has s word document_id
                   = bool_decide (is_Some (imap_find document_id posting))).
    { unfold posting_has. by rewrite Hword. }
    destruct (imap_find document_id posting) as [term_freq|] eqn:Hposting.
    + destruct (wf_postings s Hwf word posting document_id Hword) as [data Hdata];
        [apply imap_keys_find; by eexists|].
      rewrite Hdata.
      destruct (document_predicate _ _ _) eqn:Hpred.
      * split; [intros _|intros _; left; by eexists].
        right. split; [by exists data|]. exists word. split; [by left|].
        rewrite Hhit. apply bool_decide_eq_true_2. by eexists.
      * split; (intros [?|[(data' & Hdata' & Hpred') Hword']]; [by left|]).
        -- right. split; [by exists data'|].
           destruct Hword' as (word' & Hin & Hhit'). exists word'.
           split; [by right|done].
        -- congruence.
    + split; (intros [?|[Hdata (word' & Hin & Hhit')]]; [by left|right]);
        (split; [done|]); exists word'.
      * split; [by right|done].
      * destruct Hin as [<-|Hin]; [|done].
        rewrite Hhit in Hhit'. apply bool_decide_eq_true in Hhit'.
        by destruct Hhit'.
Qed.

Lemma erase_posting_keeps posting m document_id :
  imap_find document_id posting = None ->
  imap_find document_id (erase_posting posting m) = imap_find document_id m.
Proof.
  unfold erase_posting. revert m.
  induction posting as [|[k term_freq] posting IH]; intros m; simpl; [done|].
  destruct (document_id =? k) eqn:Hk; [done|]. intros Hnone.
  rewrite IH by done. rewrite imap_find_erase.
  apply Z.eqb_neq in Hk. by rewrite decide_False.
Qed.

Lemma erase_minus_words_keeps s words m document_id :
  (forall word, In word words -> posting_has s word document_id = false) ->
  imap_find document_id (erase_minus_words s words m) = imap_find document_id m.
Proof.
  unfold erase_minus_words. revert m.
  induction words as [|word words IH]; intros m Hnone; simpl; [done|].
  rewrite IH by (intros word' Hword'; apply Hnone; by right).
  specialize (Hnone word (or_introl eq_refl)). unfold posting_has in Hnone.
  destruct (word_to_document_freqs_ s !! word) as [posting|]; [|done].
  apply erase_posting_keeps. apply bool_decide_eq_false in Hnone.
  destruct (imap_find document_id posting); [|done]. destruct Hnone. by eexists.
Qed.

Lemma collect_documents_ids s m result :
  collect_documents s m = Ok result -> map doc_id result = imap_keys m.
Proof.
  revert result. induction m as [|[k relevance] m IH]; intros result; simpl.
  - by intros [= <-].
  - destruct (documents_ s !! k); [|done].
    destruct (collect_documents s m) as [rest|]; simpl; [|done].
    intros [= <-]. simpl. f_equal. by apply IH.
Qed.

Lemma FindAllDocuments_found s query document_predicate result :
  well_formed s ->
  FindAllDocuments s query document_predicate = Ok result ->
  (forall document_id,
     In document_id (map doc_id result) <->
     matches s query document_predicate document_id) /\
  StronglySorted Z.lt (map doc_id result) /\
  (forall doc, In doc result ->
     exists data, documents_ s !! doc_id doc = Some data /\
                  doc_rating doc = data_rating data).
Proof.
  intros Hwf. unfold FindAllDocuments.
  destruct (accumulate_plus_words s document_predicate (plus_words query) [])
    as [m|] eqn:Hplus; simpl; [|done].
  intros Hcollect.
  destruct (accumulate_plus_words_find s document_predicate (plus_words query) [])
    as (m0 & Hm0 & Hsorted & _); [done|constructor|].
  assert (m0 = m) as -> by congruence.
  pose proof (accumulate_plus_words_keys s document_predicate
                (plus_words query) [] m Hwf ltac:(constructor) Hplus) as Hkeys.
  rewrite (collect_documents_ids _ _ _ Hcollect).
  split; [|split].
  - intros document_id. rewrite imap_keys_find. unfold matches. split.
    + intros [relevance Hfind].
      apply erase_minus_words_find in Hfind as [Hfind Hminus].
      destruct (proj1 (Hkeys document_id)) as [[? ?]|[Hdata Hword]];
        [by eexists|done|done].
    + intros (Hdata & Hword & Hminus).
      rewrite erase_minus_words_keeps by done. apply Hkeys. by right.
  - by apply erase_minus_words_sorted.
  - intros doc Hdoc. by destruct (collect_documents_In _ _ _ _ Hcollect Hdoc).
Qed.

(** X20: on a reachable server [FindAllDocuments] returns exactly the
    documents that pass the predicate, are in the posting of some plus
    word and in the posting of no minus word, each once, by ascending id,
    and with the stored rating. *)
Theorem FindAllDocuments_matches s query document_predicate
    (result : list (Document D)) :
  reachable s ->
  FindAllDocuments s query document_predicate = Ok result ->
  (forall document_id,
     In document_id (map doc_id result) <->
     matches s query document_predicate document_id) /\
  StronglySorted Z.lt (map doc_id result) /\
  (forall doc, In doc result ->
     exists data, documents_ s !! doc_id doc = Some data /\
                  doc_rating doc = data_rating data).
Proof. intros Hwf%reachable_well_formed. by apply FindAllDocuments_found. Qed.

Lemma take_drop_NoDup {A} n (l : list A) : NoDup l -> NoDup (take n l).
Proof.
  intros Hl. rewrite <- (take_drop n l) in Hl. by apply NoDup_app in Hl as [? _].
Qed.

Lemma sorted_lt_NoDup (l : list Z) : StronglySorted Z.lt l -> NoDup l.
Proof.
  induction 1 as [|x l Hsorted IH Hx]; [constructor|].
  apply NoDup_cons. split; [|done]. rewrite Forall_forall in Hx.
  intros Hin%Hx. lia.
Qed.

Lemma stop_only_no_plus_words query :
  is_stop_only query = true -> plus_words query = [].
Proof.
  unfold is_stop_only. intros [[Hplus _]%andb_true_iff _]%andb_true_iff.
  by apply bool_decide_eq_true in Hplus.
Qed.

Lemma FindTopDocuments_cases s raw_query document_predicate result :
  FindTopDocuments s raw_query document_predicate = Ok result ->
  exists query,
    ParseQuery s raw_query = Ok query /\
    ((is_stop_only query = true /\ result = []) \/
     (is_stop_only query = false /\
      exists found,
        FindAllDocuments s query document_predicate = Ok found /\
        result = if MAX_RESULT_DOCUMENT_COUNT
                    <? Z.of_nat (length (std_sort by_relevance found))
                 then take (Z.to_nat MAX_RESULT_DOCUMENT_COUNT)
                           (std_sort by_relevance found)
                 else std_sort by_relevance found)).
Proof.
  unfold FindTopDocuments.
  destruct (IsValidWord raw_query); simpl; [|done].
  case_bool_decide; [done|].
  destruct (ParseQuery s raw_query) as [query|]; simpl; [|done].
  intros Hresult. exists query. split; [done|].
  destruct (is_stop_only query); [left; split; congruence|].
  destruct (FindAllDocuments s query document_predicate) as [found|];
    simpl in *; [|done].
  right. split; [done|]. exists found. split; [done|congruence].
Qed.

Lemma FindTopDocuments_result s raw_query document_predicate result :
  well_formed s ->
  FindTopDocuments s raw_query document_predicate = Ok result ->
  exists query found,
    ParseQuery s raw_query = Ok query /\
    FindAllDocuments s query document_predicate = Ok found /\
    (forall doc, In doc result -> In doc found) /\
    NoDup (map doc_id result) /\
    length result = min 5 (length found) /\
    (length found <= 5 -> Permutation result found)%nat.
Proof.
  intros Hwf (query & Hparse & Hresult)%FindTopDocuments_cases.
  destruct (FindAllDocuments_relevance s query document_predicate Hwf)
    as (found & Hfound & _).
  exists query, found. split; [done|]. split; [done|].
  pose proof (FindAllDocuments_found s query document_predicate found Hwf Hfound)
    as (Hmatches & Hsorted & _).
  destruct Hresult as [[Hstop ->]|(Hstop & found' & Hfound' & ->)].
  - (* the query of stop words only: nothing is found either *)
    assert (found = []) as ->; [|repeat split; try done; constructor].
    destruct found as [|doc found]; [done|].
    destruct (proj1 (Hmatches (doc_id doc))) as (_ & (word & Hin & _) & _);
      [by left|].
    by rewrite (stop_only_no_plus_words query Hstop) in Hin.
  - assert (found' = found) as -> by congruence.
    pose proof (std_sort_permutation _ by_relevance found) as Hperm.
    assert (Hnodup : NoDup (map doc_id (std_sort by_relevance found))).
    { rewrite Hperm. by apply sorted_lt_NoDup. }
    rewrite <- (Permutation_length Hperm).
    unfold MAX_RESULT_DOCUMENT_COUNT.
    destruct (_ <? _) eqn:Hlen.
    + apply Z.ltb_lt in Hlen. split; [|split; [|split]].
      * intros doc Hdoc%take_In. by apply (Permutation_in _ Hperm).
      * rewrite <- firstn_map. by apply take_drop_NoDup.
      * rewrite length_take. lia.
      * lia.
    + apply Z.ltb_ge in Hlen. split; [|split; [|split]].
      * intros doc Hdoc. by apply (Permutation_in _ Hperm).
      * done.
      * lia.
      * done.
Qed.

(** X21: on a reachable server, what [FindTopDocuments] returns are
    documents that [FindAllDocuments] finds for the parsed query, no
    document twice; their number is the smaller of 5 and the number of
    documents found, and when at most 5 documents are found, all of them
    are returned. *)
Theorem FindTopDocuments_takes_found s (raw_query : string) document_predicate
    (result : list (Document D)) :
  reachable s ->
  FindTopDocuments s raw_query document_predicate = Ok result ->
  exists query found,
    ParseQuery s raw_query = Ok query /\
    FindAllDocuments s query document_predicate = Ok found /\
    (forall doc, In doc result -> In doc found) /\
    NoDup (map doc_id result) /\
    length result = min 5 (length found) /\
    (length found <= 5 -> Permutation result found)%nat.
Proof. intros Hwf%reachable_well_formed. by apply FindTopDocuments_result. Qed.

(** X22: every document that [FindTopDocuments] returns on a reachable
    server passes the predicate with its stored status and rating, which
    is the rating of the entry; with a status for predicate every entry
    has that status, and without one the status ACTUAL. *)
Theorem FindTopDocuments_filters s (raw_query : string) :
  reachable s ->
  (forall document_predicate result doc,
     FindTopDocuments s raw_query document_predicate = Ok result ->
     In doc result ->
     exists data,
       documents_ s !! doc_id doc = Some data /\
       doc_rating doc = data_rating data /\
       document_predicate (doc_id doc) (data_status data) (data_rating data)
       = true) /\
  (forall status result doc,
     FindTopDocuments_status s raw_query status = Ok result -> In doc result ->
     exists data, documents_ s !! doc_id doc = Some data /\
                  data_status data = status) /\
  (forall result doc,
     FindTopDocuments_default s raw_query = Ok result -> In doc result ->
     exists data, documents_ s !! doc_id doc = Some data /\
                  data_status data = ACTUAL).
Proof.
  intros Hwf%reachable_well_formed.
  assert (Hgeneral : forall document_predicate result doc,
     FindTopDocuments s raw_query document_predicate = Ok result ->
     In doc result ->
     exists data,
       documents_ s !! doc_id doc = Some data /\
       doc_rating doc = data_rating data /\
       document_predicate (doc_id doc) (data_status data) (data_rating data)
       = true).
  { intros document_predicate result doc Hresult Hdoc.
    destruct (FindTopDocuments_result s raw_query document_predicate result
                Hwf Hresult) as (query & found & _ & Hfound & Hsub & _).
    apply Hsub in Hdoc.
    destruct (FindAllDocuments_found s query document_predicate found Hwf Hfound)
      as (Hmatches & _ & Hrating).
    destruct (Hrating doc Hdoc) as (data & Hdata & Hrate).
    exists data. split; [done|]. split; [done|].
    destruct (proj1 (Hmatches (doc_id doc))) as ((data' & Hdata' & Hpred) & _).
    { by apply in_map. }
    congruence. }
  split; [done|].
  assert (Hstatus : forall status result doc,
     FindTopDocuments_status s raw_query status = Ok result -> In doc result ->
     exists data, documents_ s !! doc_id doc = Some data /\
                  data_status data = status).
  { intros status result doc Hresult Hdoc.
    destruct (Hgeneral _ result doc Hresult Hdoc) as (data & Hdata & _ & Hpred).
    exists data. split; [done|]. by apply bool_decide_eq_true in Hpred. }
  split; [done|]. intros result doc. apply Hstatus.
Qed.

Lemma IsValidWord_strip_minus_2 (token : string) :
  IsValidWord token = true -> IsValidWord (strip_minus token) = true.
Proof.
  destruct token as [|[[] [] [] [] [] [] [] []] rest]; simpl; done.
Qed.

(** X23: which way [FindTopDocuments] ends on a reachable server: a raw
    query with a control character gives "Invalid requests text"; the
    empty raw query gives "Raw query is empty"; otherwise a token that is
    a bare ['-'] or starts with two of them gives "Invalid word try to
    request"; and in every other case the call returns. *)
Theorem FindTopDocuments_exceptions s (raw_query : string) document_predicate :
  reachable s ->
  (IsValidWord raw_query = false ->
   FindTopDocuments s raw_query document_predicate
   = Throw (invalid_argument "Invalid requests text")) /\
  (raw_query = "" ->
   FindTopDocuments s raw_query document_predicate
   = Throw (invalid_argument "Raw query is empty")) /\
  (IsValidWord raw_query = true -> raw_query <> "" ->
   Exists (fun token => strip_minus token = "" \/
                        has_minus (strip_minus token) = true)
          (SplitIntoWords raw_query) ->
   FindTopDocuments s raw_query document_predicate
   = Throw (invalid_argument "Invalid word try to request")) /\
  (IsValidWord raw_query = true -> raw_query <> "" ->
   ~ Exists (fun token => strip_minus token = "" \/
                          has_minus (strip_minus token) = true)
            (SplitIntoWords raw_query) ->
   is_Ok (FindTopDocuments s raw_query document_predicate)).
Proof.
  intros Hwf%reachable_well_formed. split; [|split; [|split]].
  - intros Hinvalid. unfold FindTopDocuments. by rewrite Hinvalid.
  - by intros ->.
  - intros Hvalid Hne Hbad. unfold FindTopDocuments.
    rewrite Hvalid. simpl. rewrite bool_decide_eq_false_2 by done.
    destruct (ParseQuery s raw_query) as [query|e] eqn:Hparse; simpl.
    + exfalso. apply (Ok_not_Throw (ParseQuery s raw_query)); [by eexists|].
      apply ParseQuery_loop_Throw. eapply Exists_impl; [exact Hbad|].
      unfold bad_query_term. simpl. tauto.
    + by apply ParseQuery_loop_exception in Hparse as ->.
  - intros Hvalid Hne Hgood.
    destruct (ParseQuery s raw_query) as [query|e] eqn:Hparse.
    + by eapply FindTopDocuments_total.
    + exfalso.
      assert (Hthrow : is_Throw (ParseQuery s raw_query)) by (by eexists).
      apply ParseQuery_loop_Throw, Exists_exists in Hthrow
        as (token & Hin & [Hempty|[Hminus|Hcontrol]]).
      * apply Hgood, Exists_exists. exists token. tauto.
      * apply Hgood, Exists_exists. exists token. tauto.
      * rewrite IsValidWord_SplitIntoWords, forallb_forall in Hvalid.
        apply list_elem_of_In, Hvalid, IsValidWord_strip_minus_2 in Hin.
        by apply IsValidWord_control in Hin.
Qed.

End found_documents.

Lemma FindAllDocuments_matches_witness :
  (forall document_id,
     In document_id
        (map doc_id
           [{| doc_id := 4;
               doc_relevance := (0 + (0 + 1 / 6 + 1 / 6) * ln (2 * 1 / 1))%R;
               doc_rating := 6 |}]) <->
     matches music_server
       {| plus_words := ["love"]; minus_words := ["in"]; stop_words := [] |}
       everything document_id) /\
  StronglySorted Z.lt
    (map doc_id
       [{| doc_id := 4;
           doc_relevance := (0 + (0 + 1 / 6 + 1 / 6) * ln (2 * 1 / 1))%R;
           doc_rating := 6 |}]) /\
  (forall doc,
     In doc [{| doc_id := 4;
                doc_relevance := (0 + (0 + 1 / 6 + 1 / 6) * ln (2 * 1 / 1))%R;
                doc_rating := 6 |}] ->
     exists data, documents_ music_server !! doc_id doc = Some data /\
                  doc_rating doc = data_rating data).
Proof.
  apply (FindAllDocuments_matches music_server
           {| plus_words := ["love"]; minus_words := ["in"]; stop_words := [] |}
           everything).
  - exact music_server_reachable.
  - vm_compute. reflexivity.
Defined.

Lemma FindTopDocuments_takes_found_witness :
  exists query found,
    ParseQuery cat_server "cat" = Ok query /\
    FindAllDocuments cat_server query everything = Ok found /\
    (forall doc,
       In doc [{| doc_id := 42;
                  doc_relevance := (0 + (0 + 1 / 2) * ln (1 * 1 / 1))%R;
                  doc_rating := 2 |}] -> In doc found) /\
    NoDup (map doc_id
             [{| doc_id := 42;
                 doc_relevance := (0 + (0 + 1 / 2) * ln (1 * 1 / 1))%R;
                 doc_rating := 2 |}]) /\
    length [{| doc_id := 42;
               doc_relevance := (0 + (0 + 1 / 2) * ln (1 * 1 / 1))%R;
               doc_rating := 2 |}] = min 5 (length found) /\
    (length found <= 5 ->
     Permutation [{| doc_id := 42;
                     doc_relevance := (0 + (0 + 1 / 2) * ln (1 * 1 / 1))%R;
                     doc_rating := 2 |}] found)%nat.
Proof.
  apply (FindTopDocuments_takes_found (sorter := insertion_std_sort)
           cat_server "cat" everything).
  - exact cat_server_reachable.
  - vm_compute. reflexivity.
Defined.

Lemma FindTopDocuments_filters_witness :
  (forall document_predicate result doc,
     FindTopDocuments (sorter := insertion_std_sort) cat_server "cat"
       document_predicate = Ok result ->
     In doc result ->
     exists data,
       documents_ cat_server !! doc_id doc = Some data /\
       doc_rating doc = data_rating data /\
       document_predicate (doc_id doc) (data_status data) (data_rating data)
       = true) /\
  (forall status result doc,
     FindTopDocuments_status (sorter := insertion_std_sort) cat_server "cat"
       status = Ok result -> In doc result ->
     exists data, documents_ cat_server !! doc_id doc = Some data /\
                  data_status data = status) /\
  (forall result doc,
     FindTopDocuments_default (sorter := insertion_std_sort) cat_server "cat"
     = Ok result -> In doc result ->
     exists data, documents_ cat_server !! doc_id doc = Some data /\
                  data_status data = ACTUAL).
Proof.
  apply (FindTopDocuments_filters (sorter := insertion_std_sort) cat_server "cat").
  exact cat_server_reachable.
Defined.

Lemma FindTopDocuments_exceptions_witness :
  (IsValidWord "cat --dog" = false ->
   FindTopDocuments (sorter := insertion_std_sort) cat_server "cat --dog"
     everything = Throw (invalid_argument "Invalid requests text")) /\
  ("cat --dog" = "" ->
   FindTopDocuments (sorter := insertion_std_sort) cat_server "cat --dog"
     everything = Throw (invalid_argument "Raw query is empty")) /\
  (IsValidWord "cat --dog" = true -> "cat --dog" <> "" ->
   Exists (fun token => strip_minus token = "" \/
                        has_minus (strip_minus token) = true)
          (SplitIntoWords "cat --dog") ->
   FindTopDocuments (sorter := insertion_std_sort) cat_server "cat --dog"
     everything = Throw (invalid_argument "Invalid word try to request")) /\
  (IsValidWord "cat --dog" = true -> "cat --dog" <> "" ->
   ~ Exists (fun token => strip_minus token = "" \/
                          has_minus (strip_minus token) = true)
            (SplitIntoWords "cat --dog") ->
   is_Ok (FindTopDocuments (sorter := insertion_std_sort) cat_server
            "cat --dog" everything)).
Proof.
  apply (FindTopDocuments_exceptions (sorter := insertion_std_sort)
           cat_server "cat --dog" everything).
  exact cat_server_reachable.
Defined.

(** ** The inverted index of a reachable server *)

Section index_invariant.
Context {D : Type} {ops : DoubleOps D}.
Implicit Types (s : SearchServer D) (word : string) (words : list string).

Lemma posting_length_le s word posting :
  well_formed s -> word_to_document_freqs_ s !! word = Some posting ->
  (length posting <= size (documents_ s))%nat.
Proof.
  intros Hwf Hword. rewrite <- (wf_ids_length s Hwf).
  replace (length posting) with (length (imap_keys posting))
    by apply length_map.
  apply NoDup_incl_length.
  - by apply NoDup_ListNoDup, imap_sorted_NoDup, (wf_posting_keys s Hwf word).
  - intros document_id Hin. apply (wf_ids s Hwf).
    by apply (wf_postings s Hwf word posting).
Qed.

Lemma reachable_index_words s word posting :
  reachable s -> word_to_document_freqs_ s !! word = Some posting ->
  IsStopWord s word = false /\ IsValidWord word = true /\ is_word word /\
  posting <> [].
Proof.
  intros Hreach. revert word posting.
  induction Hreach
    as [|stop_words s Hs|text s Hs|s id document status ratings s' Hreach IH Hadd];
    intros word posting.
  - simpl. by rewrite lookup_empty.
  - unfold SearchServer_from_container in Hs.
    destruct (forallb IsValidWord stop_words); [|done].
    injection Hs as <-. simpl. by rewrite lookup_empty.
  - unfold SearchServer_from_text, SearchServer_from_container in Hs.
    destruct (forallb IsValidWord _); [|done].
    injection Hs as <-. simpl. by rewrite lookup_empty.
  - pose proof (reachable_well_formed s Hreach) as Hwf.
    pose proof (AddDocument_Ok_fields _ _ _ _ _ _ Hadd)
      as (Hfresh & Hstop & Hdocs & Hids).
    destruct (AddDocument_postings s id document status ratings s' word Hwf Hadd)
      as (Hzero & Hmore & _).
    assert (Hstopword : IsStopWord s' word = IsStopWord s word)
      by (unfold IsStopWord; by rewrite Hstop).
    rewrite Hstopword.
    destruct (count_occ String.string_dec (indexed_words s document) word)
      as [|n] eqn:Hcount.
    + rewrite Hzero by done. apply IH.
    + destruct Hmore as (posting' & Hposting' & Hfind); [done|].
      rewrite Hposting'. intros [= <-].
      assert (Hin : In word (indexed_words s document)).
      { apply (count_occ_In String.string_dec). lia. }
      apply filter_In in Hin as [Htoken Hnostop].
      apply negb_true_iff in Hnostop.
      split; [done|]. split; [|split].
      * destruct (IsValidWord word) eqn:Hvalid; [done|]. exfalso.
        pose proof (AddDocument_Ok _ _ _ _ _ _ Hadd)
          as (_ & _ & words & Hsplit & _).
        apply (Ok_not_Throw (SplitIntoWordsNoStop s document)); [by eexists|].
        apply SplitIntoWordsNoStop_loop_Throw, Exists_exists. exists word.
        split; [by apply list_elem_of_In|done].
      * assert (Hwords : Forall is_word (SplitIntoWords document))
          by by apply SplitIntoWords_loop_words.
        rewrite Forall_forall in Hwords. by apply Hwords, list_elem_of_In.
      * intros ->. done.
Qed.

(** X24: in the inverted index of a reachable server every key is a word
    (not empty, no space) without control character that is no stop word,
    and every posting holds at least one document and at most as many as
    the server has, so that the quotient under the logarithm of the
    inverse document frequency is at least 1. *)
Theorem reachable_index s (word : string) (posting : list (Z * D)) :
  reachable s -> word_to_document_freqs_ s !! word = Some posting ->
  IsStopWord s word = false /\ IsValidWord word = true /\ is_word word /\
  1 <= Z.of_nat (length posting) <= GetDocumentCount s.
Proof.
  intros Hreach Hword.
  destruct (reachable_index_words s word posting Hreach Hword)
    as (Hstop & Hvalid & His_word & Hne).
  pose proof (posting_length_le s word posting
                (reachable_well_formed s Hreach) Hword) as Hle.
  split; [done|]. split; [done|]. split; [done|].
  unfold GetDocumentCount. destruct posting; [done|]. simpl in *. lia.
Qed.

End index_invariant.

Lemma reachable_index_witness :
  IsStopWord cat_server "city" = false /\ IsValidWord "city" = true /\
  is_word "city" /\
  1 <= Z.of_nat (length [(42, (0 + 1 / 2)%R)]) <= GetDocumentCount cat_server.
Proof.
  apply (reachable_index cat_server "city" [(42, (0 + 1 / 2)%R)]).
  - exact cat_server_reachable.
  - vm_compute. reflexivity.
Defined.

(** ** The average rating lies between the ratings *)

Lemma rating_sum_between ratings low high :
  Forall (fun rating => low <= rating <= high) ratings ->
  Z.of_nat (length ratings) * low <= foldr Z.add 0 ratings
  <= Z.of_nat (length ratings) * high.
Proof.
  induction 1 as [|rating ratings Hrating _ IH]; simpl length; simpl foldr; lia.
Qed.

(** X25: when no partial sum leaves the range of [int], the average
    rating of a non-empty sequence lies between its smallest and its
    largest rating. *)
Theorem ComputeAverageRating_between (ratings : list Z) (low high : Z) :
  ratings <> [] ->
  sums_in_int_range 0 ratings ->
  in_int_range (Z.of_nat (length ratings)) ->
  Forall (fun rating => low <= rating <= high) ratings ->
  low <= ComputeAverageRating ratings <= high.
Proof.
  intros Hne Hsums Hlength Hall.
  destruct ratings as [|rating ratings]; [done|].
  unfold ComputeAverageRating.
  rewrite (rating_sum_exact _ _ Hsums), (int_wrap_in_range _ Hlength), Z.add_0_l.
  pose proof (rating_sum_between _ _ _ Hall) as Hsum.
  set (sum := foldr Z.add 0 (rating :: ratings)) in *.
  set (n := Z.of_nat (length (rating :: ratings))) in *.
  assert (Hn : 0 < n) by (unfold n; simpl; lia).
  pose proof (Z.quot_rem' sum n) as Hquot.
  destruct (Z.le_ge_cases 0 sum) as [Hpos|Hneg].
  - pose proof (Z.rem_bound_pos sum n Hpos Hn). nia.
  - pose proof (Z.rem_bound_pos (- sum) n ltac:(lia) Hn) as Hrem.
    rewrite Z.rem_opp_l in Hrem by lia. nia.
Qed.

Lemma ComputeAverageRating_between_witness :
  -2 <= ComputeAverageRating [-2; 5; 3] <= 5.
Proof.
  apply (ComputeAverageRating_between [-2; 5; 3] (-2) 5).
  - discriminate.
  - cbv; intuition congruence.
  - cbv; intuition congruence.
  - repeat constructor; lia.
Defined.

(** ** No relevance is negative *)

Section relevance_sign.
Context {D : Type} {ops : DoubleOps D} {sorter : StdSort}.
Implicit Types (s : SearchServer D) (word : string).

(** What the argument needs of the arithmetic; IEEE doubles have it. *)
Hypothesis zero_not_negative : not_negative (of_int 0).
Hypothesis sum_not_negative :
  forall a b : D, not_negative a -> not_negative b -> not_negative (dadd a b).
Hypothesis product_not_negative :
  forall a b : D, not_negative a -> not_negative b -> not_negative (dmul a b).
Hypothesis inverse_not_negative :
  forall n, 1 <= n -> not_negative (ddiv (of_int 1) (of_int n)).
Hypothesis quotient_at_least_one :
  forall count size, 1 <= size <= count ->
    at_least_one (ddiv (dmul (of_int count) (of_int 1)) (of_int size)).
Hypothesis log_not_negative :
  forall x : D, at_least_one x -> not_negative (dlog x).

Lemma iterated_sum_not_negative (k : nat) (a : D) :
  not_negative a -> not_negative (Nat.iter k (fun freq => dadd freq a) (of_int 0)).
Proof. intros Ha. induction k as [|k IH]; simpl; auto. Qed.

Lemma reachable_term_frequency s word posting document_id term_frequency :
  reachable s ->
  word_to_document_freqs_ s !! word = Some posting ->
  imap_find document_id posting = Some term_frequency ->
  not_negative term_frequency.
Proof.
  intros Hreach. revert word posting document_id term_frequency.
  induction Hreach
    as [|stop_words s Hs|text s Hs|s id document status ratings s' Hreach IH Hadd];
    intros word posting document_id term_frequency.
  - simpl. by rewrite lookup_empty.
  - unfold SearchServer_from_container in Hs.
    destruct (forallb IsValidWord stop_words); [|done].
    injection Hs as <-. simpl. by rewrite lookup_empty.
  - unfold SearchServer_from_text, SearchServer_from_container in Hs.
    destruct (forallb IsValidWord _); [|done].
    injection Hs as <-. simpl. by rewrite lookup_empty.
  - pose proof (reachable_well_formed s Hreach) as Hwf.
    destruct (AddDocument_postings s id document status ratings s' word Hwf Hadd)
      as (Hzero & Hmore & Hother).
    intros Hword Hfind.
    destruct (decide (document_id = id)) as [->|Hne].
    + destruct (count_occ String.string_dec (indexed_words s document) word)
        as [|k] eqn:Hcount.
      * rewrite Hzero in Hword by done. by eapply IH.
      * destruct Hmore as (posting' & Hposting' & Hfind'); [done|].
        assert (posting' = posting) as -> by congruence.
        rewrite Hfind' in Hfind. injection Hfind as <-.
        apply (iterated_sum_not_negative (S k)
                 (ddiv (of_int 1)
                    (of_int (Z.of_nat (length (indexed_words s document)))))).
        apply inverse_not_negative.
        pose proof (count_occ_bound String.string_dec word
                      (indexed_words s document)) as Hbound.
        lia.
    + destruct (Hother document_id Hne) as [_ Hsame].
      rewrite Hword in Hsame. simpl in Hsame. rewrite Hfind in Hsame.
      destruct (word_to_document_freqs_ s !! word) as [old|] eqn:Hold;
        simpl in Hsame; [|done].
      by eapply IH.
Qed.

Lemma relevance_sum_not_negative s document_id terms sum :
  reachable s -> not_negative sum ->
  not_negative (fold_left (add_tf_idf s document_id) terms sum).
Proof.
  intros Hreach. revert sum.
  induction terms as [|term terms IH]; intros sum Hsum; simpl; [done|].
  apply IH. unfold add_tf_idf.
  destruct (word_to_document_freqs_ s !! term) as [posting|] eqn:Hterm; [|done].
  destruct (imap_find document_id posting) as [term_frequency|] eqn:Hfind;
    [|done].
  apply sum_not_negative; [done|]. apply product_not_negative.
  - by apply (reachable_term_frequency s term posting document_id).
  - destruct (reachable_index_words s term posting Hreach Hterm)
      as (_ & _ & _ & Hne).
    pose proof (posting_length_le s term posting
                  (reachable_well_formed s Hreach) Hterm) as Hle.
    apply log_not_negative, quotient_at_least_one.
    unfold GetDocumentCount. destruct posting; [done|]. simpl in *. lia.
Qed.

(** X27: when sums and products of values that are not negative are not
    negative, [1.0 / n] is not negative for [n >= 1], [count * 1.0 / size]
    is at least 1 for [1 <= size <= count] and the logarithm of a value
    that is at least 1 is not negative, no relevance that
    [FindTopDocuments] returns on a reachable server is negative. *)
Theorem relevance_nonnegative s (raw_query : string) document_predicate
    (result : list (Document D)) (doc : Document D) :
  reachable s ->
  FindTopDocuments s raw_query document_predicate = Ok result ->
  In doc result -> not_negative (doc_relevance doc).
Proof.
  intros Hreach Hresult Hdoc.
  pose proof (reachable_well_formed s Hreach) as Hwf.
  destruct (FindTopDocuments_result s raw_query document_predicate result
              Hwf Hresult) as (query & found & _ & Hfound & Hsub & _).
  destruct (FindAllDocuments_relevance s query document_predicate Hwf)
    as (found' & Hfound' & Hrelevance).
  rewrite (Hrelevance doc) by (apply Hsub in Hdoc; congruence).
  by apply relevance_sum_not_negative.
Qed.

End relevance_sign.

(** ** Examples over the real numbers *)

Section real_examples.
Local Open Scope R_scope.

Lemma real_not_negative (x : R) : not_negative x <-> 0 <= x.
Proof.
  unfold not_negative. cbn [of_int dlt real_ops].
  destruct (Rlt_dec x 0); split; intros; (done || lra).
Qed.

Lemma real_at_least_one (x : R) : at_least_one x <-> 1 <= x.
Proof.
  unfold at_least_one. cbn [of_int dlt real_ops].
  destruct (Rlt_dec x 1); split; intros; (done || lra).
Qed.

Lemma real_inverse_not_negative (n : Z) :
  (1 <= n)%Z -> not_negative (ddiv (of_int 1) (of_int n)).
Proof.
  intros Hn. apply real_not_negative. cbn [of_int ddiv real_ops].
  apply IZR_le in Hn. left. apply Rdiv_lt_0_compat; lra.
Qed.

Lemma real_quotient_at_least_one (count size : Z) :
  (1 <= size <= count)%Z ->
  at_least_one (ddiv (dmul (of_int count) (of_int 1)) (of_int size)).
Proof.
  intros [Hsize Hcount]. apply real_at_least_one. cbn [of_int ddiv dmul real_ops].
  apply IZR_le in Hsize, Hcount.
  apply Rmult_le_reg_r with (IZR size); [lra|].
  unfold Rdiv. rewrite Rmult_assoc, Rinv_l by lra. lra.
Qed.

Lemma real_log_not_negative (x : R) : at_least_one x -> not_negative (dlog x).
Proof.
  intros Hx%real_at_least_one. apply real_not_negative. cbn [dlog real_ops].
  rewrite <- ln_1. destruct (Rle_lt_or_eq_dec _ _ Hx) as [Hlt| <-]; [|lra].
  left. apply ln_increasing; lra.
Qed.

(** The comparison of the sort when the two relevances are equal or at
    least [EPSILON] apart. *)
Lemma by_relevance_separated (lhs rhs : Document R) :
  doc_relevance lhs = doc_relevance rhs \/
  1 / 1000000 <= Rabs (doc_relevance lhs - doc_relevance rhs) ->
  by_relevance lhs rhs = true <->
  doc_relevance rhs < doc_relevance lhs \/
  (doc_relevance lhs = doc_relevance rhs /\
   (doc_rating rhs < doc_rating lhs)%Z).
Proof.
  intros Hsep. unfold by_relevance, EPSILON.
  cbn [of_int dsub dabs ddiv dlt real_ops].
  destruct (Rlt_dec (Rabs (doc_relevance lhs - doc_relevance rhs)) (1 / 1000000))
    as [Hclose|Hfar].
  - destruct Hsep as [Heq|Hsep]; [|lra].
    rewrite Z.ltb_lt. split; [by right|]. intros [Hlt|[_ ?]]; [lra|done].
  - assert (Hne : doc_relevance lhs <> doc_relevance rhs).
    { intros Heq. apply Hfar. rewrite Heq, Rminus_diag, Rabs_R0. lra. }
    destruct (Rlt_dec (doc_relevance rhs) (doc_relevance lhs)) as [Hlt|Hge].
    + split; [by left|done].
    + split; [done|]. intros [Hlt|[Heq _]]; done.
Qed.

(** Relevances that are equal or at least [EPSILON] apart make the
    comparison of the sort a strict weak ordering. *)
Lemma separated_strict_weak_order (found : list (Document R)) :
  (forall a b, In a found -> In b found ->
     doc_relevance a = doc_relevance b \/
     1 / 1000000 <= Rabs (doc_relevance a - doc_relevance b)) ->
  strict_weak_order_on by_relevance found.
Proof.
  intros Hsep.
  assert (Hcomp : forall a b, In a found -> In b found ->
            (by_relevance a b = true <->
             doc_relevance b < doc_relevance a \/
             (doc_relevance a = doc_relevance b /\
              (doc_rating b < doc_rating a)%Z))).
  { intros a b Ha Hb. apply by_relevance_separated. by apply Hsep. }
  assert (Hfalse : forall a b, In a found -> In b found ->
            (by_relevance a b = false <->
             ~ (doc_relevance b < doc_relevance a \/
                (doc_relevance a = doc_relevance b /\
                 (doc_rating b < doc_rating a)%Z)))).
  { intros a b Ha Hb. rewrite <- (Hcomp a b Ha Hb).
    by destruct (by_relevance a b). }
  split.
  - intros a Ha. apply (Hfalse a a Ha Ha). intros [?|[_ ?]]; [lra|lia].
  - intros a b c Ha Hb Hc.
    rewrite (Hcomp a b), (Hcomp b c), (Hcomp a c) by done.
    intros [?|[? ?]] [?|[? ?]]; [left; lra|left; lra|left; lra|right].
    split; [lra|lia].
  - intros a b c Ha Hb Hc.
    rewrite (Hfalse a b), (Hfalse b a), (Hfalse b c), (Hfalse c b),
      (Hfalse a c), (Hfalse c a) by done.
    intros Hab Hba Hbc Hcb.
    assert (doc_relevance a = doc_relevance b) by lra.
    assert (doc_relevance b = doc_relevance c) by lra.
    assert (doc_rating a = doc_rating b).
    { destruct (Z.lt_trichotomy (doc_rating a) (doc_rating b)) as [?|[?|?]];
        [|done|].
      - exfalso. apply Hba. right. split; [lra|done].
      - exfalso. apply Hab. right. split; [lra|done]. }
    assert (doc_rating b = doc_rating c).
    { destruct (Z.lt_trichotomy (doc_rating b) (doc_rating c)) as [?|[?|?]];
        [|done|].
      - exfalso. apply Hcb. right. split; [lra|done].
      - exfalso. apply Hbc. right. split; [lra|done]. }
    split; intros [?|[? ?]]; lra || lia.
Qed.

Lemma idf_of_rank : ln (12 * 1 / 6) = ln 2.
Proof. f_equal. lra. Qed.

(** On the documents found on [rank_server] the comparison of the sort
    puts first the document with fewer words, and of two documents with
    the same number of words the one with the higher rating. *)
Lemma by_relevance_rank (a b n m p q : Z) :
  (1 <= n <= 6)%Z -> (1 <= m <= 6)%Z ->
  by_relevance (rank_doc a n p) (rank_doc b m q)
  = if (n =? m)%Z then (q <? p)%Z else (n <? m)%Z.
Proof.
  intros Hn Hm.
  assert (Hcases : forall k, (1 <= k <= 6)%Z ->
            k = 1%Z \/ k = 2%Z \/ k = 3%Z \/ k = 4%Z \/ k = 5%Z \/ k = 6%Z)
    by (intros; lia).
  pose proof ln_2_bounds as [Hlow Hhigh].
  unfold by_relevance, rank_doc, EPSILON. cbn [doc_relevance doc_rating].
  rewrite idf_of_rank. cbn [of_int dsub dabs ddiv real_ops].
  destruct (Hcases n Hn) as [-> | [-> | [-> | [-> | [-> | ->]]]]];
    destruct (Hcases m Hm) as [-> | [-> | [-> | [-> | [-> | ->]]]]];
    cbn [Z.eqb Z.ltb Z.compare Pos.eqb Pos.compare Pos.compare_cont];
    first
      [ rewrite real_lt_true by (rewrite Rminus_diag, Rabs_R0; lra); reflexivity
      | rewrite real_lt_false by (intros ?%Rabs_def2; lra);
        first [ rewrite real_lt_true by lra; reflexivity
              | rewrite real_lt_false by lra; reflexivity ] ].
Qed.

End real_examples.

Lemma rank_server_reachable : reachable rank_server.
Proof.
  apply add_all_reachable; [apply reachable_default|].
  vm_compute. reflexivity.
Qed.

Lemma rank_query :
  ParseQuery rank_server "w"
  = Ok {| plus_words := ["w"]; minus_words := []; stop_words := [] |}.
Proof. vm_compute. reflexivity. Qed.

Lemma rank_found :
  FindAllDocuments rank_server
    {| plus_words := ["w"]; minus_words := []; stop_words := [] |} everything
  = Ok [rank_doc 1 6 1; rank_doc 2 3 5; rank_doc 3 2 2; rank_doc 4 1 3;
        rank_doc 5 2 7; rank_doc 6 4 4].
Proof. vm_compute. reflexivity. Qed.

Lemma rank_found_separated (a b : Document R) :
  In a [rank_doc 1 6 1; rank_doc 2 3 5; rank_doc 3 2 2; rank_doc 4 1 3;
        rank_doc 5 2 7; rank_doc 6 4 4] ->
  In b [rank_doc 1 6 1; rank_doc 2 3 5; rank_doc 3 2 2; rank_doc 4 1 3;
        rank_doc 5 2 7; rank_doc 6 4 4] ->
  (doc_relevance a = doc_relevance b \/
   1 / 1000000 <= Rabs (doc_relevance a - doc_relevance b))%R.
Proof.
  pose proof ln_2_bounds as [Hlow Hhigh].
  intros Ha Hb. simpl in Ha, Hb.
  destruct Ha as [<-|[<-|[<-|[<-|[<-|[<-|[]]]]]]];
    destruct Hb as [<-|[<-|[<-|[<-|[<-|[<-|[]]]]]]];
    unfold rank_doc; cbn [doc_relevance]; rewrite idf_of_rank;
    first [ left; reflexivity
          | right; unfold Rabs; destruct (Rcase_abs _); lra ].
Qed.

Lemma rank_sorted :
  insertion_sort by_relevance
    [rank_doc 1 6 1; rank_doc 2 3 5; rank_doc 3 2 2; rank_doc 4 1 3;
     rank_doc 5 2 7; rank_doc 6 4 4]
  = [rank_doc 4 1 3; rank_doc 5 2 7; rank_doc 3 2 2; rank_doc 2 3 5;
     rank_doc 6 4 4; rank_doc 1 6 1].
Proof.
  unfold insertion_sort.
  repeat (cbn -[by_relevance rank_doc]; rewrite by_relevance_rank by lia).
  reflexivity.
Qed.

Lemma rank_top :
  FindTopDocuments (sorter := insertion_std_sort) rank_server "w" everything
  = Ok [rank_doc 4 1 3; rank_doc 5 2 7; rank_doc 3 2 2; rank_doc 2 3 5;
        rank_doc 6 4 4].
Proof.
  rewrite (FindTopDocuments_found (sorter := insertion_std_sort)
             rank_server "w" everything _ _ ltac:(discriminate) rank_query
             eq_refl rank_found).
  change (@std_sort insertion_std_sort) with (@insertion_sort).
  rewrite rank_sorted. reflexivity.
Qed.

(** Six documents are found; the five returned are in order, the two of
    equal relevance by rating, and the one of least relevance is cut. *)
Lemma FindTopDocuments_at_most_five_ranked_witness :
  FindTopDocuments (sorter := insertion_std_sort) rank_server "w" everything
  = Ok [rank_doc 4 1 3; rank_doc 5 2 7; rank_doc 3 2 2; rank_doc 2 3 5;
        rank_doc 6 4 4] /\
  strict_weak_order_on by_relevance
    [rank_doc 1 6 1; rank_doc 2 3 5; rank_doc 3 2 2; rank_doc 4 1 3;
     rank_doc 5 2 7; rank_doc 6 4 4] /\
  Z.of_nat (length [rank_doc 4 1 3; rank_doc 5 2 7; rank_doc 3 2 2;
                    rank_doc 2 3 5; rank_doc 6 4 4]) <= 5 /\
  ranked [rank_doc 4 1 3; rank_doc 5 2 7; rank_doc 3 2 2; rank_doc 2 3 5;
          rank_doc 6 4 4] /\
  StronglySorted in_rank_order
    [rank_doc 4 1 3; rank_doc 5 2 7; rank_doc 3 2 2; rank_doc 2 3 5;
     rank_doc 6 4 4].
Proof.
  pose proof (separated_strict_weak_order _ rank_found_separated) as Hswo.
  split; [exact rank_top|]. split; [exact Hswo|].
  pose proof (FindTopDocuments_at_most_five_ranked
                (sorter := insertion_std_sort) rank_server "w" everything
                _ rank_top) as [Hlength Hranked].
  split; [exact Hlength|].
  exact (Hranked _ _ rank_query rank_found Hswo).
Defined.

Lemma relevance_nonnegative_witness :
  not_negative
    (doc_relevance
       {| doc_id := 42;
          doc_relevance := (0 + (0 + 1 / 2) * ln (1 * 1 / 1))%R;
          doc_rating := 2 |}).
Proof.
  apply (relevance_nonnegative (sorter := insertion_std_sort)
           (proj2 (real_not_negative 0) (Rle_refl 0))
           (fun a b Ha Hb =>
              proj2 (real_not_negative (a + b))
                (Rplus_le_le_0_compat a b (proj1 (real_not_negative a) Ha)
                   (proj1 (real_not_negative b) Hb)))
           (fun a b Ha Hb =>
              proj2 (real_not_negative (a * b))
                (Rmult_le_pos a b (proj1 (real_not_negative a) Ha)
                   (proj1 (real_not_negative b) Hb)))
           real_inverse_not_negative real_quotient_at_least_one
           real_log_not_negative
           cat_server "cat" everything
           [{| doc_id := 42;
               doc_relevance := (0 + (0 + 1 / 2) * ln (1 * 1 / 1))%R;
               doc_rating := 2 |}]).
  - exact cat_server_reachable.
  - vm_compute. reflexivity.
  - left. reflexivity.
Defined.

(** ** The relevance of the candidates *)

Section candidate_relevance.
Context {D : Type} {ops : DoubleOps D} {sorter : StdSort}.
Implicit Types (s : SearchServer D) (query : Query).
Implicit Types (document_predicate : DocumentPredicate).

(** The sum that the code accumulates term by term is the sum over the
    terms whose posting holds the document. *)
Lemma relevance_sum_hits s document_id terms sum :
  fold_left (add_tf_idf s document_id) terms sum
  = fold_left (fun sum term => dadd sum (tf_idf s document_id term))
      (List.filter (fun term => posting_has s term document_id) terms) sum.
Proof.
  revert sum. induction terms as [|term terms IH]; intros sum; simpl; [done|].
  rewrite IH. clear IH.
  assert (Hstep : add_tf_idf s document_id sum term
                  = if posting_has s term document_id
                    then dadd sum (tf_idf s document_id term) else sum).
  { unfold add_tf_idf, posting_has, tf_idf, stored_frequency,
      document_frequency, inverse_document_frequency.
    destruct (word_to_document_freqs_ s !! term) as [posting|]; simpl; [|done].
    by destruct (imap_find document_id posting) as [term_frequency|]. }
  rewrite Hstep. by destruct (posting_has s term document_id).
Qed.

(** C1: on a reachable server and for a non-empty query that parses, the
    search returns; its candidates are exactly the documents that pass
    the predicate, are in the posting of a plus word and of no minus
    word; the relevance computed for a candidate is the sum, over the
    plus words whose posting holds the document, of the term frequency
    stored for the document times [ln(document count / posting size)], so
    that a plus word that is not in the index adds nothing and stops
    nothing; every entry of the result is a candidate with that
    relevance, and every candidate is in the result when there are at
    most five. *)
Theorem relevance_is_tf_idf_sum s (raw_query : string) document_predicate query :
  reachable s -> raw_query <> "" -> ParseQuery s raw_query = Ok query ->
  exists found result,
    FindAllDocuments s query document_predicate = Ok found /\
    FindTopDocuments s raw_query document_predicate = Ok result /\
    (forall document_id,
       In document_id (map doc_id found) <->
       matches s query document_predicate document_id) /\
    (forall doc, In doc found ->
       doc_relevance doc = tf_idf_sum s (doc_id doc) (plus_words query)) /\
    (forall doc, In doc result -> In doc found) /\
    ((length found <= 5)%nat -> forall doc, In doc found -> In doc result).
Proof.
  intros Hwf%reachable_well_formed Hne Hparse.
  destruct (FindTopDocuments_total s raw_query document_predicate query)
    as [result Hresult]; [done..|].
  destruct (FindTopDocuments_result s raw_query document_predicate result
              Hwf Hresult)
    as (query' & found & Hparse' & Hfound & Hsub & _ & _ & Hall).
  assert (query' = query) as -> by congruence.
  exists found, result. split; [done|]. split; [done|].
  destruct (FindAllDocuments_found s query document_predicate found Hwf Hfound)
    as (Hmatches & _ & _).
  split; [done|]. split; [|split; [done|]].
  - intros doc Hdoc.
    destruct (FindAllDocuments_relevance s query document_predicate Hwf)
      as (found' & Hfound' & Hrelevance).
    assert (found' = found) as -> by congruence.
    rewrite (Hrelevance doc Hdoc). apply relevance_sum_hits.
  - intros Hfew doc Hdoc.
    by apply (Permutation_in _ (Permutation_sym (Hall Hfew))).
Qed.

End candidate_relevance.

(** On [music_server] the query "sweet love zebra" has two candidates:
    document 4, which holds "love" twice among six words, and document
    12, which holds "sweet" once among four; each word is in one document
    of two, and the unknown word "zebra" adds nothing. *)
Lemma music_candidates :
  FindAllDocuments music_server
    {| plus_words := ["love"; "sweet"; "zebra"]; minus_words := [];
       stop_words := [] |} everything
  = Ok [{| doc_id := 4;
           doc_relevance := (0 + (0 + 1 / 6 + 1 / 6) * ln (2 * 1 / 1))%R;
           doc_rating := 6 |};
        {| doc_id := 12;
           doc_relevance := (0 + (0 + 1 / 4) * ln (2 * 1 / 1))%R;
           doc_rating := 1 |}] /\
  tf_idf_sum music_server 4 ["love"; "sweet"; "zebra"]
  = (0 + (0 + 1 / 6 + 1 / 6) * ln (2 * 1 / 1))%R /\
  tf_idf_sum music_server 12 ["love"; "sweet"; "zebra"]
  = (0 + (0 + 1 / 4) * ln (2 * 1 / 1))%R.
Proof. repeat split; vm_compute; reflexivity. Qed.

Lemma relevance_is_tf_idf_sum_witness :
  exists found result,
    FindAllDocuments music_server
      {| plus_words := ["love"; "sweet"; "zebra"]; minus_words := [];
         stop_words := [] |} everything = Ok found /\
    FindTopDocuments (sorter := insertion_std_sort) music_server
      "sweet love zebra" everything = Ok result /\
    (forall document_id,
       In document_id (map doc_id found) <->
       matches music_server
         {| plus_words := ["love"; "sweet"; "zebra"]; minus_words := [];
            stop_words := [] |} everything document_id) /\
    (forall doc, In doc found ->
       doc_relevance doc
       = tf_idf_sum music_server (doc_id doc) ["love"; "sweet"; "zebra"]) /\
    (forall doc, In doc result -> In doc found) /\
    ((length found <= 5)%nat -> forall doc, In doc found -> In doc result).
Proof.
  apply (relevance_is_tf_idf_sum (sorter := insertion_std_sort)
           music_server "sweet love zebra" everything
           {| plus_words := ["love"; "sweet"; "zebra"]; minus_words := [];
              stop_words := [] |}).
  - exact music_server_reachable.
  - discriminate.
  - vm_compute. reflexivity.
Defined.

(** ** The sets of a parsed query *)

Section query_classification.
Context {D : Type} {ops : DoubleOps D}.
Implicit Types (s : SearchServer D) (query : Query) (token term : string).

(** C8, as amended: query parsing takes at most one leading ['-'] off
    each token; it throws [invalid_argument] exactly when, for some
    token, what is left is empty, starts with ['-'] or holds a character
    in 0x00..0x1F; and when it returns, every token has been parsed into
    its stripped term, its minus flag and its stop flag, and the sets of
    the query hold exactly what the tokens of their kind put there: the
    plus words are the terms of the tokens without ['-'] that are no stop
    words, the minus words the terms of the tokens with ['-'] that are no
    stop words, and the stop words the tokens, as written, whose term is
    a stop word. *)
Theorem ParseQuery_fails_exactly_on_bad_terms s (raw_query : string) :
  (is_Throw (ParseQuery s raw_query) <->
   Exists (fun token => bad_query_term (strip_minus token))
          (SplitIntoWords raw_query)) /\
  (forall e, ParseQuery s raw_query = Throw e ->
             e = invalid_argument "Invalid word try to request") /\
  (forall query, ParseQuery s raw_query = Ok query ->
     Forall (fun token => exists query_word,
               ParseQueryWord s token = Ok query_word /\
               qw_data query_word = strip_minus token /\
               qw_is_minus query_word = has_minus token /\
               qw_is_stop query_word = IsStopWord s (strip_minus token))
            (SplitIntoWords raw_query) /\
     (forall term, In term (plus_words query) <->
        exists token, In token (SplitIntoWords raw_query) /\
          term = strip_minus token /\ has_minus token = false /\
          IsStopWord s (strip_minus token) = false) /\
     (forall term, In term (minus_words query) <->
        exists token, In token (SplitIntoWords raw_query) /\
          term = strip_minus token /\ has_minus token = true /\
          IsStopWord s (strip_minus token) = false) /\
     (forall token, In token (stop_words query) <->
        In token (SplitIntoWords raw_query) /\
        IsStopWord s (strip_minus token) = true)).
Proof.
  split; [apply ParseQuery_loop_Throw|].
  split; [intros e; apply ParseQuery_loop_exception|].
  intros query Hparse.
  pose proof (ParseQuery_members s raw_query query Hparse)
    as (Hplus & Hminus & Hstop).
  split; [|split; [|split]].
  - apply ParseQuery_loop_Ok in Hparse as [_ Hall].
    eapply Forall_impl; [exact Hall|]. simpl.
    intros token (query_word & Hword & _). exists query_word.
    by pose proof (ParseQueryWord_Ok _ _ _ Hword) as (-> & _).
  - intros term. rewrite Hplus. split.
    + intros (Hin & Hplain & Hnostop). exists term.
      by rewrite (strip_minus_plain term Hplain).
    + intros (token & Hin & -> & Hplain & Hnostop).
      by rewrite (strip_minus_plain token Hplain) in *.
  - intros term. rewrite Hminus. split.
    + intros (Hin & Hnostop). by exists (String "-" term).
    + intros (token & Hin & -> & Hminus' & Hnostop).
      by rewrite <- (strip_minus_minus token Hminus').
  - exact Hstop.
Qed.

End query_classification.

(** C8 as stated fails for the sets: in the query "b -b" the term "b" is
    a plus word and a minus word; and for the stop word "in" the query
    "-in" holds the token "-in", not the term, among its stop words. *)
Lemma ParseQuery_term_in_two_sets :
  ParseQuery cat_server "b -b"
  = Ok {| plus_words := ["b"]; minus_words := ["b"]; stop_words := [] |} /\
  ParseQuery cat_server "-in"
  = Ok {| plus_words := []; minus_words := []; stop_words := ["-in"] |}.
Proof. split; vm_compute; reflexivity. Qed.
